(** * pipeit: the process manager of [pipe.go]

    A shallow embedding of the [ProcessManager] of package [pipe]: its
    constructors, the two start paths, the drain loops run by the goroutines
    they launch, the write and control operations and [Stop].

    The operating system is an explicit parameter ([OS]): every fallible
    primitive the manager calls ([pty.Start], the three pipe constructors,
    [cmd.Start], [Write], [Kill], [Wait], [pty.Setsize]) answers as a function
    of the trace of system calls issued so far.  The bytes a child produces
    are held by the state as one [Reader] per file; closing a file, by
    [Stop] or by [exec.Cmd.Wait], replaces its [Reader] by one that refuses
    every read.  Byte slices live in a heap of arrays, so that a slice
    handed to a handler and the read buffer of a loop can be told apart.

    Handlers are names: what a handler does with a chunk is the caller's
    business, and the model records which handler was invoked, by which
    goroutine, on which array.  The mutex [mu] is the atomicity of the
    locked sections: a run of the system is a list of events, each a call
    of the manager's API by the caller or one pass of one goroutine through
    its loop. *)

From Stdlib Require Import ZArith String Ascii Strings.Byte List Lia.
From stdpp Require Import base list strings numbers.

Open Scope Z_scope.
Open Scope nat_scope.

(** ** Errors *)

(** The error values the package sees or builds.  [PathError] is the
    [*fs.PathError] wrapper of [os.File] methods; [ErrorString] and
    [WrapError] are what [fmt.Errorf] returns without and with [%w]. *)
Inductive error : Type :=
| EOF
| ErrClosed
| ErrInvalid
| Errno (e : Z)
| PathError (op path : string) (err : error)
| ErrorString (s : string)
| WrapError (msg : string) (err : error).

#[global] Instance error_eq_dec : EqDecision error.
Proof. solve_decision. Defined.

(** [syscall.EIO] *)
Definition EIO : error := Errno 5.

(** [errors.Unwrap] *)
Definition Unwrap (e : error) : option error :=
  match e with
  | PathError _ _ err => Some err
  | WrapError _ err => Some err
  | _ => None
  end.

(** [errors.Is]: [target] occurs on the unwrap chain of [e]. *)
Fixpoint errors_Is (e target : error) : bool :=
  if bool_decide (e = target) then true
  else match e with
       | PathError _ _ err => errors_Is err target
       | WrapError _ err => errors_Is err target
       | _ => false
       end.

(** ** Data *)

Definition File := nat.
Definition Handler := nat.

Record Process := { Pid : Z }.

Record Cmd := {
  Path : string;
  Args : list string;
  Env : list string;
  Proc : option Process
}.

(** The fields of [ProcessManager]; [ctx_done] is the state of the context
    that [cancel] cancels, and the mutex is the atomicity of each locked
    section. *)
Record ProcessManager := {
  cmd : Cmd;
  pty : option File;
  ctx_done : bool;
  stdinPipe : option File;
  onOutput : option Handler;
  onError : option Handler;
  running : bool
}.

Record Config := {
  Command : string;
  CArgs : list string;
  CEnv : list string;
  OnOutput : option Handler;
  OnError : option Handler
}.

(** Special terminal key sequences *)
Definition LF : string := String "010" EmptyString.
Definition KeyEnter : string := String "013" EmptyString.
Definition KeyArrowUp : string := String "027" "[A".
Definition KeyArrowDown : string := String "027" "[B".
Definition KeyArrowLeft : string := String "027" "[D".
Definition KeyArrowRight : string := String "027" "[C".
Definition KeyTab : string := String "009" EmptyString.
Definition KeyEscape : string := String "027" EmptyString.
Definition KeyCtrlC : string := String "003" EmptyString.

(** ** The operating system *)

(** The calls the manager and its goroutines make on the layers below
    ([os], [os/exec], [pty], [context]).  A call is recorded when it is
    made, also when the layer answers without entering the kernel, as for
    a read or a write on a file that was closed. *)
Inductive syscall : Type :=
| SysCancel
| SysPtyStart (c : Cmd)
| SysStdinPipe
| SysStdoutPipe
| SysStderrPipe
| SysStart (c : Cmd)
| SysRead (f : File)
| SysWrite (f : File) (data : list byte)
| SysClose (f : File)
| SysKill (p : Process)
| SysWait
| SysSetsize (f : File) (rows cols : Z).

Record OS := {
  Environ : list string;
  strerror : Z -> string;
  pty_Start : list syscall -> Cmd -> File * Process + error;
  cmd_StdinPipe : list syscall -> File + error;
  cmd_StdoutPipe : list syscall -> File + error;
  cmd_StderrPipe : list syscall -> File + error;
  cmd_Start : list syscall -> Cmd -> Process + error;
  file_Write : list syscall -> File -> list byte -> Z * option error;
  Process_Kill : list syscall -> Process -> option error;
  cmd_Wait : list syscall -> option error;
  pty_Setsize : list syscall -> File -> Z -> Z -> option error
}.

(** The readable end of a stream: the name the file was opened with, the
    bursts of bytes still to arrive, then the error every later read
    returns ([EOF] for an ordinary close).  As for [os.File], a read that
    fails returns no bytes. *)
Record Reader := {
  fname : string;
  avail : list (list byte);
  closing : error
}.

Definition Reader_Read (r : Reader) (len : nat)
  : list byte * option error * Reader :=
  match avail r with
  | [] => ([], Some (closing r), r)
  | b :: rest =>
      (take len b, None,
       {| fname := fname r;
          avail := match drop len b with
                   | [] => rest
                   | b' => b' :: rest
                   end;
          closing := closing r |})
  end.

(** A file that was closed by its owner: what had not been read is gone,
    and every read answers [ErrClosed], wrapped as [os.File] wraps it. *)
Definition closed (r : Reader) : Reader :=
  {| fname := fname r; avail := [];
     closing := PathError "read" (fname r) ErrClosed |}.

Definition close_files (fs : list File) (st : File -> Reader)
  : File -> Reader :=
  fun g => if existsb (Nat.eqb g) fs then closed (st g) else st g.

(** ** Goroutines and the state of the whole system *)

(** [go p.readOutput()] and [go p.readFromReader(r, handler)]: the
    arguments of a [go] statement are evaluated when it is executed. *)
Inductive Goroutine : Type :=
| GoReadOutput
| GoReadFromReader (r : File) (handler : option Handler).

Inductive ThreadState : Type :=
| Spawned
| Looping (buf : nat)
| Exited.

Record Thread := {
  body : Goroutine;
  state : ThreadState
}.

(** One handler invocation: the goroutine that made it, the handler value
    and the address of the slice it was given. *)
Record Call := {
  by_thread : nat;
  fn : Handler;
  arg : nat
}.

(** The manager, the system calls issued so far, the files, the heap of
    byte arrays, the goroutines, the handler invocations, and the parent
    ends of the pipes the command has created ([exec.Cmd] keeps them, and
    its [Wait] closes them). *)
Record System := {
  pm : ProcessManager;
  trace : list syscall;
  streams : File -> Reader;
  heap : list (list byte);
  threads : list Thread;
  calls : list Call;
  pipes : list File
}.

(** ** A state monad over [System] *)

Definition M (A : Type) : Type := System -> A * System.

Definition ret {A} (a : A) : M A := fun s => (a, s).

Definition bind {A B} (m : M A) (k : A -> M B) : M B :=
  fun s => let (a, s') := m s in k a s'.

Notation "'let*' x ':=' m 'in' k" := (bind m (fun x => k))
  (at level 10, x pattern, m at level 100, k at level 200).
Notation "m ';;' k" := (bind m (fun _ => k))
  (at level 100, k at level 200, right associativity).

Definition gets {A} (f : System -> A) : M A := fun s => (f s, s).

Definition modify (f : System -> System) : M unit := fun s => (tt, f s).

Definition when (b : bool) (m : M unit) : M unit := if b then m else ret tt.

Definition set_pm (f : ProcessManager -> ProcessManager) : M unit :=
  modify (fun s =>
    {| pm := f (pm s); trace := trace s; streams := streams s;
       heap := heap s; threads := threads s; calls := calls s;
     pipes := pipes s |}).

(** What a system call does to the files: [Close] closes its file, and
    [exec.Cmd.Wait], which returns when the child has exited, closes the
    parent ends of the pipes of a command that was started.  A read that
    comes later finds the file closed, whatever the child had written.
    These are the closes that can happen under a running loop; what the
    child itself does to a stream is the [Reader] the run starts with. *)
Definition effect (c : syscall) (s : System) : File -> Reader :=
  match c with
  | SysClose f => close_files [f] (streams s)
  | SysWait =>
      match Proc (cmd (pm s)) with
      | Some _ => close_files (pipes s) (streams s)
      | None => streams s
      end
  | _ => streams s
  end.

(** The state after the system call [c] was issued: it is appended to
    the trace and has had its effect on the files. *)
Definition issued (c : syscall) (s : System) : System :=
  {| pm := pm s; trace := trace s ++ [c]; streams := effect c s;
     heap := heap s; threads := threads s; calls := calls s;
     pipes := pipes s |}.

Definition sys (c : syscall) : M unit := modify (issued c).

(** The [go] statement. *)
Definition go (g : Goroutine) : M unit :=
  modify (fun s =>
    {| pm := pm s; trace := trace s; streams := streams s; heap := heap s;
       threads := threads s ++ [{| body := g; state := Spawned |}];
       calls := calls s;
     pipes := pipes s |}).

(** Field assignments of the manager. *)
Definition with_Proc (c : Cmd) (p : option Process) : Cmd :=
  {| Path := Path c; Args := Args c; Env := Env c; Proc := p |}.

Definition with_cmd (c : Cmd) (p : ProcessManager) : ProcessManager :=
  {| cmd := c; pty := pty p; ctx_done := ctx_done p;
     stdinPipe := stdinPipe p; onOutput := onOutput p; onError := onError p;
     running := running p |}.

Definition with_pty (f : option File) (p : ProcessManager) : ProcessManager :=
  {| cmd := cmd p; pty := f; ctx_done := ctx_done p;
     stdinPipe := stdinPipe p; onOutput := onOutput p; onError := onError p;
     running := running p |}.

Definition with_ctx_done (b : bool) (p : ProcessManager) : ProcessManager :=
  {| cmd := cmd p; pty := pty p; ctx_done := b;
     stdinPipe := stdinPipe p; onOutput := onOutput p; onError := onError p;
     running := running p |}.

Definition with_stdinPipe (f : option File) (p : ProcessManager)
  : ProcessManager :=
  {| cmd := cmd p; pty := pty p; ctx_done := ctx_done p;
     stdinPipe := f; onOutput := onOutput p; onError := onError p;
     running := running p |}.

Definition with_onOutput (h : option Handler) (p : ProcessManager)
  : ProcessManager :=
  {| cmd := cmd p; pty := pty p; ctx_done := ctx_done p;
     stdinPipe := stdinPipe p; onOutput := h; onError := onError p;
     running := running p |}.

Definition with_onError (h : option Handler) (p : ProcessManager)
  : ProcessManager :=
  {| cmd := cmd p; pty := pty p; ctx_done := ctx_done p;
     stdinPipe := stdinPipe p; onOutput := onOutput p; onError := h;
     running := running p |}.

Definition with_running (b : bool) (p : ProcessManager) : ProcessManager :=
  {| cmd := cmd p; pty := pty p; ctx_done := ctx_done p;
     stdinPipe := stdinPipe p; onOutput := onOutput p; onError := onError p;
     running := b |}.

(** ** The manager's operations *)

Section Manager.

Variable os : OS.

(** [err.Error()] *)
Fixpoint Error (e : error) : string :=
  match e with
  | EOF => "EOF"
  | ErrClosed => "file already closed"
  | ErrInvalid => "invalid argument"
  | Errno n => strerror os n
  | PathError op path err => op +:+ " " +:+ path +:+ ": " +:+ Error err
  | ErrorString s => s
  | WrapError msg _ => msg
  end.

(** [fmt.Errorf(prefix + "%w", err)] *)
Definition Errorf_w (prefix : string) (err : error) : error :=
  WrapError (prefix +:+ Error err) err.

(** [fmt.Errorf("no input pipe available")] *)
Definition NoInputAvailable : error := ErrorString "no input pipe available".

(** [fmt.Errorf("no PTY session active")] *)
Definition NoPTYSession : error := ErrorString "no PTY session active".

(** [exec.CommandContext(ctx, command, args...)] *)
Definition CommandContext (command : string) (args : list string) : Cmd :=
  {| Path := command; Args := command :: args; Env := []; Proc := None |}.

Definition with_Env (c : Cmd) (env : list string) : Cmd :=
  {| Path := Path c; Args := Args c; Env := env; Proc := Proc c |}.

Definition New (command : string) (args : list string) : ProcessManager :=
  let cmd := CommandContext command args in
  let cmd := with_Env cmd (Environ os) in
  {| cmd := cmd; pty := None; ctx_done := false; stdinPipe := None;
     onOutput := None; onError := None; running := false |}.

Definition NewWithConfig (cfg : Config) : ProcessManager :=
  let cmd := CommandContext (Command cfg) (CArgs cfg) in
  let cmd :=
    if 0 <? length (CEnv cfg) then with_Env cmd (Environ os ++ CEnv cfg)
    else with_Env cmd (Environ os) in
  {| cmd := cmd; pty := None; ctx_done := false; stdinPipe := None;
     onOutput := OnOutput cfg; onError := OnError cfg; running := false |}.

Definition SetOutputHandler (handler : option Handler) : M unit :=
  set_pm (with_onOutput handler).

Definition SetErrorHandler (handler : option Handler) : M unit :=
  set_pm (with_onError handler).

(** [pty.Start] returns a nil file together with its error, and that nil
    is what the assignment stores in [p.pty]. *)
Definition StartWithPTY : M (option error) :=
  let* p := gets pm in
  let* t := gets trace in
  sys (SysPtyStart (cmd p));;
  match pty_Start os t (cmd p) with
  | inr err =>
      set_pm (with_pty None);;
      ret (Some (Errorf_w "start PTY failed: " err))
  | inl (f, proc) =>
      set_pm (fun p => with_pty (Some f) (with_cmd (with_Proc (cmd p) (Some proc)) p));;
      set_pm (with_running true);;
      go GoReadOutput;;
      ret None
  end.

(** [c.StdinPipe()], [c.StdoutPipe()], [c.StderrPipe()]: the system is
    asked for a pipe, and the command keeps the parent end it returns. *)
Definition Cmd_Pipe (c : syscall) (answer : list syscall -> File + error)
  : M (File + error) :=
  let* t := gets trace in
  sys c;;
  match answer t with
  | inl f =>
      modify (fun s =>
        {| pm := pm s; trace := trace s; streams := streams s;
           heap := heap s; threads := threads s; calls := calls s;
           pipes := pipes s ++ [f] |});;
      ret (inl f)
  | inr err => ret (inr err)
  end.

Definition StartWithPipes : M (option error) :=
  let* r := Cmd_Pipe SysStdinPipe (cmd_StdinPipe os) in
  match r with
  | inr err => ret (Some (Errorf_w "create stdin pipe: " err))
  | inl stdin =>
      set_pm (with_stdinPipe (Some stdin));;
      let* r := Cmd_Pipe SysStdoutPipe (cmd_StdoutPipe os) in
      match r with
      | inr err => ret (Some (Errorf_w "create stdout pipe: " err))
      | inl stdout =>
          let* r := Cmd_Pipe SysStderrPipe (cmd_StderrPipe os) in
          match r with
          | inr err => ret (Some (Errorf_w "create stderr pipe: " err))
          | inl stderr =>
              let* p := gets pm in
              let* t := gets trace in
              sys (SysStart (cmd p));;
              match cmd_Start os t (cmd p) with
              | inr err => ret (Some (Errorf_w "start command: " err))
              | inl proc =>
                  set_pm (fun p => with_cmd (with_Proc (cmd p) (Some proc)) p);;
                  set_pm (with_running true);;
                  let* p := gets pm in
                  go (GoReadFromReader stdout (onOutput p));;
                  go (GoReadFromReader stderr (onError p));;
                  ret None
              end
          end
      end
  end.

(** [f.Write(data)] on an open or closed file: the system answers. *)
Definition File_Write (f : File) (data : list byte) : M (Z * option error) :=
  let* t := gets trace in
  sys (SysWrite f data);;
  ret (file_Write os t f data).

Definition Write (data : list byte) : M (Z * option error) :=
  let* p := gets pm in
  match pty p with
  | Some f => File_Write f data
  | None =>
      match stdinPipe p with
      | Some f => File_Write f data
      | None => ret (0%Z, Some NoInputAvailable)
      end
  end.

Definition WriteString (s : string) : M (option error) :=
  let* r := Write (list_byte_of_string s) in
  ret (snd r).

(** [Writef]: [formatted] is the value of [fmt.Sprintf(format, args...)]. *)
Definition Writef (formatted : string) : M (option error) :=
  let* r := Write (list_byte_of_string formatted) in
  ret (snd r).

Definition Writeln (s : string) : M (option error) :=
  WriteString (s +:+ LF).

Definition IsRunning : M bool := gets (fun s => running (pm s)).

(** The results of the two [Close] calls are dropped, as in the source. *)
Definition Stop : M (option error) :=
  sys SysCancel;;
  set_pm (with_ctx_done true);;
  set_pm (with_running false);;
  let* p := gets pm in
  match pty p with Some f => sys (SysClose f) | None => ret tt end;;
  match stdinPipe p with Some f => sys (SysClose f) | None => ret tt end;;
  match Proc (cmd p) with
  | Some proc =>
      let* t := gets trace in
      sys (SysKill proc);;
      ret (Process_Kill os t proc)
  | None => ret None
  end.

(** [p.cmd.Wait()]: the system answers when the child has exited; what
    the call does to the pipes of the command is its [effect]. *)
Definition Wait : M (option error) :=
  let* t := gets trace in
  sys SysWait;;
  ret (cmd_Wait os t).

(** The method [Pid] (the name [Pid] is the field of [Process]). *)
Definition Pid_ : M Z :=
  let* p := gets pm in
  match Proc (cmd p) with
  | Some proc => ret (Pid proc)
  | None => ret (-1)%Z
  end.

Definition Session : M (option File) := gets (fun s => pty (pm s)).

Definition SetWindowSize (rows cols : Z) : M (option error) :=
  let* p := gets pm in
  match pty p with
  | None => ret (Some NoPTYSession)
  | Some f =>
      let* t := gets trace in
      sys (SysSetsize f rows cols);;
      ret (pty_Setsize os t f rows cols)
  end.

(** The errors a start attempt returns: one of the five wrapped errors
    built by [StartWithPTY] and [StartWithPipes]. *)
Definition TransportError (e : error) : Prop :=
  exists prefix cause,
    In prefix ["start PTY failed: "; "create stdin pipe: ";
               "create stdout pipe: "; "create stderr pipe: ";
               "start command: "]
    /\ e = Errorf_w prefix cause.

(** The first step of [StartWithPipes] that the system refuses in state
    [s], with the prefix the code gives that step and the error the system
    answered; none when all four steps succeed. *)
Definition first_failure (s : System) : option (string * error) :=
  match cmd_StdinPipe os (trace s) with
  | inr err => Some ("create stdin pipe: ", err)
  | inl _ =>
      match cmd_StdoutPipe os (trace s ++ [SysStdinPipe]) with
      | inr err => Some ("create stdout pipe: ", err)
      | inl _ =>
          match cmd_StderrPipe os (trace s ++ [SysStdinPipe; SysStdoutPipe])
          with
          | inr err => Some ("create stderr pipe: ", err)
          | inl _ =>
              match cmd_Start os
                      (trace s ++ [SysStdinPipe; SysStdoutPipe; SysStderrPipe])
                      (cmd (pm s))
              with
              | inr err => Some ("start command: ", err)
              | inl _ => None
              end
          end
      end
  end.

(** ** Byte slices *)

Definition set_heap (f : list (list byte) -> list (list byte)) : M unit :=
  modify (fun s =>
    {| pm := pm s; trace := trace s; streams := streams s;
       heap := f (heap s); threads := threads s; calls := calls s;
     pipes := pipes s |}).

(** [make([]byte, n)]: a new zeroed array; its address is returned. *)
Definition make (n : nat) : M nat :=
  let* a := gets (fun s => length (heap s)) in
  set_heap (fun h => h ++ [replicate n x00]);;
  ret a.

(** The contents of the array at address [a]. *)
Definition load (a : nat) : M (list byte) :=
  gets (fun s => default [] (heap s !! a)).

(** [copy(dst, src)]: the first [min (len dst) (len src)] bytes of [dst]
    are overwritten. *)
Definition copy (dst : nat) (src : list byte) : M nat :=
  let* d := load dst in
  let n := Nat.min (length d) (length src) in
  set_heap (fun h => <[dst := take n src ++ drop n d]> h);;
  ret n.

(** [[]byte(s)] for a string value: a new array holding its bytes. *)
Definition bytes_of (s : string) : M nat :=
  let* a := gets (fun s => length (heap s)) in
  set_heap (fun h => h ++ [list_byte_of_string s]);;
  ret a.

(** [handler(data)] on goroutine [tid]. *)
Definition invoke (tid : nat) (h : Handler) (data : nat) : M unit :=
  modify (fun s =>
    {| pm := pm s; trace := trace s; streams := streams s; heap := heap s;
       threads := threads s;
       calls := calls s ++ [{| by_thread := tid; fn := h; arg := data |}];
       pipes := pipes s |}).

Definition set_stream (f : File) (r : Reader) : M unit :=
  modify (fun s =>
    {| pm := pm s; trace := trace s;
       streams := fun g => if Nat.eqb g f then r else streams s g;
       heap := heap s; threads := threads s; calls := calls s;
     pipes := pipes s |}).

(** [f.Read(buf)]: up to [len(buf)] bytes are stored at the start of
    [buf].  A nil [*os.File] answers [ErrInvalid].  What a read returns is
    decided by the [Reader] of the file, which a close of the file has
    replaced by a [closed] one (see [effect]). *)
Definition File_Read (f : option File) (buf : nat) : M (nat * option error) :=
  match f with
  | None => ret (0, Some ErrInvalid)
  | Some fd =>
      let* b := load buf in
      let* r := gets (fun s => streams s fd) in
      sys (SysRead fd);;
      match Reader_Read r (length b) with
      | (data, err, r') =>
          set_stream fd r';;
          let* n := copy buf data in
          ret (n, err)
      end
  end.

(** ** The drain loops *)

(** What the PTY loop hands to the error handler when its stream closes
    with [e]: nothing for [io.EOF] and for an error that is [EIO], else the
    formatted read error. *)
Definition pty_diagnostic (e : error) : list (list byte) :=
  if negb (bool_decide (e = EOF)) && negb (errors_Is e EIO)
  then [list_byte_of_string (LF +:+ "[Read Error]: " +:+ Error e +:+ LF)]
  else [].

(** What a pipe loop hands to its handler when its stream closes with
    [e]: nothing for [io.EOF], else the formatted read error. *)
Definition diagnostic (e : error) : list (list byte) :=
  if bool_decide (e = EOF) then []
  else [list_byte_of_string ("[Read Error]: " +:+ Error e +:+ LF)].

(** The fixed read size. *)
Definition bufSize : nat := 4096.

(** One pass through the body of the [for] of [readOutput]; the result
    says whether the loop was left by [break]. *)
Definition readOutput_iter (tid buf : nat) : M bool :=
  let* p := gets pm in
  let* r := File_Read (pty p) buf in
  let n := fst r in
  let err := snd r in
  (if 0 <? n then
     let* data := make n in
     let* b := load buf in
     copy data (take n b);;
     let* handler := gets (fun s => onOutput (pm s)) in
     match handler with
     | Some h => invoke tid h data
     | None => ret tt
     end
   else ret tt);;
  match err with
  | Some e =>
      let* handler := gets (fun s => onError (pm s)) in
      match handler with
      | Some h =>
          if negb (bool_decide (e = EOF)) && negb (errors_Is e EIO) then
            let* msg := bytes_of (LF +:+ "[Read Error]: " +:+ Error e +:+ LF) in
            invoke tid h msg
          else ret tt
      | None => ret tt
      end;;
      ret true
  | None => ret false
  end.

(** One pass through the body of the [for] of [readFromReader]. *)
Definition readFromReader_iter (tid buf : nat) (r : File)
    (handler : option Handler) : M bool :=
  let* rd := File_Read (Some r) buf in
  let n := fst rd in
  let err := snd rd in
  (if 0 <? n then
     let* data := make n in
     let* b := load buf in
     copy data (take n b);;
     match handler with
     | Some h => invoke tid h data
     | None => ret tt
     end
   else ret tt);;
  match err with
  | Some e =>
      match handler with
      | Some h =>
          if negb (bool_decide (e = EOF)) then
            let* msg := bytes_of ("[Read Error]: " +:+ Error e +:+ LF) in
            invoke tid h msg
          else ret tt
      | None => ret tt
      end;;
      ret true
  | None => ret false
  end.

(** The [for] loop: at most [fuel] passes; the result says whether the
    loop was left. *)
Fixpoint loop (fuel : nat) (iter : M bool) : M bool :=
  match fuel with
  | 0 => ret false
  | S k => let* brk := iter in if brk then ret true else loop k iter
  end.

(** [readOutput], run by goroutine [tid]. *)
Definition readOutput (fuel tid : nat) : M bool :=
  let* buf := make bufSize in
  loop fuel (readOutput_iter tid buf).

(** [readFromReader], run by goroutine [tid]. *)
Definition readFromReader (fuel tid : nat) (r : File)
    (handler : option Handler) : M bool :=
  let* buf := make bufSize in
  loop fuel (readFromReader_iter tid buf r handler).

(** ** Interleaving the caller and the goroutines

    A pass of a loop is one event.  Within a pass the blocking read comes
    first and touches no field of the manager, and the handler read under
    the lock is a local variable until it is invoked, so the calls made by
    the manager do not depend on where inside a pass another thread is
    scheduled. *)

Definition set_thread (tid : nat) (st : ThreadState) : M unit :=
  modify (fun s =>
    {| pm := pm s; trace := trace s; streams := streams s; heap := heap s;
       threads :=
         match threads s !! tid with
         | Some th => <[tid := {| body := body th; state := st |}]> (threads s)
         | None => threads s
         end;
       calls := calls s;
     pipes := pipes s |}).

(** Goroutine [tid] runs up to its next pass through the loop: it
    allocates its buffer, or makes one pass, or has returned. *)
Definition thread_step (tid : nat) : M unit :=
  let* th := gets (fun s => threads s !! tid) in
  match th with
  | None => ret tt
  | Some th =>
      match state th with
      | Exited => ret tt
      | Spawned =>
          let* buf := make bufSize in
          set_thread tid (Looping buf)
      | Looping buf =>
          let* brk :=
            match body th with
            | GoReadOutput => readOutput_iter tid buf
            | GoReadFromReader r handler =>
                readFromReader_iter tid buf r handler
            end in
          if brk then set_thread tid Exited else ret tt
      end
  end.

(** What the caller's thread and the scheduler can do next. *)
Inductive Event : Type :=
| CallSetOutputHandler (h : option Handler)
| CallSetErrorHandler (h : option Handler)
| CallStartWithPTY
| CallStartWithPipes
| CallWrite (data : list byte)
| CallStop
| CallWait
| Step (tid : nat).

Definition skip {A} (m : M A) : M unit := m;; ret tt.

Definition exec (e : Event) : M unit :=
  match e with
  | CallSetOutputHandler h => SetOutputHandler h
  | CallSetErrorHandler h => SetErrorHandler h
  | CallStartWithPTY => skip StartWithPTY
  | CallStartWithPipes => skip StartWithPipes
  | CallWrite data => skip (Write data)
  | CallStop => skip Stop
  | CallWait => skip Wait
  | Step tid => thread_step tid
  end.

Fixpoint run (es : list Event) : M unit :=
  match es with
  | [] => ret tt
  | e :: es => exec e;; run es
  end.

(** The system around a manager just built: nothing issued, nothing
    allocated, no goroutine. *)
Definition boot (p : ProcessManager) (st : File -> Reader) : System :=
  {| pm := p; trace := []; streams := st; heap := []; threads := [];
     calls := []; pipes := [] |}.

(** The chunks handed to the handlers, in order of invocation. *)
Definition delivered (s : System) : list (nat * Handler * list byte) :=
  map (fun c => (by_thread c, fn c, default [] (heap s !! arg c))) (calls s).

End Manager.

(** ** A concrete system, for running the model *)

(** Which start-time primitives fail, and how. *)
Record Faults := {
  pty_fault : option error;
  stdin_fault : option error;
  stdout_fault : option error;
  stderr_fault : option error;
  start_fault : option error
}.

Definition no_faults : Faults :=
  {| pty_fault := None; stdin_fault := None; stdout_fault := None;
     stderr_fault := None; start_fault := None |}.

Definition is_close (f : File) (c : syscall) : bool :=
  match c with
  | SysClose g => Nat.eqb f g
  | _ => false
  end.

Definition is_close_any (c : syscall) : bool :=
  match c with
  | SysClose _ => true
  | _ => false
  end.

Definition is_kill (c : syscall) : bool :=
  match c with
  | SysKill _ => true
  | _ => false
  end.

Definition or_fault {A} (flt : option error) (a : A) : A + error :=
  match flt with
  | Some e => inr e
  | None => inl a
  end.

(** A system in which the PTY master is file 3 and the pipes are files 4,
    5 and 6; a closed file refuses writes, and a process that was already
    killed cannot be killed again. *)
Definition unix (flt : Faults) : OS :=
  {| Environ := ["PATH=/bin"; "HOME=/root"];
     strerror := fun n =>
       if (n =? 5)%Z then "input/output error"
       else if (n =? 9)%Z then "bad file descriptor"
       else if (n =? 24)%Z then "too many open files"
       else "errno";
     pty_Start := fun _ _ => or_fault (pty_fault flt) (3, {| Pid := 100 |});
     cmd_StdinPipe := fun _ => or_fault (stdin_fault flt) 4;
     cmd_StdoutPipe := fun _ => or_fault (stdout_fault flt) 5;
     cmd_StderrPipe := fun _ => or_fault (stderr_fault flt) 6;
     cmd_Start := fun _ _ => or_fault (start_fault flt) {| Pid := 100 |};
     file_Write := fun t f data =>
       if existsb (is_close f) t
       then (0%Z, Some (PathError "write" "file" ErrClosed))
       else (Z.of_nat (length data), None);
     Process_Kill := fun t _ =>
       if existsb is_kill t
       then Some (ErrorString "os: process already finished")
       else None;
     cmd_Wait := fun _ => None;
     pty_Setsize := fun _ _ _ _ => None |}.

(** A stream that carries the given bursts and then closes with [e]; the
    same for every file. *)
Definition feed (bursts : list (list byte)) (e : error) : File -> Reader :=
  fun f => {| fname := if Nat.eqb f 3 then "/dev/ptmx" else "|0";
              avail := bursts; closing := e |}.

Definition with_heap (h : list (list byte)) (s : System) : System :=
  {| pm := pm s; trace := trace s; streams := streams s; heap := h;
     threads := threads s; calls := calls s;
     pipes := pipes s |}.

Definition call (tid : nat) (h : Handler) (a : nat) : Call :=
  {| by_thread := tid; fn := h; arg := a |}.

(** The invocation of a handler slot: none when the slot is nil. *)
Definition call_slot (tid : nat) (slot : option Handler) (a : nat)
  : list Call :=
  match slot with
  | Some h => [call tid h a]
  | None => []
  end.

(** The arrays and the invocations a pipe loop adds when it reports the
    error [e] that closed its stream. *)
Definition diag_heap (os : OS) (handler : option Handler) (e : error)
  : list (list byte) :=
  match handler with
  | Some _ => diagnostic os e
  | None => []
  end.

Definition diag_calls (os : OS) (tid : nat) (handler : option Handler)
    (e : error) (a : nat) : list Call :=
  match handler with
  | Some h => map (call tid h) (seq a (length (diagnostic os e)))
  | None => []
  end.

(** A bound on the number of reads that drain a stream: each read
    consumes a byte or finishes a burst. *)
Definition reads_bound (r : Reader) : nat :=
  length (avail r) + length (concat (avail r)).

(** The state after a read of up to [len] bytes from file [r] that left the
    heap [h'] and the handler invocations [c']. *)
Definition after_read (r : File) (len : nat) (h' : list (list byte))
    (c' : list Call) (s : System) : System :=
  {| pm := pm s; trace := trace s ++ [SysRead r];
     streams := fun g =>
       if Nat.eqb g r then snd (Reader_Read (streams s r) len)
       else streams s g;
     heap := h'; threads := threads s; calls := c';
     pipes := pipes s |}.

Definition with_thread (tid : nat) (st : ThreadState) (s : System) : System :=
  {| pm := pm s; trace := trace s; streams := streams s; heap := heap s;
     threads :=
       match threads s !! tid with
       | Some th => <[tid := {| body := body th; state := st |}]> (threads s)
       | None => threads s
       end;
     calls := calls s;
     pipes := pipes s |}.

(** The chunks handed to handlers by goroutine [tid], in order. *)
Definition delivered_by (tid : nat) (s : System) : list (Handler * list byte) :=
  map (fun c => (fn c, default [] (heap s !! arg c)))
    (List.filter (fun c => Nat.eqb (by_thread c) tid) (calls s)).

(** What a step of goroutine [tid], whose read buffer is [buf], may do to
    the heap and to the list of invocations: overwrite [buf] in place,
    allocate new arrays, and hand some of the new arrays to handlers. *)
Record pass (tid buf : nat) (s s' : System) : Prop := {
  pass_heap :
    exists x extra,
      heap s' = <[buf := x]> (heap s) ++ extra
      /\ forall b, heap s !! buf = Some b -> length x = length b;
  pass_calls :
    exists new,
      calls s' = calls s ++ new
      /\ Forall (fun c => by_thread c = tid
                          /\ length (heap s) <= arg c < length (heap s')) new
      /\ NoDup (map arg new)
}.

(** A read buffer in use: an array of the fixed size that was handed to
    no handler. *)
Definition buf_ok (s : System) (st : ThreadState) : Prop :=
  match st with
  | Looping buf =>
      (exists b, heap s !! buf = Some b /\ length b = bufSize)
      /\ Forall (fun c => arg c <> buf) (calls s)
  | _ => True
  end.

Definition starts (e : Event) : bool :=
  match e with
  | CallStartWithPTY | CallStartWithPipes => true
  | _ => false
  end.

Definition is_step (tid : nat) (e : Event) : bool :=
  match e with
  | Step t => Nat.eqb t tid
  | _ => false
  end.

(** The number of steps of goroutine [tid] in a schedule. *)
Definition steps_of (tid : nat) (es : list Event) : nat :=
  length (List.filter (is_step tid) es).

(** ** The invariant of a run in pipe mode

    Goroutine 0 drains file [r0] into handler [h], goroutine 1 drains file
    [r1]; [R0] is the stream of [r0] when the manager was started and
    [chunks] are the chunks goroutine 0 has delivered so far. *)

Section Invariant.

Variable os : OS.
Variables (r0 r1 : File) (h : Handler) (h1 : option Handler) (R0 : Reader).

Definition reported (st0 : ThreadState) : list (list byte) :=
  match st0 with
  | Exited => diagnostic os (closing R0)
  | _ => []
  end.

Definition drained_so_far (s : System) (st0 : ThreadState)
    (chunks : list (list byte)) : Prop :=
  match st0 with
  | Spawned => chunks = [] /\ avail (streams s r0) = avail R0
  | Looping _ =>
      concat chunks ++ concat (avail (streams s r0)) = concat (avail R0)
  | Exited => concat chunks = concat (avail R0)
  end.

Definition steps_needed (s : System) (st0 : ThreadState) : nat :=
  match st0 with
  | Spawned => reads_bound (streams s r0) + 2
  | Looping _ => reads_bound (streams s r0) + 1
  | Exited => 0
  end.

Record draining (s : System) (st0 st1 : ThreadState) (chunks : list (list byte))
  : Prop := {
  inv_threads :
    threads s
    = [ {| body := GoReadFromReader r0 (Some h); state := st0 |};
        {| body := GoReadFromReader r1 h1; state := st1 |} ];
  inv_args : Forall (fun c => arg c < length (heap s)) (calls s);
  inv_nodup : NoDup (map arg (calls s));
  inv_buf0 : buf_ok s st0;
  inv_buf1 : buf_ok s st1;
  inv_closing : closing (streams s r0) = closing R0;
  inv_chunks : Forall (fun c => 0 < length c <= bufSize) chunks;
  inv_mine : delivered_by 0 s = map (fun c => (h, c)) (chunks ++ reported st0);
  inv_progress : drained_so_far s st0 chunks
}.

End Invariant.

(** The close and kill requests [Stop] issues for a manager in state [p]. *)
Definition closes (p : ProcessManager) : list syscall :=
  match pty p with Some f => [SysClose f] | None => [] end
  ++ match stdinPipe p with Some f => [SysClose f] | None => [] end.

(** The files after [Stop] has closed those of the manager [p]. *)
Definition stopped (p : ProcessManager) (st : File -> Reader)
  : File -> Reader :=
  let st1 := match pty p with Some f => close_files [f] st | None => st end in
  match stdinPipe p with Some f => close_files [f] st1 | None => st1 end.

Definition kills (p : ProcessManager) : list syscall :=
  match Proc (cmd p) with Some proc => [SysKill proc] | None => [] end.

(** The state after the manager became [p], the system calls [t] were
    issued, none of which closes a file, the pipes [fs] were created and
    the goroutines [gs] were launched. *)
Definition after (s : System) (p : ProcessManager) (t : list syscall)
    (fs : list File) (gs : list Goroutine) : System :=
  {| pm := p; trace := trace s ++ t; streams := streams s; heap := heap s;
     threads := threads s ++ map (fun g => {| body := g; state := Spawned |}) gs;
     calls := calls s;
     pipes := pipes s ++ fs |}.

(** The events that are a call of [StartWithPTY], [StartWithPipes] or
    [Stop]. *)
Definition starts_or_stops (e : Event) : bool :=
  match e with
  | CallStartWithPTY | CallStartWithPipes | CallStop => true
  | _ => false
  end.

(** A monadic action that leaves the manager's fields alone. *)
Definition keeps_pm {A} (m : M A) : Prop :=
  forall s, pm (snd (m s)) = pm s.

(** ** Sample runs *)

Definition linux : OS := unix no_faults.

(** A system whose second pipe cannot be created. *)
Definition no_stdout_pipe : OS :=
  unix {| pty_fault := None; stdin_fault := None;
          stdout_fault := Some (Errno 24); stderr_fault := None;
          start_fault := None |}.

(** A child that writes "ab", then "c", then exits. *)
Definition two_chunks : File -> Reader := feed [[x61; x62]; [x63]] EOF.

(** A child that writes "ab"; the next read finds the file closed. *)
Definition closed_early : File -> Reader :=
  feed [[x61; x62]] (PathError "read" "|0" ErrClosed).

(** The caller registers handler 1, starts, lets the first goroutine
    allocate its buffer and deliver one chunk, then registers handler 2. *)
Definition swap_with_pipes : list Event :=
  [CallSetOutputHandler (Some 1); CallStartWithPipes; Step 0; Step 0;
   CallSetOutputHandler (Some 2)].

Definition swap_with_pty : list Event :=
  [CallSetOutputHandler (Some 1); CallStartWithPTY; Step 0; Step 0;
   CallSetOutputHandler (Some 2)].

(** The caller starts, registers handler 1 only then, and the first
    goroutine runs until it has left its loop. *)
Definition late_with_pipes : list Event :=
  [CallStartWithPipes; CallSetOutputHandler (Some 1); Step 0; Step 0; Step 0;
   Step 0].

Definition late_with_pty : list Event :=
  [CallStartWithPTY; CallSetOutputHandler (Some 1); Step 0; Step 0; Step 0;
   Step 0].

(** The caller registers output handler 1 and error handler 2, starts,
    and the first goroutine runs until it leaves its loop. *)
Definition drain_with_pipes : list Event :=
  [CallSetOutputHandler (Some 1); CallSetErrorHandler (Some 2);
   CallStartWithPipes; Step 0; Step 0; Step 0].

Definition drain_with_pty : list Event :=
  [CallSetOutputHandler (Some 1); CallSetErrorHandler (Some 2);
   CallStartWithPTY; Step 0; Step 0; Step 0].

(** After a start in pipe mode: the two loops run interleaved with a
    change of handler, a write and the stop. *)
Definition drain_interleaved : list Event :=
  [Step 0; Step 1; Step 0; CallSetOutputHandler (Some 2); Step 1; Step 0;
   CallWrite [x61]; Step 0; Step 0; Step 0; Step 0; CallStop].

Definition created : System := boot (New linux "cat" []) two_chunks.

Definition started_with_pty : System :=
  snd (run linux [CallStartWithPTY] created).

Definition started_with_pipes : System :=
  snd (run linux [CallSetOutputHandler (Some 1); CallStartWithPipes] created).

Definition stdout_failed : System :=
  snd (StartWithPipes no_stdout_pipe
         (boot (New no_stdout_pipe "cat" []) two_chunks)).

(** ** The command-line tool of [cmd/pipeit]

    The goroutine of [main] that forwards the tool's standard input to the
    child: it reads up to 1024 bytes at a time and writes what it read with
    [pm.Write]; it returns when a write fails or when the read fails. *)

Section Tool.

Variable os : OS.

(** The size of the forwarding buffer. *)
Definition stdinSize : nat := 1024.

(** One pass through the body of the [for]; the result says whether the
    goroutine returned. *)
Definition forward_iter (stdin : File) (buf : nat) : M bool :=
  let* rd := File_Read (Some stdin) buf in
  let n := fst rd in
  let err := snd rd in
  let* failed :=
    (if 0 <? n then
       let* b := load buf in
       let* w := Write os (take n b) in
       match snd w with
       | Some _ => ret true
       | None => ret false
       end
     else ret false) in
  if failed then ret true
  else match err with
       | Some _ => ret true
       | None => ret false
       end.

Definition forward_stdin (fuel : nat) (stdin : File) : M bool :=
  let* buf := make stdinSize in
  loop fuel (forward_iter stdin buf).

End Tool.

(** The file [Write] writes to: the PTY master if there is one, else the
    stdin pipe. *)
Definition sink (p : ProcessManager) : option File :=
  match pty p with
  | Some f => Some f
  | None => stdinPipe p
  end.

(** The byte sequences written to file [f], in order. *)
Fixpoint written (f : File) (t : list syscall) : list (list byte) :=
  match t with
  | [] => []
  | SysWrite g data :: t =>
      if Nat.eqb g f then data :: written f t else written f t
  | _ :: t => written f t
  end.

(** ** The PTY loop in a run

    The arrays and invocations the PTY loop adds when its stream closes
    with [e], for the value [slot] of the error slot. *)

Definition pty_diag_heap (os : OS) (slot : option Handler) (e : error)
  : list (list byte) :=
  match slot with
  | Some _ => pty_diagnostic os e
  | None => []
  end.

Definition pty_diag_calls (os : OS) (tid : nat) (slot : option Handler)
    (e : error) (a : nat) : list Call :=
  match slot with
  | Some h => map (call tid h) (seq a (length (pty_diagnostic os e)))
  | None => []
  end.




(** A monadic action that leaves the component [f] of the system alone. *)
Definition keeps {A B} (f : System -> B) (m : M A) : Prop :=
  forall s, f (snd (m s)) = f s.

(** A monadic action that keeps the property [P] of the system. *)
Definition preserves {A} (P : System -> Prop) (m : M A) : Prop :=
  forall s, P s -> P (snd (m s)).

(** The file named [nm] has been closed by its owner. *)
Definition closed_as (nm : string) (r : Reader) : Prop :=
  fname r = nm /\ avail r = []
  /\ closing r = PathError "read" nm ErrClosed.

(** ** What the goroutines ask of the system *)

Definition is_read (c : syscall) : bool :=
  match c with
  | SysRead _ => true
  | _ => false
  end.

(** A monadic action whose system calls are all reads. *)
Definition only_reads {A} (m : M A) : Prop :=
  forall s, exists t, trace (snd (m s)) = trace s ++ t
                      /\ forallb is_read t = true.

(** The byte sequences a schedule passes to [Write], in order. *)
Fixpoint writes_of (es : list Event) : list (list byte) :=
  match es with
  | [] => []
  | CallWrite data :: es => data :: writes_of es
  | _ :: es => writes_of es
  end.

(** ** More sample systems *)

Definition is_pty_start (c : syscall) : bool :=
  match c with
  | SysPtyStart _ => true
  | _ => false
  end.

(** As [linux], but a command can be started once: a second start is
    refused, as [exec.Cmd] does. *)
Definition starts_once : OS :=
  {| Environ := Environ linux;
     strerror := strerror linux;
     pty_Start := fun t c =>
       if existsb is_pty_start t
       then inr (ErrorString "exec: already started")
       else pty_Start linux t c;
     cmd_StdinPipe := cmd_StdinPipe linux;
     cmd_StdoutPipe := cmd_StdoutPipe linux;
     cmd_StderrPipe := cmd_StderrPipe linux;
     cmd_Start := cmd_Start linux;
     file_Write := file_Write linux;
     Process_Kill := Process_Kill linux;
     cmd_Wait := cmd_Wait linux;
     pty_Setsize := pty_Setsize linux |}.

(** As [linux], but every write is accepted. *)
Definition writable : OS :=
  {| Environ := Environ linux;
     strerror := strerror linux;
     pty_Start := pty_Start linux;
     cmd_StdinPipe := cmd_StdinPipe linux;
     cmd_StdoutPipe := cmd_StdoutPipe linux;
     cmd_StderrPipe := cmd_StderrPipe linux;
     cmd_Start := cmd_Start linux;
     file_Write := fun _ _ data => (Z.of_nat (length data), None);
     Process_Kill := Process_Kill linux;
     cmd_Wait := cmd_Wait linux;
     pty_Setsize := pty_Setsize linux |}.

(** A child whose PTY is closed under the loop before it wrote anything. *)
Definition closed_at_once : File -> Reader := feed [] (Errno 9).

(** A manager started with a PTY whose loop has allocated its buffer;
    error handler 2 is registered. *)
Definition pty_looping (os : OS) (st : File -> Reader) : System :=
  snd (run os [CallSetErrorHandler (Some 2); CallStartWithPTY; Step 0]
         (boot (New os "cat" []) st)).



(** A manager started with pipes whose stdout loop has allocated its
    buffer; output handler 1 is registered. *)
Definition pipes_looping : System :=
  snd (run linux [CallSetOutputHandler (Some 1); CallStartWithPipes; Step 0]
         created).

(** The caller swaps the output handler, writes and stops while the PTY
    loop drains its stream. *)
Definition pty_interleaved : list Event :=
  [Step 0; Step 0; CallSetOutputHandler (Some 2); Step 0; CallWrite [x61];
   Step 0; Step 0; Step 0; CallWrite [x62; x63]; Step 0; CallStop].

(** * Properties *)

Section Properties.

Variable os : OS.

(** ** Construction *)

Lemma list_byte_of_string_app (s t : string) :
  list_byte_of_string (s +:+ t) = list_byte_of_string s ++ list_byte_of_string t.
Proof.
  induction s as [|a s IH]; simpl; [reflexivity|].
  unfold list_byte_of_string in *. simpl. now rewrite IH.
Qed.

(** C8: [NewWithConfig] binds the inherited environment followed by
    [cfg.Env] when [cfg.Env] is not empty and the inherited environment
    alone otherwise; apart from the environment it builds the manager
    that [New] builds, with [cfg.OnOutput] and [cfg.OnError] registered.
    It is a total function: there is no failure to report. *)
Theorem NewWithConfig_env_and_handlers (cfg : Config) :
  let env := match CEnv cfg with
             | [] => Environ os
             | _ :: _ => Environ os ++ CEnv cfg
             end in
  let created := New os (Command cfg) (CArgs cfg) in
  Env (cmd (NewWithConfig os cfg)) = env
  /\ NewWithConfig os cfg
     = with_onError (OnError cfg)
         (with_onOutput (OnOutput cfg)
            (with_cmd (with_Env (cmd created) env) created)).
Proof.
  unfold NewWithConfig, New.
  destruct (CEnv cfg) as [|e env]; simpl; split; reflexivity.
Qed.

(** ** Writing *)

Lemma Write_unbound (data : list byte) (s : System) :
  pty (pm s) = None -> stdinPipe (pm s) = None ->
  Write os data s = ((0%Z, Some NoInputAvailable), s).
Proof.
  intros Hp Hs. unfold Write, bind, gets. now rewrite Hp, Hs.
Qed.

Lemma Write_pty (data : list byte) (s : System) (f : File) :
  pty (pm s) = Some f ->
  Write os data s
  = (file_Write os (trace s) f data, issued (SysWrite f data) s).
Proof.
  intros Hp. unfold Write, bind, gets. now rewrite Hp.
Qed.

Lemma Write_stdin (data : list byte) (s : System) (f : File) :
  pty (pm s) = None -> stdinPipe (pm s) = Some f ->
  Write os data s
  = (file_Write os (trace s) f data, issued (SysWrite f data) s).
Proof.
  intros Hp Hs. unfold Write, bind, gets. now rewrite Hp, Hs.
Qed.

(** C10: [Writeln(s)] is [WriteString(s + LF)]: the bytes written are
    those of [s] followed by the single byte 0x0A, which is not the 0x0D of
    [KeyEnter]; and [Writeln], [WriteString] and [Writef] return the error
    of the underlying [Write] and drop its byte count. *)
Theorem Writeln_is_WriteString_LF (s : string) (st : System) :
  Writeln os s st = WriteString os (s +:+ LF) st
  /\ list_byte_of_string (s +:+ LF) = list_byte_of_string s ++ [x0a]
  /\ list_byte_of_string KeyEnter = [x0d]
  /\ Writeln os s st
     = (snd (fst (Write os (list_byte_of_string s ++ [x0a]) st)),
        snd (Write os (list_byte_of_string s ++ [x0a]) st))
  /\ WriteString os s st
     = (snd (fst (Write os (list_byte_of_string s) st)),
        snd (Write os (list_byte_of_string s) st))
  /\ Writef os s st
     = (snd (fst (Write os (list_byte_of_string s) st)),
        snd (Write os (list_byte_of_string s) st)).
Proof.
  assert (HLF : list_byte_of_string (s +:+ LF) = list_byte_of_string s ++ [x0a])
    by (rewrite list_byte_of_string_app; reflexivity).
  repeat split; try reflexivity; try exact HLF.
  - unfold Writeln, WriteString, bind, ret. rewrite HLF.
    now destruct (Write os (list_byte_of_string s ++ [x0a]) st) as [[n e] st'].
  - unfold WriteString, bind, ret.
    now destruct (Write os (list_byte_of_string s) st) as [[n e] st'].
  - unfold Writef, bind, ret.
    now destruct (Write os (list_byte_of_string s) st) as [[n e] st'].
Qed.

(** ** Actions that do not touch the manager *)

Lemma keeps_pm_ret {A} (a : A) : keeps_pm (ret a).
Proof. now intros s. Qed.

Lemma keeps_pm_bind {A B} (m : M A) (k : A -> M B) :
  keeps_pm m -> (forall a, keeps_pm (k a)) -> keeps_pm (bind m k).
Proof.
  intros Hm Hk s. unfold bind. specialize (Hm s).
  destruct (m s) as [a s']. simpl in Hm. now rewrite Hk.
Qed.

Lemma keeps_pm_gets {A} (f : System -> A) : keeps_pm (gets f).
Proof. now intros s. Qed.

Lemma keeps_pm_sys (c : syscall) : keeps_pm (sys c).
Proof. now intros s. Qed.

Lemma keeps_pm_set_heap f : keeps_pm (set_heap f).
Proof. now intros s. Qed.

Lemma keeps_pm_invoke tid h a : keeps_pm (invoke tid h a).
Proof. now intros s. Qed.

Lemma keeps_pm_set_stream f r : keeps_pm (set_stream f r).
Proof. now intros s. Qed.

Lemma keeps_pm_set_thread tid st : keeps_pm (set_thread tid st).
Proof. now intros s. Qed.

Create HintDb frame.

#[local] Hint Resolve keeps_pm_ret keeps_pm_gets keeps_pm_sys
  keeps_pm_set_heap keeps_pm_invoke keeps_pm_set_stream keeps_pm_set_thread
  : frame.

Ltac frame :=
  repeat first
    [ progress auto with frame
    | apply keeps_pm_bind; [|intros ?]
    | match goal with
      | |- keeps_pm (match ?x with _ => _ end) => destruct x
      | |- keeps_pm (if ?x then _ else _) => destruct x
      end ].

Lemma keeps_pm_make n : keeps_pm (make n).
Proof. unfold make. frame. Qed.

Lemma keeps_pm_load a : keeps_pm (load a).
Proof. unfold load. frame. Qed.

Lemma keeps_pm_copy dst src : keeps_pm (copy dst src).
Proof. unfold copy, load. frame. Qed.

Lemma keeps_pm_bytes_of str : keeps_pm (bytes_of str).
Proof. unfold bytes_of. frame. Qed.

#[local] Hint Resolve keeps_pm_make keeps_pm_load keeps_pm_copy
  keeps_pm_bytes_of : frame.

Lemma keeps_pm_File_Read f buf : keeps_pm (File_Read f buf).
Proof. unfold File_Read. frame. Qed.

#[local] Hint Resolve keeps_pm_File_Read : frame.

Lemma keeps_pm_readOutput_iter tid buf :
  keeps_pm (readOutput_iter os tid buf).
Proof. unfold readOutput_iter, when. frame. Qed.

Lemma keeps_pm_readFromReader_iter tid buf r h :
  keeps_pm (readFromReader_iter os tid buf r h).
Proof. unfold readFromReader_iter. frame. Qed.

#[local] Hint Resolve keeps_pm_readOutput_iter keeps_pm_readFromReader_iter
  : frame.

Lemma keeps_pm_thread_step tid : keeps_pm (thread_step os tid).
Proof. unfold thread_step. frame. Qed.

Lemma keeps_pm_Wait : keeps_pm (Wait os).
Proof. unfold Wait. frame. Qed.

Lemma keeps_pm_Write data : keeps_pm (Write os data).
Proof. unfold Write, File_Write. frame. Qed.

(** ** Shutdown *)

Lemma Stop_spec (s : System) :
  Stop os s
  = (match Proc (cmd (pm s)) with
     | Some proc =>
         Process_Kill os (trace s ++ SysCancel :: closes (pm s)) proc
     | None => None
     end,
     {| pm := with_running false (with_ctx_done true (pm s));
        trace := trace s ++ SysCancel :: closes (pm s) ++ kills (pm s);
        streams := stopped (pm s) (streams s); heap := heap s;
        threads := threads s;
        calls := calls s;
     pipes := pipes s |}).
Proof.
  unfold Stop, closes, kills, stopped, bind, ret, gets, sys, set_pm, modify,
    issued.
  simpl.
  destruct (pty (pm s)), (stdinPipe (pm s)), (Proc (cmd (pm s))); simpl;
    rewrite <- ?app_assoc; reflexivity.
Qed.

(** C6: [Stop] clears [running], cancels the context, closes the PTY
    master if there is one and the stdin pipe if there is one, and sends a
    kill request exactly when a process handle exists, whose answer it
    returns (nil without a handle).  A second [Stop] is again a value, not
    a fault: it repeats the requests and returns the answer to its own
    kill request. *)
Theorem Stop_twice (s : System) :
  let s1 := snd (Stop os s) in
  let s2 := snd (Stop os s1) in
  running (pm s1) = false
  /\ ctx_done (pm s1) = true
  /\ trace s1 = trace s ++ SysCancel :: closes (pm s) ++ kills (pm s)
  /\ fst (Stop os s)
     = match Proc (cmd (pm s)) with
       | Some proc =>
           Process_Kill os (trace s ++ SysCancel :: closes (pm s)) proc
       | None => None
       end
  /\ (forall proc, In (SysKill proc) (kills (pm s))
                   <-> Proc (cmd (pm s)) = Some proc)
  /\ running (pm s2) = false
  /\ trace s2 = trace s1 ++ SysCancel :: closes (pm s) ++ kills (pm s)
  /\ fst (Stop os s1)
     = match Proc (cmd (pm s)) with
       | Some proc =>
           Process_Kill os (trace s1 ++ SysCancel :: closes (pm s)) proc
       | None => None
       end.
Proof.
  cbv zeta. rewrite !Stop_spec. simpl.
  repeat split; try reflexivity.
  - unfold kills. destruct (Proc (cmd (pm s))); simpl; [|tauto].
    intros [H|[]]. now inversion H.
  - unfold kills. intros ->. now left.
Qed.

Lemma Stop_keeps_sinks (s : System) :
  pty (pm (snd (Stop os s))) = pty (pm s)
  /\ stdinPipe (pm (snd (Stop os s))) = stdinPipe (pm s).
Proof. rewrite Stop_spec. now split. Qed.

(** ** Status *)

Lemma Wait_spec (s : System) :
  Wait os s = (cmd_Wait os (trace s), issued SysWait s).
Proof. reflexivity. Qed.

Lemma StartWithPTY_spec (s : System) :
  StartWithPTY os s
  = match pty_Start os (trace s) (cmd (pm s)) with
    | inr err =>
        (Some (Errorf_w os "start PTY failed: " err),
         {| pm := with_pty None (pm s);
            trace := trace s ++ [SysPtyStart (cmd (pm s))];
            streams := streams s; heap := heap s; threads := threads s;
            calls := calls s;
     pipes := pipes s |})
    | inl (f, proc) =>
        (None,
         {| pm := with_running true
                    (with_pty (Some f)
                       (with_cmd (with_Proc (cmd (pm s)) (Some proc)) (pm s)));
            trace := trace s ++ [SysPtyStart (cmd (pm s))];
            streams := streams s; heap := heap s;
            threads := threads s ++ [{| body := GoReadOutput; state := Spawned |}];
            calls := calls s;
     pipes := pipes s |})
    end.
Proof.
  unfold StartWithPTY, bind, ret, gets, sys, set_pm, modify, go, issued.
  simpl. destruct (pty_Start os (trace s) (cmd (pm s))) as [[f proc]|err];
    reflexivity.
Qed.

Lemma StartWithPipes_spec (s : System) :
  StartWithPipes os s
  = match cmd_StdinPipe os (trace s) with
    | inr err =>
        (Some (Errorf_w os "create stdin pipe: " err),
         after s (pm s) [SysStdinPipe] [] [])
    | inl stdin =>
        let p := with_stdinPipe (Some stdin) (pm s) in
        match cmd_StdoutPipe os (trace s ++ [SysStdinPipe]) with
        | inr err =>
            (Some (Errorf_w os "create stdout pipe: " err),
             after s p [SysStdinPipe; SysStdoutPipe] [stdin] [])
        | inl stdout =>
            match cmd_StderrPipe os (trace s ++ [SysStdinPipe; SysStdoutPipe])
            with
            | inr err =>
                (Some (Errorf_w os "create stderr pipe: " err),
                 after s p [SysStdinPipe; SysStdoutPipe; SysStderrPipe]
                   [stdin; stdout] [])
            | inl stderr =>
                match cmd_Start os
                        (trace s ++ [SysStdinPipe; SysStdoutPipe; SysStderrPipe])
                        (cmd p)
                with
                | inr err =>
                    (Some (Errorf_w os "start command: " err),
                     after s p
                       [SysStdinPipe; SysStdoutPipe; SysStderrPipe;
                        SysStart (cmd p)] [stdin; stdout; stderr] [])
                | inl proc =>
                    (None,
                     after s
                       (with_running true
                          (with_cmd (with_Proc (cmd p) (Some proc)) p))
                       [SysStdinPipe; SysStdoutPipe; SysStderrPipe;
                        SysStart (cmd p)]
                       [stdin; stdout; stderr]
                       [GoReadFromReader stdout (onOutput (pm s));
                        GoReadFromReader stderr (onError (pm s))])
                end
            end
        end
    end.
Proof.
  unfold StartWithPipes, Cmd_Pipe, after, bind, ret, gets, sys, set_pm, modify,
    go, issued.
  simpl.
  destruct (cmd_StdinPipe os (trace s)) as [stdin|e1]; simpl;
    [|now rewrite !app_nil_r].
  destruct (cmd_StdoutPipe os (trace s ++ [SysStdinPipe])) as [stdout|e2];
    simpl; rewrite <- ?app_assoc; simpl; [|now rewrite app_nil_r].
  destruct (cmd_StderrPipe os (trace s ++ [SysStdinPipe; SysStdoutPipe]))
    as [stderr|e3]; simpl; rewrite <- ?app_assoc; simpl;
    [|now rewrite app_nil_r].
  destruct (cmd_Start os _ _) as [proc|e4]; simpl; rewrite <- ?app_assoc;
    simpl; rewrite ?app_nil_r; reflexivity.
Qed.

Ltac case_sum :=
  cbv zeta in *;
  repeat match goal with
    | H : context [match ?x with inl _ => _ | inr _ => _ end] |- _ =>
        destruct x as [[? ?]|?] eqn:?
    | H : context [match ?x with inl _ => _ | inr _ => _ end] |- _ =>
        destruct x eqn:?
    | |- context [match ?x with inl _ => _ | inr _ => _ end] =>
        destruct x as [[? ?]|?] eqn:?
    | |- context [match ?x with inl _ => _ | inr _ => _ end] =>
        destruct x eqn:?
    end.

Ltac case_pty := rewrite StartWithPTY_spec in *; case_sum.

Ltac case_pipes := rewrite StartWithPipes_spec in *; case_sum.

(** C2, as the code has it: [Write] before any start fails with
    [NoInputAvailable], and so does [Write] after [Stop] on a manager that
    was never started.  With a PTY bound [Write] writes to the PTY master,
    otherwise to the stdin pipe, and returns what that write returns.
    [Stop] closes both sinks but leaves both fields set, so after the
    [Stop] of a started manager [Write] is still forwarded to the closed
    sink and its result is that write's result. *)
Theorem Write_sink_selection (data : list byte) (s : System) :
  (forall command args st,
      Write os data (boot (New os command args) st)
      = ((0%Z, Some NoInputAvailable), boot (New os command args) st))
  /\ (pty (pm s) = None -> stdinPipe (pm s) = None ->
      Write os data s = ((0%Z, Some NoInputAvailable), s)
      /\ Write os data (snd (Stop os s))
         = ((0%Z, Some NoInputAvailable), snd (Stop os s)))
  /\ (forall f, pty (pm s) = Some f ->
      Write os data s
      = (file_Write os (trace s) f data, issued (SysWrite f data) s)
      /\ Write os data (snd (Stop os s))
         = (file_Write os (trace (snd (Stop os s))) f data,
            issued (SysWrite f data) (snd (Stop os s))))
  /\ (forall f, pty (pm s) = None -> stdinPipe (pm s) = Some f ->
      Write os data s
      = (file_Write os (trace s) f data, issued (SysWrite f data) s)
      /\ Write os data (snd (Stop os s))
         = (file_Write os (trace (snd (Stop os s))) f data,
            issued (SysWrite f data) (snd (Stop os s)))).
Proof.
  destruct (Stop_keeps_sinks s) as [Hp Hs].
  repeat split; intros;
    first [ apply Write_unbound; simpl; congruence
          | apply Write_pty; simpl; congruence
          | apply Write_stdin; simpl; congruence ].
Qed.

(** C3, as the code has it: a failed [StartWithPipes] returns a
    [TransportError]: the error of the first step that failed (the
    creation of the stdin, stdout or stderr pipe, or the start of the
    command), wrapped under the prefix of that step, so that
    [errors.Unwrap] and [errors.Is] find the cause.  It leaves [running]
    and the PTY field as they were and launches no goroutine; the manager
    closes none of the pipes it opened.  The stdin pipe is assigned as soon
    as it is created: the input sink is left unbound only when creating
    the stdin pipe is the step that failed, and then a [Write] on a created
    manager fails with [NoInputAvailable]; after a later failure the sink
    is bound and [Write] is forwarded to it. *)
Theorem StartWithPipes_failure (s : System) (e : error) (data : list byte) :
  fst (StartWithPipes os s) = Some e ->
  let s1 := snd (StartWithPipes os s) in
  TransportError os e
  /\ (exists cause,
        first_failure os s = Some cause
        /\ e = Errorf_w os (fst cause) (snd cause)
        /\ Unwrap e = Some (snd cause)
        /\ errors_Is e (snd cause) = true
        /\ Error os e = fst cause +:+ Error os (snd cause))
  /\ running (pm s1) = running (pm s)
  /\ pty (pm s1) = pty (pm s)
  /\ threads s1 = threads s
  /\ calls s1 = calls s
  /\ (exists t, trace s1 = trace s ++ t
                /\ Forall (fun c => forall f, c <> SysClose f) t)
  /\ match cmd_StdinPipe os (trace s) with
     | inr _ =>
         stdinPipe (pm s1) = stdinPipe (pm s)
         /\ (pty (pm s) = None -> stdinPipe (pm s) = None ->
             Write os data s1 = ((0%Z, Some NoInputAvailable), s1))
     | inl stdin =>
         stdinPipe (pm s1) = Some stdin
         /\ (pty (pm s) = None ->
             Write os data s1
             = (file_Write os (trace s1) stdin data,
                issued (SysWrite stdin data) s1))
     end.
Proof.
  intros He s1. subst s1. revert He. rewrite StartWithPipes_spec.
  unfold first_failure.
  assert (Hin : forall pre cause,
             In pre ["start PTY failed: "; "create stdin pipe: ";
                     "create stdout pipe: "; "create stderr pipe: ";
                     "start command: "]%list ->
             TransportError os (Errorf_w os pre cause))
    by (intros pre cause H; exists pre, cause; now split).
  assert (Hw : forall pre cause,
             exists c : string * error,
               Some (pre, cause) = Some c
               /\ Errorf_w os pre cause = Errorf_w os (fst c) (snd c)
               /\ Unwrap (Errorf_w os pre cause) = Some (snd c)
               /\ errors_Is (Errorf_w os pre cause) (snd c) = true
               /\ Error os (Errorf_w os pre cause) = fst c +:+ Error os (snd c)).
  { intros pre cause. exists (pre, cause). repeat split.
    unfold Errorf_w. cbn [errors_Is snd].
    destruct (bool_decide _); [reflexivity|].
    destruct cause; cbn; now rewrite bool_decide_eq_true_2. }
  assert (Hnc : forall t : list syscall,
             Forall (fun c => is_close_any c = false) t ->
             Forall (fun c => forall f, c <> SysClose f) t).
  { intros t. apply Forall_impl. intros c Hc f ->. discriminate. }
  destruct (cmd_StdinPipe os (trace s)) as [stdin|e1]; cbv zeta.
  2:{ simpl. intros [= <-]. rewrite app_nil_r.
      split; [apply Hin; simpl; tauto|]. split; [apply Hw|].
      repeat split; auto.
      - eexists; split; [reflexivity|]. apply Hnc. repeat constructor.
      - intros. now apply Write_unbound. }
  destruct (cmd_StdoutPipe os _) as [stdout|e2].
  2:{ simpl. intros [= <-]. rewrite app_nil_r.
      split; [apply Hin; simpl; tauto|]. split; [apply Hw|].
      repeat split; auto.
      - eexists; split; [reflexivity|]. apply Hnc. repeat constructor.
      - intros. now apply Write_stdin. }
  destruct (cmd_StderrPipe os _) as [stderr|e3].
  2:{ simpl. intros [= <-]. rewrite app_nil_r.
      split; [apply Hin; simpl; tauto|]. split; [apply Hw|].
      repeat split; auto.
      - eexists; split; [reflexivity|]. apply Hnc. repeat constructor.
      - intros. now apply Write_stdin. }
  destruct (cmd_Start os _ _) as [proc|e4]; [discriminate|].
  simpl. intros [= <-]. rewrite app_nil_r.
  split; [apply Hin; simpl; tauto|]. split; [apply Hw|].
  repeat split; auto.
  - eexists; split; [reflexivity|]. apply Hnc. repeat constructor.
  - intros. now apply Write_stdin.
Qed.

(** C7: [Wait] returns the exit status the system reports and changes
    no field of the manager, so [IsRunning] answers after it what it
    answered before: still true when the child has exited by itself.
    [IsRunning] is false for a created manager, true after a successful
    start, false after [Stop]; no other operation and no step of a drain
    loop (where the exit of the child shows) writes the flag, and neither
    does a failed start. *)
Theorem Wait_leaves_running (s : System) :
  Wait os s = (cmd_Wait os (trace s), issued SysWait s)
  /\ pm (snd (Wait os s)) = pm s
  /\ fst (IsRunning (snd (Wait os s))) = fst (IsRunning s)
  /\ (forall command args st,
        fst (IsRunning (boot (New os command args) st)) = false)
  /\ (fst (StartWithPTY os s) = None ->
      fst (IsRunning (snd (StartWithPTY os s))) = true
      /\ fst (IsRunning (snd (Wait os (snd (StartWithPTY os s))))) = true)
  /\ (fst (StartWithPipes os s) = None ->
      fst (IsRunning (snd (StartWithPipes os s))) = true
      /\ fst (IsRunning (snd (Wait os (snd (StartWithPipes os s))))) = true)
  /\ (fst (StartWithPTY os s) <> None ->
      fst (IsRunning (snd (StartWithPTY os s))) = fst (IsRunning s))
  /\ (fst (StartWithPipes os s) <> None ->
      fst (IsRunning (snd (StartWithPipes os s))) = fst (IsRunning s))
  /\ fst (IsRunning (snd (Stop os s))) = false
  /\ (forall e, starts_or_stops e = false ->
        fst (IsRunning (snd (exec os e s))) = fst (IsRunning s)).
Proof.
  repeat split.
  - case_pty; [reflexivity|discriminate].
  - case_pty; [reflexivity|discriminate].
  - case_pipes; first [reflexivity|discriminate].
  - case_pipes; first [reflexivity|discriminate].
  - case_pty; simpl; [congruence|reflexivity].
  - case_pipes; simpl; first [congruence|reflexivity].
  - now rewrite Stop_spec.
  - intros e He. unfold IsRunning, gets. simpl.
    destruct e; try discriminate; simpl; try reflexivity.
    + assert (H : keeps_pm (skip (Write os data))) by (unfold skip; frame; apply keeps_pm_Write).
      now rewrite H.
    + now rewrite keeps_pm_thread_step.
Qed.

(** C9: [SetWindowSize] fails with [NoPTYSession] whenever the PTY field
    is nil, which is the case for a created manager, after
    [StartWithPipes] and after a failed [StartWithPTY]; with a PTY bound it
    issues the resize with the given rows and columns and returns its
    result. *)
Theorem SetWindowSize_needs_pty (rows cols : Z) (s : System) :
  (pty (pm s) = None ->
   SetWindowSize os rows cols s = (Some NoPTYSession, s))
  /\ (forall command args st,
        SetWindowSize os rows cols (boot (New os command args) st)
        = (Some NoPTYSession, boot (New os command args) st))
  /\ (pty (pm s) = None ->
      fst (SetWindowSize os rows cols (snd (StartWithPipes os s)))
      = Some NoPTYSession)
  /\ (fst (StartWithPTY os s) <> None ->
      fst (SetWindowSize os rows cols (snd (StartWithPTY os s)))
      = Some NoPTYSession)
  /\ (forall f, pty (pm s) = Some f ->
      SetWindowSize os rows cols s
      = (pty_Setsize os (trace s) f rows cols,
         issued (SysSetsize f rows cols) s)).
Proof.
  assert (H0 : forall s', pty (pm s') = None ->
             SetWindowSize os rows cols s' = (Some NoPTYSession, s')).
  { intros s' H. unfold SetWindowSize, bind, gets. now rewrite H. }
  split; [apply H0|].
  split; [intros; now apply H0|].
  split; [|split].
  - intros H. rewrite H0; [reflexivity|]. case_pipes; exact H.
  - intros H. rewrite H0; [reflexivity|].
    case_pty; simpl in *; [congruence|reflexivity].
  - intros f H. unfold SetWindowSize, bind, gets. now rewrite H.
Qed.

(** ** The drain loop of a pipe *)

Lemma make_spec n s :
  make n s = (length (heap s), with_heap (heap s ++ [replicate n x00]) s).
Proof. reflexivity. Qed.

Lemma copy_spec dst src d s :
  heap s !! dst = Some d ->
  copy dst src s
  = (Nat.min (length d) (length src),
     with_heap (<[dst := take (Nat.min (length d) (length src)) src
                         ++ drop (Nat.min (length d) (length src)) d]> (heap s)) s).
Proof.
  intros H. unfold copy, load, bind, gets, set_heap, modify, ret. rewrite H. reflexivity.
Qed.

Lemma File_Read_data r buf b burst rest s :
  heap s !! buf = Some b ->
  avail (streams s r) = burst :: rest ->
  exists s',
    File_Read (Some r) buf s = ((length (take (length b) burst), None), s')
    /\ pm s' = pm s
    /\ trace s' = trace s ++ [SysRead r]
    /\ avail (streams s' r) = match drop (length b) burst with [] => rest | b' => b' :: rest end
    /\ closing (streams s' r) = closing (streams s r)
    /\ heap s' = <[buf := take (length b) burst ++ drop (length (take (length b) burst)) b]> (heap s)
    /\ threads s' = threads s
    /\ calls s' = calls s.
Proof.
  intros Hb Ha.
  unfold File_Read, copy, load, bind, gets, sys, set_heap, set_stream, modify, ret, Reader_Read.
  simpl. rewrite Ha. simpl. rewrite Hb. simpl.
  assert (Hmin : length b `min` length (take (length b) burst)
                 = length (take (length b) burst))
    by (rewrite length_take; lia).
  rewrite Hmin, firstn_all.
  eexists; split; [reflexivity|]. simpl. rewrite Nat.eqb_refl. simpl.
  repeat split.
Qed.

Lemma File_Read_closed r buf b s :
  heap s !! buf = Some b ->
  avail (streams s r) = [] ->
  exists s',
    File_Read (Some r) buf s = ((0, Some (closing (streams s r))), s')
    /\ pm s' = pm s
    /\ trace s' = trace s ++ [SysRead r]
    /\ streams s' r = streams s r
    /\ heap s' = heap s
    /\ threads s' = threads s
    /\ calls s' = calls s.
Proof.
  intros Hb Ha.
  unfold File_Read, copy, load, bind, gets, sys, set_heap, set_stream, modify, ret, Reader_Read.
  simpl. rewrite Ha. simpl. rewrite Hb. simpl.
  rewrite Nat.min_0_r. simpl. rewrite drop_0.
  eexists; split; [reflexivity|]. simpl. rewrite Nat.eqb_refl. simpl.
  repeat split. now apply list_insert_id.
Qed.


Lemma deliver_spec tid buf (h : Handler) chunk tl s :
  heap s !! buf = Some (chunk ++ tl) ->
  (let* data := make (length chunk) in
   let* b := load buf in
   copy data (take (length chunk) b);;
   invoke tid h data) s
  = (tt, {| pm := pm s; trace := trace s; streams := streams s;
            heap := heap s ++ [chunk]; threads := threads s;
            calls := calls s ++ [call tid h (length (heap s))];
     pipes := pipes s |}).
Proof.
  intros Hb.
  assert (Hlt : buf < length (heap s)) by (eapply lookup_lt_Some; eauto).
  unfold make, copy, load, invoke, bind, gets, set_heap, modify, ret. simpl.
  rewrite list_lookup_middle by reflexivity. simpl.
  rewrite lookup_app_l by lia. rewrite Hb. simpl.
  rewrite take_app_length, length_replicate, Nat.min_id, firstn_all.
  rewrite drop_replicate, Nat.sub_diag. simpl. rewrite app_nil_r.
  f_equal. f_equal.
  rewrite insert_app_r_alt by lia. rewrite Nat.sub_diag. reflexivity.
Qed.

Lemma readFromReader_iter_data tid buf r (h : Handler) b burst rest s :
  heap s !! buf = Some b ->
  avail (streams s r) = burst :: rest ->
  take (length b) burst <> [] ->
  exists s',
    readFromReader_iter os tid buf r (Some h) s = (false, s')
    /\ pm s' = pm s
    /\ trace s' = trace s ++ [SysRead r]
    /\ avail (streams s' r)
       = match drop (length b) burst with [] => rest | b' => b' :: rest end
    /\ closing (streams s' r) = closing (streams s r)
    /\ heap s'
       = <[buf := take (length b) burst
                  ++ drop (length (take (length b) burst)) b]> (heap s)
         ++ [take (length b) burst]
    /\ threads s' = threads s
    /\ calls s' = calls s ++ [call tid h (length (heap s))].
Proof.
  intros Hb Ha Hne.
  destruct (File_Read_data r buf b burst rest s Hb Ha)
    as (s1 & HR & Hpm & Htr & Hav & Hcl & Hh & Hth & Hca).
  unfold readFromReader_iter. unfold bind at 1. rewrite HR. simpl fst. simpl snd.
  assert (Hpos : (0 <? length (take (length b) burst)) = true).
  { apply Nat.ltb_lt. destruct (take (length b) burst); [congruence|simpl; lia]. }
  rewrite Hpos. unfold bind at 1.
  erewrite deliver_spec.
  2:{ rewrite Hh. apply list_lookup_insert_eq. eapply lookup_lt_Some; eauto. }
  unfold ret. eexists; split; [reflexivity|]. simpl.
  rewrite Hh, length_insert, Hca.
  repeat split; assumption.
Qed.

Lemma readFromReader_iter_empty tid buf r (h : option Handler) b rest s :
  heap s !! buf = Some b ->
  avail (streams s r) = [] :: rest ->
  exists s',
    readFromReader_iter os tid buf r h s = (false, s')
    /\ pm s' = pm s
    /\ trace s' = trace s ++ [SysRead r]
    /\ avail (streams s' r) = rest
    /\ closing (streams s' r) = closing (streams s r)
    /\ heap s' = heap s
    /\ threads s' = threads s
    /\ calls s' = calls s.
Proof.
  intros Hb Ha.
  destruct (File_Read_data r buf b [] rest s Hb Ha)
    as (s1 & HR & Hpm & Htr & Hav & Hcl & Hh & Hth & Hca).
  rewrite take_nil in HR, Hh. rewrite drop_nil in Hav.
  change (length (@nil byte)) with 0 in HR, Hh.
  rewrite app_nil_l, drop_0 in Hh.
  unfold readFromReader_iter. unfold bind at 1. rewrite HR. simpl.
  unfold bind, ret. simpl.
  eexists; split; [reflexivity|]. rewrite Hh, list_insert_id by assumption.
  repeat split; assumption.
Qed.

Lemma readFromReader_iter_closed tid buf r (h : Handler) b s :
  heap s !! buf = Some b ->
  avail (streams s r) = [] ->
  exists s',
    readFromReader_iter os tid buf r (Some h) s = (true, s')
    /\ pm s' = pm s
    /\ trace s' = trace s ++ [SysRead r]
    /\ streams s' r = streams s r
    /\ heap s' = heap s ++ diagnostic os (closing (streams s r))
    /\ threads s' = threads s
    /\ calls s'
       = calls s
         ++ map (call tid h)
              (seq (length (heap s))
                 (length (diagnostic os (closing (streams s r))))).
Proof.
  intros Hb Ha.
  destruct (File_Read_closed r buf b s Hb Ha)
    as (s1 & HR & Hpm & Htr & Hst & Hh & Hth & Hca).
  unfold readFromReader_iter. unfold bind at 1. rewrite HR. simpl.
  unfold diagnostic.
  destruct (bool_decide (closing (streams s r) = EOF)); simpl.
  - unfold bind, ret. simpl. eexists; split; [reflexivity|].
    rewrite !app_nil_r. repeat split; assumption.
  - unfold bind, ret, bytes_of, invoke, gets, set_heap, modify. simpl.
    eexists; split; [reflexivity|]. simpl. rewrite Hh, Hca.
    repeat split; assumption.
Qed.

Lemma loop_readFromReader tid buf r (h : Handler) :
  forall fuel s b,
    heap s !! buf = Some b ->
    0 < length b ->
    reads_bound (streams s r) < fuel ->
    exists chunks b' s',
      loop fuel (readFromReader_iter os tid buf r (Some h)) s = (true, s')
      /\ concat chunks = concat (avail (streams s r))
      /\ Forall (fun c => 0 < length c <= length b) chunks
      /\ heap s'
         = <[buf := b']> (heap s) ++ chunks
           ++ diagnostic os (closing (streams s r))
      /\ length b' = length b
      /\ calls s'
         = calls s
           ++ map (call tid h)
                (seq (length (heap s))
                   (length (chunks ++ diagnostic os (closing (streams s r)))))
      /\ pm s' = pm s
      /\ threads s' = threads s.
Proof.
  induction fuel as [|fuel IH]; intros s b Hb Hlen Hfuel; [lia|].
  destruct (avail (streams s r)) as [|burst rest] eqn:Ha.
  - destruct (readFromReader_iter_closed tid buf r h b s Hb Ha)
      as (s1 & HI & Hpm & Htr & Hst & Hh & Hth & Hca).
    exists [], b, s1. simpl. unfold bind at 1. rewrite HI.
    rewrite list_insert_id by assumption.
    repeat split; auto.
  - destruct (decide (take (length b) burst = [])) as [He|Hne].
    + assert (burst = []) as ->.
      { destruct burst; [reflexivity|]. destruct b; simpl in *; [lia|discriminate]. }
      destruct (readFromReader_iter_empty tid buf r (Some h) b rest s Hb Ha)
        as (s1 & HI & Hpm & Htr & Hav & Hcl & Hh & Hth & Hca).
      destruct (IH s1 b) as (chunks & b' & s' & HL & Hcat & Hall & Hh' & Hb' & Hca' & Hpm' & Hth').
      * now rewrite Hh.
      * assumption.
      * unfold reads_bound in *. rewrite Hav. rewrite Ha in Hfuel. simpl in Hfuel. lia.
      * exists chunks, b', s'. simpl. unfold bind at 1. rewrite HI.
        rewrite Hav, Hcl, Hh, Hca in *.
        repeat split; auto; congruence.
    + destruct (readFromReader_iter_data tid buf r h b burst rest s Hb Ha Hne)
        as (s1 & HI & Hpm & Htr & Hav & Hcl & Hh & Hth & Hca).
      assert (Hlt : buf < length (heap s)) by (eapply lookup_lt_Some; eauto).
      set (chunk := take (length b) burst) in *.
      set (b1 := chunk ++ drop (length chunk) b) in *.
      assert (Hchunk : 0 < length chunk <= length b).
      { split; [destruct chunk; [congruence|simpl; lia]|].
        subst chunk. rewrite length_take. lia. }
      assert (Hb1 : length b1 = length b).
      { subst b1. rewrite length_app, length_drop. lia. }
      destruct (IH s1 b1) as (chunks & b' & s' & HL & Hcat & Hall & Hh' & Hb' & Hca' & Hpm' & Hth').
      * rewrite Hh, lookup_app_l by (rewrite length_insert; lia).
        now apply list_lookup_insert_eq.
      * lia.
      * unfold reads_bound in *. rewrite Hav. rewrite Ha in Hfuel.
        simpl in Hfuel. rewrite length_app in Hfuel.
        destruct (drop (length b) burst) as [|x d] eqn:Hd.
        -- lia.
        -- simpl. rewrite length_app.
           assert (length (x :: d) = length burst - length b)
             by (rewrite <- Hd; apply length_drop).
           simpl in H. lia.
      * exists (chunk :: chunks), b', s'. simpl. unfold bind at 1. rewrite HI.
        rewrite Hcl in *.
        split; [exact HL|].
        split.
        { rewrite Hcat, Hav. subst chunk.
          destruct (drop (length b) burst) as [|x d] eqn:Hd; simpl.
          - rewrite <- (take_drop (length b) burst) at 2. now rewrite Hd, app_nil_r.
          - rewrite <- (take_drop (length b) burst) at 2.
            now rewrite Hd, <- app_assoc. }
        split.
        { constructor; [exact Hchunk|]. now rewrite Hb1 in Hall. }
        split.
        { rewrite Hh', Hh. rewrite insert_app_l by (rewrite length_insert; lia).
          rewrite list_insert_insert_eq. rewrite <- app_assoc. reflexivity. }
        split; [lia|].
        split.
        { rewrite Hca', Hca, Hh, length_app, length_insert. simpl.
          rewrite <- app_assoc. simpl. do 3 f_equal.
          now rewrite Nat.add_1_r. }
        split; congruence.
Qed.

Lemma lookup_seq_app (l pre : list (list byte)) :
  map (fun a => default [] ((pre ++ l) !! a)) (seq (length pre) (length l)) = l.
Proof.
  revert pre. induction l as [|x l IH]; intros pre; [reflexivity|].
  simpl. rewrite list_lookup_middle by reflexivity. simpl. f_equal.
  specialize (IH (pre ++ [x])).
  rewrite length_app, Nat.add_1_r, <- app_assoc in IH. exact IH.
Qed.

Lemma readFromReader_spec (tid : nat) (r : File) (h : Handler) (fuel : nat)
    (s : System) :
  reads_bound (streams s r) < fuel ->
  exists chunks buf s',
    readFromReader os fuel tid r (Some h) s = (true, s')
    /\ concat chunks = concat (avail (streams s r))
    /\ Forall (fun c => 0 < length c <= bufSize) chunks
    /\ heap s'
       = heap s ++ buf :: chunks ++ diagnostic os (closing (streams s r))
    /\ length buf = bufSize
    /\ calls s'
       = calls s
         ++ map (call tid h)
              (seq (S (length (heap s)))
                 (length (chunks ++ diagnostic os (closing (streams s r)))))
    /\ drop (length (calls s)) (delivered s')
       = map (fun c => (tid, h, c))
           (chunks ++ diagnostic os (closing (streams s r)))
    /\ pm s' = pm s
    /\ threads s' = threads s.
Proof.
  intros Hfuel.
  unfold readFromReader. unfold bind at 1. rewrite make_spec.
  set (s0 := with_heap (heap s ++ [replicate bufSize x00]) s).
  destruct (loop_readFromReader tid (length (heap s)) r h fuel s0
              (replicate bufSize x00))
    as (chunks & b' & s' & HL & Hcat & Hall & Hh & Hb & Hca & Hpm & Hth).
  - subst s0. simpl. now apply list_lookup_middle.
  - rewrite length_replicate. unfold bufSize. lia.
  - exact Hfuel.
  - rewrite length_replicate in Hall, Hb.
    assert (Hheap : heap s'
                    = heap s ++ b' :: chunks
                      ++ diagnostic os (closing (streams s r))).
    { rewrite Hh. subst s0. simpl.
      rewrite insert_app_r_alt by lia. rewrite Nat.sub_diag. simpl.
      now rewrite <- app_assoc. }
    assert (Hcalls : calls s'
                     = calls s
                       ++ map (call tid h)
                            (seq (S (length (heap s)))
                               (length (chunks
                                  ++ diagnostic os (closing (streams s r)))))).
    { rewrite Hca. subst s0. simpl. now rewrite length_app, Nat.add_1_r. }
    exists chunks, b', s'. repeat split; auto.
    unfold delivered. rewrite Hcalls, map_app, drop_app_length'
      by now rewrite length_map.
    rewrite map_map. simpl.
    rewrite <- (lookup_seq_app
                  (chunks ++ diagnostic os (closing (streams s r)))
                  (heap s ++ [b'])) at 2.
    rewrite map_map, Hheap, <- app_assoc.
    replace (length (heap s ++ [b'])) with (S (length (heap s)))
      by (rewrite length_app; simpl; lia).
    reflexivity.
Qed.

(** ** Runs in pipe mode, with the caller and both loops interleaved *)

Lemma File_Read_explicit r buf b s :
  heap s !! buf = Some b ->
  File_Read (Some r) buf s
  = (let data := fst (fst (Reader_Read (streams s r) (length b))) in
     ((length data, snd (fst (Reader_Read (streams s r) (length b)))),
      after_read r (length b)
        (<[buf := data ++ drop (length data) b]> (heap s)) (calls s) s)).
Proof.
  intros Hb.
  unfold File_Read, copy, load, bind, gets, sys, set_heap, set_stream, modify,
    ret, after_read.
  simpl. rewrite Hb. simpl.
  destruct (Reader_Read (streams s r) (length b)) as [[data err] R'] eqn:HR.
  simpl. rewrite Hb. simpl.
  assert (Hmin : length b `min` length data = length data).
  { unfold Reader_Read in HR. destruct (avail (streams s r)); inversion HR; subst; simpl.
    - lia.
    - rewrite length_take. lia. }
  rewrite Hmin, firstn_all. reflexivity.
Qed.

Lemma readFromReader_iter_reads tid buf r handler b burst rest s :
  heap s !! buf = Some b ->
  avail (streams s r) = burst :: rest ->
  take (length b) burst <> [] ->
  readFromReader_iter os tid buf r handler s
  = (false,
     after_read r (length b)
       (<[buf := take (length b) burst
                 ++ drop (length (take (length b) burst)) b]> (heap s)
        ++ [take (length b) burst])
       (calls s ++ call_slot tid handler (length (heap s))) s).
Proof.
  intros Hb Ha Hne.
  assert (Hlt : buf < length (heap s)) by (eapply lookup_lt_Some; eauto).
  unfold readFromReader_iter. unfold bind at 1.
  rewrite (File_Read_explicit r buf b s Hb). cbv zeta.
  assert (Hd : fst (fst (Reader_Read (streams s r) (length b)))
               = take (length b) burst)
    by (unfold Reader_Read; now rewrite Ha).
  assert (He : snd (fst (Reader_Read (streams s r) (length b))) = None)
    by (unfold Reader_Read; now rewrite Ha).
  rewrite Hd, He. simpl fst. simpl snd.
  assert (Hpos : (0 <? length (take (length b) burst)) = true).
  { apply Nat.ltb_lt. destruct (take (length b) burst); [congruence|simpl; lia]. }
  rewrite Hpos.
  set (chunk := take (length b) burst).
  unfold make, copy, load, invoke, bind, gets, set_heap, modify, ret, after_read.
  simpl.
  rewrite list_lookup_middle by (now rewrite length_insert). simpl.
  rewrite lookup_app_l by (rewrite length_insert; lia).
  rewrite list_lookup_insert_eq by lia. simpl.
  rewrite take_app_length, length_replicate, Nat.min_id, firstn_all.
  rewrite drop_replicate, Nat.sub_diag. simpl. rewrite app_nil_r.
  rewrite insert_app_r_alt by (rewrite length_insert; lia).
  rewrite !length_insert, Nat.sub_diag. simpl.
  destruct handler; simpl; rewrite ?app_nil_r; reflexivity.
Qed.

Lemma readFromReader_iter_idles tid buf r handler b rest s :
  heap s !! buf = Some b ->
  avail (streams s r) = [] :: rest ->
  readFromReader_iter os tid buf r handler s
  = (false, after_read r (length b) (heap s) (calls s) s).
Proof.
  intros Hb Ha.
  unfold readFromReader_iter. unfold bind at 1.
  rewrite (File_Read_explicit r buf b s Hb). cbv zeta.
  assert (Hd : fst (fst (Reader_Read (streams s r) (length b))) = [])
    by (unfold Reader_Read; rewrite Ha; simpl; now rewrite take_nil).
  assert (He : snd (fst (Reader_Read (streams s r) (length b))) = None)
    by (unfold Reader_Read; now rewrite Ha).
  rewrite Hd, He. simpl. unfold bind, ret. simpl.
  rewrite drop_0, list_insert_id by assumption. reflexivity.
Qed.

Lemma readFromReader_iter_leaves tid buf r handler b s :
  heap s !! buf = Some b ->
  avail (streams s r) = [] ->
  readFromReader_iter os tid buf r handler s
  = (true,
     after_read r (length b)
       (heap s ++ diag_heap os handler (closing (streams s r)))
       (calls s
        ++ diag_calls os tid handler (closing (streams s r)) (length (heap s)))
       s).
Proof.
  intros Hb Ha.
  unfold readFromReader_iter. unfold bind at 1.
  rewrite (File_Read_explicit r buf b s Hb). cbv zeta.
  assert (Hd : fst (fst (Reader_Read (streams s r) (length b))) = [])
    by (unfold Reader_Read; now rewrite Ha).
  assert (He : snd (fst (Reader_Read (streams s r) (length b)))
               = Some (closing (streams s r)))
    by (unfold Reader_Read; now rewrite Ha).
  rewrite Hd, He. simpl.
  rewrite drop_0, list_insert_id by assumption.
  unfold diag_heap, diag_calls, diagnostic.
  destruct handler as [h|]; simpl.
  - destruct (bool_decide (closing (streams s r) = EOF)); simpl.
    + unfold bind, ret, after_read. simpl. now rewrite !app_nil_r.
    + reflexivity.
  - unfold bind, ret, after_read. simpl. now rewrite !app_nil_r.
Qed.

(** A goroutine that has left its loop does nothing more. *)
Lemma thread_step_exited tid th s :
  threads s !! tid = Some th -> state th = Exited ->
  thread_step os tid s = (tt, s).
Proof.
  intros Hth Hst. unfold thread_step, bind, gets. now rewrite Hth, Hst.
Qed.

Lemma thread_step_spawned tid th s :
  threads s !! tid = Some th -> state th = Spawned ->
  thread_step os tid s
  = (tt, with_thread tid (Looping (length (heap s)))
           (with_heap (heap s ++ [replicate bufSize x00]) s)).
Proof.
  intros Hth Hst. unfold thread_step, bind, gets. now rewrite Hth, Hst.
Qed.

Lemma thread_step_looping tid buf r handler s :
  threads s !! tid = Some {| body := GoReadFromReader r handler;
                              state := Looping buf |} ->
  thread_step os tid s
  = (tt,
     let rs := readFromReader_iter os tid buf r handler s in
     if fst rs then with_thread tid Exited (snd rs) else snd rs).
Proof.
  intros Hth. unfold thread_step, bind, gets. rewrite Hth. simpl.
  destruct (readFromReader_iter os tid buf r handler s) as [[] s']; reflexivity.
Qed.

Lemma thread_step_none tid s :
  threads s !! tid = None -> thread_step os tid s = (tt, s).
Proof. intros H. unfold thread_step, bind, gets. now rewrite H. Qed.


Lemma call_slot_pass tid handler (n m : nat) :
  n < m ->
  Forall (fun c => by_thread c = tid /\ n <= arg c < m) (call_slot tid handler n)
  /\ NoDup (map arg (call_slot tid handler n)).
Proof.
  intros Hnm. destruct handler; simpl; split;
    first [apply NoDup_singleton | apply NoDup_nil_2
          | repeat constructor; simpl; lia].
Qed.

Lemma diag_calls_pass tid handler e (n : nat) :
  Forall (fun c => by_thread c = tid
                   /\ n <= arg c < n + length (diag_heap os handler e))
    (diag_calls os tid handler e n)
  /\ NoDup (map arg (diag_calls os tid handler e n)).
Proof.
  unfold diag_calls, diag_heap. destruct handler as [h|]; simpl.
  - split.
    + apply List.Forall_forall. intros c Hc. apply in_map_iff in Hc.
      destruct Hc as (a & <- & Ha).
      apply in_seq in Ha. simpl. lia.
    + rewrite map_map. simpl. rewrite map_id. apply NoDup_ListNoDup, seq_NoDup.
  - split; constructor.
Qed.

(** A pass of a pipe loop is a [pass], and reads no stream but its own. *)
Lemma pipe_pass tid buf r handler b s :
  heap s !! buf = Some b -> 0 < length b ->
  pass tid buf s (snd (readFromReader_iter os tid buf r handler s))
  /\ (forall g, g <> r ->
        streams (snd (readFromReader_iter os tid buf r handler s)) g
        = streams s g)
  /\ threads (snd (readFromReader_iter os tid buf r handler s)) = threads s
  /\ pm (snd (readFromReader_iter os tid buf r handler s)) = pm s.
Proof.
  intros Hb Hlen.
  assert (Hfr : forall h' c' g, g <> r ->
            streams (after_read r (length b) h' c' s) g = streams s g).
  { intros h' c' g Hg. simpl. destruct (Nat.eqb_spec g r); congruence. }
  destruct (avail (streams s r)) as [|burst rest] eqn:Ha.
  - rewrite (readFromReader_iter_leaves tid buf r handler b s Hb Ha). simpl.
    split; [|split; [intros g Hg; exact (Hfr [] [] g Hg)|split; reflexivity]].
    destruct (diag_calls_pass tid handler (closing (streams s r))
                (length (heap s))) as [HF HN].
    split.
    + exists b, (diag_heap os handler (closing (streams s r))).
      rewrite list_insert_id by assumption. split; [reflexivity|].
      intros b' Hb'. congruence.
    + eexists; split; [reflexivity|]. split; [|exact HN].
      simpl. now rewrite length_app.
  - destruct (decide (take (length b) burst = [])) as [He|Hne].
    + assert (burst = []) as ->.
      { destruct burst; [reflexivity|]. destruct b; simpl in *; [lia|discriminate]. }
      rewrite (readFromReader_iter_idles tid buf r handler b rest s Hb Ha).
      simpl. split; [|split; [intros g Hg; exact (Hfr [] [] g Hg)|split; reflexivity]].
      split.
      * exists b, []. rewrite list_insert_id, app_nil_r by assumption.
        split; [reflexivity|]. intros b' Hb'. congruence.
      * exists []. rewrite app_nil_r. repeat split; constructor.
    + rewrite (readFromReader_iter_reads tid buf r handler b burst rest s Hb Ha Hne).
      simpl. split; [|split; [intros g Hg; exact (Hfr [] [] g Hg)|split; reflexivity]].
      split.
      * eexists _, _. split; [reflexivity|].
        intros b' Hb'. assert (b' = b) as -> by congruence.
        rewrite length_app, length_drop, length_take. lia.
      * eexists; split; [reflexivity|].
        unfold after_read. simpl heap.
        rewrite length_app, length_insert. simpl.
        apply call_slot_pass. lia.
Qed.

Lemma pass_args tid buf s s' :
  pass tid buf s s' ->
  Forall (fun c => arg c < length (heap s)) (calls s) ->
  Forall (fun c => arg c < length (heap s')) (calls s').
Proof.
  intros [(x & extra & Hh & _) (new & Hc & HF & _)] Hargs.
  rewrite Hc. apply Forall_app. split.
  - eapply List.Forall_impl; [|exact Hargs]. intros c Hlt. simpl in *.
    rewrite Hh, length_app, length_insert. lia.
  - eapply List.Forall_impl; [|exact HF]. intros c [_ Hlt]. simpl in *. lia.
Qed.

Lemma pass_nodup tid buf s s' :
  pass tid buf s s' ->
  Forall (fun c => arg c < length (heap s)) (calls s) ->
  NoDup (map arg (calls s)) ->
  NoDup (map arg (calls s')).
Proof.
  intros [_ (new & Hc & HF & HN)] Hargs Hnd.
  rewrite Hc, map_app. apply list.NoDup_app. split; [exact Hnd|]. split; [|exact HN].
  intros a Ha Ha'.
  apply list_elem_of_In in Ha. apply list_elem_of_In in Ha'.
  apply in_map_iff in Ha. apply in_map_iff in Ha'.
  destruct Ha as (c & <- & Hc1). destruct Ha' as (c' & Heq & Hc2).
  rewrite List.Forall_forall in Hargs, HF.
  specialize (Hargs c Hc1). specialize (HF c' Hc2). simpl in *. lia.
Qed.

Lemma pass_lookup tid buf s s' (a : nat) :
  pass tid buf s s' -> a < length (heap s) -> a <> buf ->
  heap s' !! a = heap s !! a.
Proof.
  intros [(x & extra & Hh & _) _] Hlt Hne.
  rewrite Hh, lookup_app_l by (rewrite length_insert; lia).
  now apply list_lookup_insert_ne.
Qed.

Lemma pass_buf_ok tid buf s s' st :
  pass tid buf s s' -> buf_ok s st -> buf_ok s' st.
Proof.
  intros Hp Hok. destruct st as [|a|]; simpl in *; auto.
  destruct Hok as [(b & Hb & Hlen) Hne].
  assert (Hlt : a < length (heap s)) by (eapply lookup_lt_Some; eauto).
  destruct Hp as [(x & extra & Hh & Hx) (new & Hc & HF & _)].
  split.
  - destruct (decide (a = buf)) as [->|Hab].
    + exists x. split.
      * rewrite Hh, lookup_app_l by (rewrite length_insert; lia).
        now apply list_lookup_insert_eq.
      * rewrite (Hx b Hb). exact Hlen.
    + exists b. split; [|exact Hlen].
      rewrite Hh, lookup_app_l by (rewrite length_insert; lia).
      rewrite list_lookup_insert_ne by congruence. exact Hb.
  - rewrite Hc. apply Forall_app. split; [exact Hne|].
    eapply List.Forall_impl; [|exact HF]. intros c [_ Hge]. simpl in *. lia.
Qed.

Lemma close_files_other (fs : list File) (st : File -> Reader) (g : File) :
  ~ In g fs -> close_files fs st g = st g.
Proof.
  intros Hn. unfold close_files.
  destruct (existsb (Nat.eqb g) fs) eqn:He; [|reflexivity].
  apply existsb_exists in He as (x & Hin & Hx).
  apply Nat.eqb_eq in Hx. subst x. now elim Hn.
Qed.

Lemma stopped_other (p : ProcessManager) (st : File -> Reader) (g : File) :
  ~ In (SysClose g) (closes p) -> stopped p st g = st g.
Proof.
  unfold stopped, closes.
  destruct (pty p) as [f|], (stdinPipe p) as [f'|]; cbn [app In];
    intros Hn; rewrite ?close_files_other; try reflexivity;
    intros [<-|[]]; apply Hn; tauto.
Qed.

(** What a call of the caller leaves alone: the goroutines, the heap, the
    invocations and the pipes of the command; the files too, but for those
    [Stop] closes and, in [Wait], the pipes of the command. *)
Lemma caller_frame e s :
  starts e = false -> (forall tid, e <> Step tid) ->
  threads (snd (exec os e s)) = threads s
  /\ heap (snd (exec os e s)) = heap s
  /\ calls (snd (exec os e s)) = calls s
  /\ pipes (snd (exec os e s)) = pipes s
  /\ (forall g,
        (e = CallStop -> ~ In (SysClose g) (closes (pm s))) ->
        (e = CallWait -> ~ In g (pipes s)) ->
        streams (snd (exec os e s)) g = streams s g).
Proof.
  intros Hs Hstep. destruct e; try discriminate; cbn [exec].
  - now repeat split.
  - now repeat split.
  - unfold skip, bind, ret.
    destruct (pty (pm s)) as [f|] eqn:Hp;
      [rewrite (Write_pty data s f Hp); now repeat split|].
    destruct (stdinPipe (pm s)) as [f|] eqn:Hi;
      [rewrite (Write_stdin data s f Hp Hi); now repeat split|].
    rewrite (Write_unbound data s Hp Hi). now repeat split.
  - unfold skip, bind, ret. rewrite Stop_spec. cbn [snd threads heap calls pipes
                                                     streams].
    repeat (split; [reflexivity|]). intros g Hg _.
    now apply stopped_other, Hg.
  - repeat (split; [reflexivity|]). intros g _ Hg.
    unfold skip, bind, ret. rewrite Wait_spec.
    cbn [snd issued streams effect].
    destruct (Proc (cmd (pm s))); [|reflexivity].
    now apply close_files_other, Hg.
  - now elim (Hstep tid).
Qed.

Lemma caller_closes e s :
  starts e = false -> closes (pm (snd (exec os e s))) = closes (pm s).
Proof.
  intros Hs. unfold closes.
  destruct e; try discriminate; cbn [exec]; unfold skip, bind, ret.
  - reflexivity.
  - reflexivity.
  - pose proof (keeps_pm_Write data s) as Hk.
    destruct (Write os data s) as [r s1]. cbn [snd] in *. now rewrite Hk.
  - now rewrite Stop_spec.
  - reflexivity.
  - now rewrite keeps_pm_thread_step.
Qed.

Section Draining.

Variables (r0 r1 : File) (h : Handler) (h1 : option Handler) (R0 : Reader).

#[local] Abbreviation Inv := (draining os r0 r1 h h1 R0).
#[local] Abbreviation fin := (reported os R0).
#[local] Abbreviation progress := (drained_so_far r0 R0).
#[local] Abbreviation need := (steps_needed r0).

Hypothesis Hr : r0 <> r1.

Lemma delivered_by_app tid0 s s' new buf x extra :
  heap s' = <[buf := x]> (heap s) ++ extra ->
  calls s' = calls s ++ new ->
  Forall (fun c => arg c < length (heap s)) (calls s) ->
  Forall (fun c => arg c <> buf) (calls s) ->
  delivered_by tid0 s'
  = delivered_by tid0 s
    ++ map (fun c => (fn c, default [] (heap s' !! arg c)))
         (List.filter (fun c => Nat.eqb (by_thread c) tid0) new).
Proof.
  intros Hh Hc Hargs Hne. unfold delivered_by.
  rewrite Hc, filter_app, map_app. f_equal.
  apply map_ext_in. intros c Hin. apply filter_In in Hin as [Hin _].
  rewrite List.Forall_forall in Hargs, Hne.
  specialize (Hargs c Hin). specialize (Hne c Hin). simpl in *.
  rewrite Hh, lookup_app_l by (rewrite length_insert; lia).
  now rewrite list_lookup_insert_ne by congruence.
Qed.

Lemma filter_other tid0 tid (new : list Call) (P : Call -> Prop) :
  tid <> tid0 ->
  Forall (fun c => by_thread c = tid /\ P c) new ->
  List.filter (fun c => Nat.eqb (by_thread c) tid0) new = [].
Proof.
  intros Hne HF. induction new as [|c new IH]; [reflexivity|].
  inversion HF as [|? ? [Hby _] HF']; subst. simpl.
  destruct (Nat.eqb_spec (by_thread c) tid0); [congruence|]. now apply IH.
Qed.

Lemma filter_mine tid (hd : Handler) (l : list nat) :
  List.filter (fun c => Nat.eqb (by_thread c) tid) (map (call tid hd) l)
  = map (call tid hd) l.
Proof.
  induction l as [|a l IH]; [reflexivity|].
  cbn. rewrite Nat.eqb_refl. now f_equal.
Qed.

(** A step of the other goroutine keeps what is known of goroutine 0. *)
Lemma Inv_other s s' st0 st1 st1' chunks buf :
  Inv s st0 st1 chunks ->
  pass 1 buf s s' ->
  Forall (fun c => arg c <> buf) (calls s) ->
  streams s' r0 = streams s r0 ->
  threads s'
  = [ {| body := GoReadFromReader r0 (Some h); state := st0 |};
      {| body := GoReadFromReader r1 h1; state := st1' |} ] ->
  buf_ok s' st1' ->
  Inv s' st0 st1' chunks.
Proof.
  intros [Hth Hargs Hnd Hb0 Hb1 Hcl Hch Hmine Hpr] Hp Hne Hst Hth' Hb1'.
  constructor; auto.
  - eapply pass_args; eauto.
  - eapply pass_nodup; eauto.
  - eapply pass_buf_ok; eauto.
  - now rewrite Hst.
  - destruct Hp as [(x & extra & Hh & _) (new & Hc & HF & _)].
    rewrite (delivered_by_app 0 s s' new buf x extra Hh Hc Hargs Hne).
    rewrite (filter_other 0 1 new _ ltac:(lia) HF). simpl.
    now rewrite app_nil_r.
  - unfold progress in *. now rewrite Hst.
Qed.

Lemma Inv_self s s' st0 st0' st1 chunks chunks' buf :
  Inv s st0 st1 chunks ->
  pass 0 buf s s' ->
  threads s'
  = [ {| body := GoReadFromReader r0 (Some h); state := st0' |};
      {| body := GoReadFromReader r1 h1; state := st1 |} ] ->
  buf_ok s' st0' ->
  closing (streams s' r0) = closing R0 ->
  Forall (fun c => 0 < length c <= bufSize) chunks' ->
  delivered_by 0 s' = map (fun c => (h, c)) (chunks' ++ fin st0') ->
  progress s' st0' chunks' ->
  Inv s' st0' st1 chunks'.
Proof.
  intros [Hth Hargs Hnd Hb0 Hb1 Hcl Hch Hmine Hpr] Hp Hth' Hb0' Hcl' Hch' Hm' Hpr'.
  constructor; auto.
  - eapply pass_args; eauto.
  - eapply pass_nodup; eauto.
  - eapply pass_buf_ok; eauto.
Qed.

Lemma pass_spawn tid s :
  pass tid (length (heap s)) s (with_heap (heap s ++ [replicate bufSize x00]) s).
Proof.
  split.
  - exists [], [replicate bufSize x00]. simpl.
    rewrite list_insert_ge by lia. split; [reflexivity|].
    intros b Hb. apply lookup_lt_Some in Hb. lia.
  - exists []. simpl. rewrite app_nil_r. repeat split; constructor.
Qed.

Lemma args_fresh s :
  Forall (fun c => arg c < length (heap s)) (calls s) ->
  Forall (fun c => arg c <> length (heap s)) (calls s).
Proof. apply List.Forall_impl. intros c. lia. Qed.

Lemma pass_with_thread tid buf s s' t st :
  pass tid buf s s' -> pass tid buf s (with_thread t st s').
Proof. intros [Hh Hc]. split; [exact Hh|exact Hc]. Qed.

Lemma buf_ok_with_thread s t st st' :
  buf_ok s st' -> buf_ok (with_thread t st s) st'.
Proof. destruct st'; simpl; auto. Qed.

Lemma Inv_step1 s st0 st1 chunks :
  Inv s st0 st1 chunks ->
  exists st1',
    Inv (snd (thread_step os 1 s)) st0 st1' chunks
    /\ streams (snd (thread_step os 1 s)) r0 = streams s r0.
Proof.
  intros HI. pose proof HI as [Hth Hargs Hnd Hb0 Hb1 Hcl Hch Hmine Hpr].
  assert (H1 : threads s !! 1
               = Some {| body := GoReadFromReader r1 h1; state := st1 |})
    by now rewrite Hth.
  destruct st1 as [|buf1|].
  - rewrite (thread_step_spawned 1 _ s H1 eq_refl). cbn [snd].
    exists (Looping (length (heap s))). split; [|reflexivity].
    apply (Inv_other s _ st0 Spawned _ chunks (length (heap s)) HI).
    + apply pass_with_thread, pass_spawn.
    + now apply args_fresh.
    + reflexivity.
    + cbn [with_thread with_heap threads]. rewrite H1, Hth. reflexivity.
    + split.
      * exists (replicate bufSize x00). split; [|apply length_replicate].
        cbn [with_thread with_heap heap]. now apply list_lookup_middle.
      * exact (args_fresh s Hargs).
  - rewrite (thread_step_looping 1 buf1 r1 h1 s H1). cbn [snd].
    destruct Hb1 as [(b1 & Hb1 & Hlen1) Hne1].
    destruct (pipe_pass 1 buf1 r1 h1 b1 s Hb1) as (Hp & Hfr & Hths & _).
    { rewrite Hlen1. unfold bufSize. lia. }
    destruct (readFromReader_iter os 1 buf1 r1 h1 s) as [brk s1].
    cbn [fst snd] in *.
    assert (Hok : buf_ok s1 (Looping buf1)).
    { eapply pass_buf_ok; [exact Hp|]. split; [eauto|exact Hne1]. }
    destruct brk.
    + exists Exited. split; [|now apply Hfr].
      apply (Inv_other s _ st0 (Looping buf1) Exited chunks buf1 HI).
      * apply pass_with_thread, Hp.
      * exact Hne1.
      * now apply Hfr.
      * cbn [with_thread threads]. rewrite Hths, H1, Hth. reflexivity.
      * exact I.
    + exists (Looping buf1). split; [|now apply Hfr].
      apply (Inv_other s _ st0 (Looping buf1) (Looping buf1) chunks buf1 HI).
      * exact Hp.
      * exact Hne1.
      * now apply Hfr.
      * congruence.
      * exact Hok.
  - rewrite (thread_step_exited 1 _ s H1 eq_refl). cbn [snd].
    exists Exited. split; [exact HI|reflexivity].
Qed.

Lemma after_read_stream r len h' c' s :
  streams (after_read r len h' c' s) r = snd (Reader_Read (streams s r) len).
Proof. cbn [after_read streams]. now rewrite Nat.eqb_refl. Qed.

Lemma Reader_Read_closing R len :
  closing (snd (Reader_Read R len)) = closing R.
Proof. unfold Reader_Read. now destruct (avail R). Qed.

Lemma reads_bound_less R len burst rest :
  0 < len -> avail R = burst :: rest ->
  reads_bound (snd (Reader_Read R len)) < reads_bound R.
Proof.
  intros Hlen Ha. unfold reads_bound, Reader_Read. rewrite Ha. simpl.
  rewrite length_app.
  destruct (drop len burst) as [|x d] eqn:Hd; simpl; [lia|].
  rewrite length_app.
  assert (length (x :: d) = length burst - len)
    by (rewrite <- Hd; apply length_drop).
  simpl in *. lia.
Qed.

Lemma Inv_step0 s st0 st1 chunks :
  Inv s st0 st1 chunks ->
  exists st0' chunks',
    Inv (snd (thread_step os 0 s)) st0' st1 chunks'
    /\ need (snd (thread_step os 0 s)) st0' <= need s st0 - 1.
Proof.
  intros HI. pose proof HI as [Hth Hargs Hnd Hb0 Hb1 Hcl Hch Hmine Hpr].
  assert (H0 : threads s !! 0
               = Some {| body := GoReadFromReader r0 (Some h); state := st0 |})
    by now rewrite Hth.
  destruct st0 as [|buf|].
  - (* the buffer is allocated *)
    rewrite (thread_step_spawned 0 _ s H0 eq_refl). cbn [snd].
    destruct Hpr as [-> Hav].
    exists (Looping (length (heap s))), []. split; [|cbn; lia].
    apply (Inv_self s _ Spawned _ st1 [] [] (length (heap s)) HI).
    + apply pass_with_thread, pass_spawn.
    + cbn [with_thread with_heap threads]. rewrite H0, Hth. reflexivity.
    + split.
      * exists (replicate bufSize x00). split; [|apply length_replicate].
        cbn [with_thread with_heap heap]. now apply list_lookup_middle.
      * exact (args_fresh s Hargs).
    + exact Hcl.
    + constructor.
    + transitivity (delivered_by 0 s); [|exact Hmine]. unfold delivered_by.
      cbn [with_thread with_heap heap calls].
      apply map_ext_in. intros c Hin. apply filter_In in Hin as [Hin _].
      rewrite List.Forall_forall in Hargs. specialize (Hargs c Hin).
      simpl in Hargs. now rewrite lookup_app_l by lia.
    + cbn. now rewrite Hav.
  - (* one pass through the loop *)
    rewrite (thread_step_looping 0 buf r0 (Some h) s H0). cbn [snd].
    destruct Hb0 as [(b & Hb & Hlen) Hne].
    assert (Hpos : 0 < length b) by (rewrite Hlen; unfold bufSize; lia).
    destruct (pipe_pass 0 buf r0 (Some h) b s Hb Hpos) as (Hp & _ & _ & _).
    assert (Hlt : buf < length (heap s)) by (eapply lookup_lt_Some; eauto).
    destruct (avail (streams s r0)) as [|burst rest] eqn:Ha.
    + (* the stream is closed: the loop is left *)
      rewrite (readFromReader_iter_leaves 0 buf r0 (Some h) b s Hb Ha) in *.
      cbn [fst snd] in *.
      exists Exited, chunks. split; [|cbn; lia].
      assert (HR : snd (Reader_Read (streams s r0) (length b)) = streams s r0)
        by (unfold Reader_Read; now rewrite Ha).
      eapply (Inv_self s _ (Looping buf) Exited st1 chunks chunks buf HI).
      * apply pass_with_thread, Hp.
      * cbn [with_thread after_read threads]. rewrite H0, Hth. reflexivity.
      * exact I.
      * change (closing (streams (after_read r0 (length b)
                  (heap s ++ diag_heap os (Some h) (closing (streams s r0)))
                  (calls s ++ diag_calls os 0 (Some h)
                     (closing (streams s r0)) (length (heap s))) s) r0)
                = closing R0).
        rewrite after_read_stream, HR. exact Hcl.
      * exact Hch.
      * erewrite (delivered_by_app 0 s _ _ buf b);
          [| cbn [with_thread after_read heap];
             rewrite list_insert_id by exact Hb; reflexivity
           | reflexivity | exact Hargs | exact Hne ].
        rewrite Hmine, Hcl. cbn [with_thread after_read heap diag_heap diag_calls reported].
        rewrite app_nil_r, (map_app _ chunks). f_equal.
        rewrite filter_mine, map_map. cbn [call fn arg].
        rewrite <- (lookup_seq_app (diagnostic os (closing R0)) (heap s)) at 2.
        now rewrite map_map.
      * cbn [drained_so_far] in Hpr. rewrite Ha in Hpr.
        cbn [concat] in Hpr. rewrite app_nil_r in Hpr. exact Hpr.
    + destruct (decide (take (length b) burst = [])) as [He|Hnil].
      * (* an empty read *)
        assert (burst = []) as ->.
        { destruct burst; [reflexivity|].
          destruct b; simpl in *; [lia|discriminate]. }
        rewrite (readFromReader_iter_idles 0 buf r0 (Some h) b rest s Hb Ha) in *.
        cbn [fst snd] in *.
        exists (Looping buf), chunks.
        assert (HR : avail (snd (Reader_Read (streams s r0) (length b))) = rest).
        { unfold Reader_Read. rewrite Ha. cbn. now rewrite drop_nil. }
        split.
        -- eapply (Inv_self s _ (Looping buf) (Looping buf) st1 chunks chunks
                     buf HI).
           ++ exact Hp.
           ++ exact Hth.
           ++ split; [eauto|exact Hne].
           ++ rewrite after_read_stream, Reader_Read_closing. exact Hcl.
           ++ exact Hch.
           ++ exact Hmine.
           ++ cbn [drained_so_far] in *. rewrite after_read_stream, HR.
              rewrite Ha in Hpr. exact Hpr.
        -- cbn [steps_needed]. rewrite after_read_stream.
           pose proof (reads_bound_less (streams s r0) (length b) [] rest
                         Hpos Ha). lia.
      * (* a chunk is delivered *)
        rewrite (readFromReader_iter_reads 0 buf r0 (Some h) b burst rest s
                   Hb Ha Hnil) in *.
        cbn [fst snd] in *.
        set (chunk := take (length b) burst) in *.
        exists (Looping buf), (chunks ++ [chunk]).
        split.
        -- eapply (Inv_self s _ (Looping buf) (Looping buf) st1 chunks
                     (chunks ++ [chunk]) buf HI).
           ++ exact Hp.
           ++ exact Hth.
           ++ eapply pass_buf_ok; [exact Hp|]. split; [eauto|exact Hne].
           ++ rewrite after_read_stream, Reader_Read_closing. exact Hcl.
           ++ apply Forall_app. split; [exact Hch|]. constructor; [|constructor].
              split; [destruct chunk; [congruence|simpl; lia]|].
              subst chunk. rewrite length_take, <- Hlen. lia.
           ++ erewrite (delivered_by_app 0 s _ _ buf);
                [| reflexivity | reflexivity | exact Hargs | exact Hne ].
              rewrite Hmine. cbn [reported call_slot List.filter call by_thread].
              cbn [Nat.eqb map fn arg after_read heap].
              rewrite !app_nil_r, map_app. f_equal. cbn [map].
              rewrite list_lookup_middle by (now rewrite length_insert).
              reflexivity.
           ++ cbn [drained_so_far] in *. rewrite after_read_stream.
              rewrite <- Hpr, concat_app. cbn [concat].
              rewrite app_nil_r, <- app_assoc. f_equal.
              unfold Reader_Read. rewrite Ha. cbn [snd avail].
              subst chunk.
              destruct (drop (length b) burst) as [|x d] eqn:Hd; cbn [concat].
              ** rewrite <- (take_drop (length b) burst) at 2.
                 now rewrite Hd, app_nil_r.
              ** rewrite <- (take_drop (length b) burst) at 2.
                 now rewrite Hd, <- app_assoc.
        -- cbn [steps_needed]. rewrite after_read_stream.
           pose proof (reads_bound_less (streams s r0) (length b) burst rest
                         Hpos Ha). lia.
  - (* the loop was left before *)
    rewrite (thread_step_exited 0 _ s H0 eq_refl). cbn [snd].
    exists Exited, chunks. split; [exact HI|cbn; lia].
Qed.

(** The caller's operations other than the two starts touch neither the
    heap, nor a stream, nor a goroutine, nor the invocations. *)
Lemma Inv_frame s s' st0 st1 chunks :
  threads s' = threads s -> heap s' = heap s -> calls s' = calls s ->
  streams s' r0 = streams s r0 ->
  Inv s st0 st1 chunks ->
  Inv s' st0 st1 chunks /\ need s' st0 = need s st0.
Proof.
  intros Ht Hh Hc Hs [Hth Hargs Hnd Hb0 Hb1 Hcl Hch Hmine Hpr].
  split.
  - constructor; unfold buf_ok, delivered_by, drained_so_far in *;
      rewrite ?Ht, ?Hh, ?Hc, ?Hs; auto.
  - unfold steps_needed. now rewrite Hs.
Qed.

Lemma Inv_exec e s st0 st1 chunks :
  starts e = false -> e <> CallWait ->
  ~ In (SysClose r0) (closes (pm s)) ->
  Inv s st0 st1 chunks ->
  exists st0' st1' chunks',
    Inv (snd (exec os e s)) st0' st1' chunks'
    /\ need (snd (exec os e s)) st0'
       <= need s st0 - (if is_step 0 e then 1 else 0).
Proof.
  intros Hs Hw Hopen HI.
  assert (Hcase : (exists tid, e = Step tid) \/ (forall tid, e <> Step tid))
    by (destruct e; solve [left; eexists; reflexivity
                          | right; intros; discriminate]).
  destruct Hcase as [[tid ->]|Hcaller].
  - cbn [exec is_step]. destruct tid as [|[|tid]].
    + destruct (Inv_step0 s st0 st1 chunks HI) as (st0' & chunks' & HI' & Hn).
      exists st0', st1, chunks'. split; [exact HI'|exact Hn].
    + destruct (Inv_step1 s st0 st1 chunks HI) as (st1' & HI' & Hst).
      exists st0, st1', chunks. split; [exact HI'|].
      cbn [Nat.eqb]. unfold steps_needed. rewrite Hst. lia.
    + rewrite thread_step_none by (now rewrite (inv_threads _ _ _ _ _ _ _ _ _ _ HI)).
      exists st0, st1, chunks. split; [exact HI|]. cbn. lia.
  - destruct (caller_frame e s Hs Hcaller) as (Ht & Hh & Hc & _ & Hst).
    destruct (Inv_frame s _ st0 st1 chunks Ht Hh Hc
                (Hst r0 (fun _ => Hopen) (fun He => False_ind _ (Hw He))) HI)
      as [HI' Hn].
    exists st0, st1, chunks. split; [exact HI'|].
    rewrite Hn. destruct e; cbn; try lia. now elim (Hcaller tid).
Qed.

Lemma Inv_run es :
  forall s st0 st1 chunks,
    Forall (fun e => starts e = false /\ e <> CallWait) es ->
    ~ In (SysClose r0) (closes (pm s)) ->
    Inv s st0 st1 chunks ->
    exists st0' st1' chunks',
      Inv (snd (run os es s)) st0' st1' chunks'
      /\ need (snd (run os es s)) st0' <= need s st0 - steps_of 0 es.
Proof.
  induction es as [|e es IH]; intros s st0 st1 chunks Hes Hopen HI.
  - exists st0, st1, chunks. split; [exact HI|]. cbn. lia.
  - inversion Hes as [|? ? [He Hw] Hes']; subst.
    destruct (Inv_exec e s st0 st1 chunks He Hw Hopen HI)
      as (st0a & st1a & chunksa & HIa & Hna).
    assert (Hopen' : ~ In (SysClose r0) (closes (pm (snd (exec os e s)))))
      by now rewrite (caller_closes e s He).
    destruct (IH _ st0a st1a chunksa Hes' Hopen' HIa)
      as (st0' & st1' & chunks' & HI' & Hn').
    exists st0', st1', chunks'.
    assert (Hrun : snd (run os (e :: es) s) = snd (run os es (snd (exec os e s)))).
    { cbn [run]. unfold bind. now destruct (exec os e s). }
    rewrite Hrun. split; [exact HI'|].
    unfold steps_of in *. cbn [List.filter].
    destruct (is_step 0 e); cbn [length]; lia.
Qed.

End Draining.

(** X14: in pipe mode, when an output handler is registered before the
    start and as long as [Wait] has not been called, however the caller's
    other operations and the steps of the two drain loops are interleaved,
    what the stdout loop has handed to that handler is at every moment a
    list of chunks of 1 to 4096 bytes whose concatenation is a prefix of
    the bytes of stdout, in order, nothing twice and nothing skipped; once
    the loop has had enough steps to reach the close of the stream it has
    returned and the chunks are the whole stream.  Every chunk is an array
    of its own: no two invocations share an array and no array handed to a
    handler is the read buffer of a running loop.  [Stop] closes the PTY
    master and the stdin pipe, not the stdout pipe, so it does not end the
    delivery. *)
Theorem stdout_delivered_in_order (p : ProcessManager) (st : File -> Reader)
    (h : Handler) (es : list Event) :
  onOutput p = Some h ->
  pty p = None ->
  fst (StartWithPipes os (boot p st)) = None ->
  Forall (fun e => starts e = false /\ e <> CallWait) es ->
  exists stdin stdout stderr,
    stdinPipe (pm (snd (StartWithPipes os (boot p st)))) = Some stdin
    /\ threads (snd (StartWithPipes os (boot p st)))
       = [ {| body := GoReadFromReader stdout (Some h); state := Spawned |};
           {| body := GoReadFromReader stderr (onError p); state := Spawned |} ]
    /\ (stdout <> stderr ->
        stdout <> stdin ->
        closing (st stdout) = EOF ->
        let s' := snd (run os es (snd (StartWithPipes os (boot p st)))) in
        exists chunks rest,
          delivered_by 0 s' = map (fun c => (h, c)) chunks
          /\ Forall (fun c => 0 < length c <= 4096) chunks
          /\ concat chunks ++ rest = concat (avail (st stdout))
          /\ NoDup (map arg (calls s'))
          /\ (forall th buf,
                In th (threads s') -> state th = Looping buf ->
                Forall (fun c => arg c <> buf) (calls s'))
          /\ (reads_bound (st stdout) + 2 <= steps_of 0 es ->
              rest = []
              /\ threads s' !! 0
                 = Some {| body := GoReadFromReader stdout (Some h);
                           state := Exited |})).
Proof.
  intros Hh Hp Hok Hes. revert Hok. case_pipes; cbn [fst snd]; try discriminate.
  intros _. unfold after, boot. cbn [threads map app onOutput onError pm].
  rewrite Hh. eexists _, _, _. split; [reflexivity|]. split; [reflexivity|].
  intros Hne Hni Hclose. cbv zeta.
  match goal with
  | |- context [run os es ?s1] => set (s := s1)
  end.
  match type of Hne with
  | ?a <> ?b => pose (r0 := a); pose (r1 := b)
  end.
  assert (HI : draining os r0 r1 h (onError p) (st r0) s Spawned Spawned []).
  { subst s. constructor; cbn; auto; constructor. }
  assert (Hopen : ~ In (SysClose r0) (closes (pm s))).
  { subst s. unfold closes. cbn. rewrite Hp. cbn. intros [Hc|[]].
    inversion Hc. subst r0. congruence. }
  destruct (Inv_run r0 r1 h (onError p) (st r0) Hne es s Spawned Spawned []
              Hes Hopen HI) as (st0 & st1 & chunks & HI' & Hneed).
  destruct HI' as [Hth Hargs Hnd Hb0 Hb1 Hcl Hch Hmine Hpr].
  assert (Hrep : reported os (st r0) st0 = [])
    by (unfold reported, diagnostic; subst r0; rewrite Hclose; now destruct st0).
  rewrite Hrep, app_nil_r in Hmine.
  exists chunks,
    (match st0 with
     | Exited => []
     | _ => concat (avail (streams (snd (run os es s)) r0))
     end).
  split; [exact Hmine|]. split; [exact Hch|]. split.
  { destruct st0; cbn [drained_so_far] in Hpr.
    - destruct Hpr as [-> Hav]. cbn. now rewrite Hav.
    - exact Hpr.
    - now rewrite app_nil_r. }
  split; [exact Hnd|]. split.
  { intros th buf Hin Hst. rewrite Hth in Hin.
    destruct Hin as [<-|[<-|[]]]; cbn [state] in Hst; subst.
    - exact (proj2 Hb0).
    - exact (proj2 Hb1). }
  intros Hsteps.
  assert (Hz : steps_needed r0 (snd (run os es s)) st0 = 0).
  { revert Hneed. subst s. cbn [steps_needed streams]. subst r0. lia. }
  destruct st0; cbn [steps_needed] in Hz; try lia.
  split; [reflexivity|]. now rewrite Hth.
Qed.

(** ** The drain loop of the PTY *)

Lemma deliver_current_spec tid buf chunk tl s :
  heap s !! buf = Some (chunk ++ tl) ->
  (let* data := make (length chunk) in
   let* b := load buf in
   copy data (take (length chunk) b);;
   let* handler := gets (fun s => onOutput (pm s)) in
   match handler with
   | Some h => invoke tid h data
   | None => ret tt
   end) s
  = (tt, {| pm := pm s; trace := trace s; streams := streams s;
            heap := heap s ++ [chunk]; threads := threads s;
            calls := calls s
                     ++ call_slot tid (onOutput (pm s)) (length (heap s));
     pipes := pipes s |}).
Proof.
  intros Hb.
  assert (Hlt : buf < length (heap s)) by (eapply lookup_lt_Some; eauto).
  unfold make, copy, load, invoke, bind, gets, set_heap, modify, ret. simpl.
  rewrite list_lookup_middle by reflexivity. simpl.
  rewrite lookup_app_l by lia. rewrite Hb. simpl.
  rewrite take_app_length, length_replicate, Nat.min_id, firstn_all.
  rewrite drop_replicate, Nat.sub_diag. simpl. rewrite app_nil_r.
  rewrite insert_app_r_alt by lia. rewrite Nat.sub_diag. simpl.
  destruct (onOutput (pm s)); simpl; rewrite ?app_nil_r; reflexivity.
Qed.

(** A pass of the PTY loop that reads bytes hands them to the value the
    output slot holds during that pass. *)
Lemma readOutput_iter_data tid buf f b burst rest s :
  pty (pm s) = Some f ->
  heap s !! buf = Some b ->
  avail (streams s f) = burst :: rest ->
  take (length b) burst <> [] ->
  exists s',
    readOutput_iter os tid buf s = (false, s')
    /\ pm s' = pm s
    /\ trace s' = trace s ++ [SysRead f]
    /\ avail (streams s' f)
       = match drop (length b) burst with [] => rest | b' => b' :: rest end
    /\ closing (streams s' f) = closing (streams s f)
    /\ heap s'
       = <[buf := take (length b) burst
                  ++ drop (length (take (length b) burst)) b]> (heap s)
         ++ [take (length b) burst]
    /\ threads s' = threads s
    /\ calls s'
       = calls s ++ call_slot tid (onOutput (pm s)) (length (heap s)).
Proof.
  intros Hp Hb Ha Hne.
  destruct (File_Read_data f buf b burst rest s Hb Ha)
    as (s1 & HR & Hpm & Htr & Hav & Hcl & Hh & Hth & Hca).
  unfold readOutput_iter. unfold bind at 1, gets at 1. rewrite Hp.
  unfold bind at 1. rewrite HR. simpl fst. simpl snd.
  assert (Hpos : (0 <? length (take (length b) burst)) = true).
  { apply Nat.ltb_lt. destruct (take (length b) burst); [congruence|simpl; lia]. }
  rewrite Hpos. unfold bind at 1.
  erewrite deliver_current_spec.
  2:{ rewrite Hh. apply list_lookup_insert_eq. eapply lookup_lt_Some; eauto. }
  unfold ret. eexists; split; [reflexivity|]. simpl.
  rewrite Hh, length_insert, Hca, Hpm.
  repeat split; assumption.
Qed.

(** The pass of the PTY loop that finds the stream closed leaves the
    loop; [io.EOF] and [EIO] are not reported, any other error is handed
    once to the value the error slot holds during that pass. *)
Lemma readOutput_iter_closed tid buf f b s :
  pty (pm s) = Some f ->
  heap s !! buf = Some b ->
  avail (streams s f) = [] ->
  exists s',
    readOutput_iter os tid buf s = (true, s')
    /\ pm s' = pm s
    /\ trace s' = trace s ++ [SysRead f]
    /\ streams s' f = streams s f
    /\ threads s' = threads s
    /\ match onError (pm s) with
       | Some h =>
           heap s' = heap s ++ pty_diagnostic os (closing (streams s f))
           /\ calls s'
              = calls s
                ++ map (call tid h)
                     (seq (length (heap s))
                        (length (pty_diagnostic os (closing (streams s f)))))
       | None => heap s' = heap s /\ calls s' = calls s
       end.
Proof.
  intros Hp Hb Ha.
  destruct (File_Read_closed f buf b s Hb Ha)
    as (s1 & HR & Hpm & Htr & Hst & Hh & Hth & Hca).
  unfold readOutput_iter. unfold bind at 1, gets at 1. rewrite Hp.
  unfold bind at 1. rewrite HR. simpl.
  unfold bind at 1, ret at 1. unfold bind at 1, gets at 1. rewrite Hpm.
  unfold pty_diagnostic.
  destruct (onError (pm s)) as [h|].
  - destruct (negb (bool_decide (closing (streams s f) = EOF))
              && negb (errors_Is (closing (streams s f)) EIO)); simpl.
    + unfold bind, ret, bytes_of, invoke, gets, set_heap, modify. simpl.
      eexists; split; [reflexivity|]. simpl. rewrite Hh, Hca.
      repeat split; assumption.
    + unfold bind, ret. simpl. eexists; split; [reflexivity|].
      rewrite !app_nil_r. repeat split; assumption.
  - unfold bind, ret. simpl. eexists; split; [reflexivity|].
    repeat split; assumption.
Qed.

End Properties.

(** * Runs of the model *)

Section Runs.

(** C1: in pipe mode the handler is an argument of the goroutine, fixed
    when [StartWithPipes] launches it.  After the caller has replaced
    handler 1 by handler 2 the output slot holds 2, yet the next chunk of
    stdout is still handed to handler 1; the PTY loop, which reads the slot
    on every pass, hands the same chunk to handler 2. *)
Theorem pipe_loop_keeps_first_handler :
  let s := snd (run linux swap_with_pipes created) in
  let t := snd (run linux swap_with_pty created) in
  onOutput (pm s) = Some 2
  /\ delivered s = [(0, 1, [x61; x62])]
  /\ delivered (snd (thread_step linux 0 s))
     = [(0, 1, [x61; x62]); (0, 1, [x63])]
  /\ onOutput (pm t) = Some 2
  /\ delivered t = [(0, 1, [x61; x62])]
  /\ delivered (snd (thread_step linux 0 t))
     = [(0, 1, [x61; x62]); (0, 2, [x63])].
Proof. vm_compute. repeat split. Qed.

(** C4: in pipe mode a read error on stdout is handed to the handler of
    the loop, which is the output handler: error handler 2 is registered
    and never invoked.  The PTY loop hands the same error to handler 2. *)
Theorem stdout_read_error_goes_to_output_handler :
  let s := snd (run linux drain_with_pipes (boot (New linux "cat" []) closed_early)) in
  let t := snd (run linux drain_with_pty (boot (New linux "cat" []) closed_early)) in
  onError (pm s) = Some 2
  /\ delivered s
     = [(0, 1, [x61; x62]);
        (0, 1, list_byte_of_string
                 ("[Read Error]: read |0: file already closed" +:+ LF))]
  /\ threads s !! 0
     = Some {| body := GoReadFromReader 5 (Some 1); state := Exited |}
  /\ delivered t
     = [(0, 1, [x61; x62]);
        (0, 2, list_byte_of_string
                 (LF +:+ "[Read Error]: read |0: file already closed" +:+ LF))].
Proof. vm_compute. repeat split. Qed.

(** C5: a manager is started in pipe mode before an output handler is
    registered.  The handler registered right after the start is in the
    output slot, the stdout loop reads the stream "ab", "c" to its end and
    returns, and no handler was invoked: every byte of stdout is dropped.
    The PTY loop, which reads the slot on every pass, hands both chunks to
    that handler. *)
Theorem stdout_dropped_when_handler_is_set_after_start :
  let s := snd (run linux late_with_pipes created) in
  let t := snd (run linux late_with_pty created) in
  onOutput (pm s) = Some 1
  /\ threads s !! 0
     = Some {| body := GoReadFromReader 5 None; state := Exited |}
  /\ avail (streams s 5) = []
  /\ trace s
     = [SysStdinPipe; SysStdoutPipe; SysStderrPipe; SysStart (cmd (pm created));
        SysRead 5; SysRead 5; SysRead 5]
  /\ delivered s = []
  /\ onOutput (pm t) = Some 1
  /\ delivered t = [(0, 1, [x61; x62]); (0, 1, [x63])].
Proof. vm_compute. repeat split. Qed.

(** The interleaved run above, evaluated: handler 1, registered at the
    start, receives "ab" and "c" although handler 2 was registered before
    "c" was read. *)
Example interleaved_run_delivers :
  delivered_by 0
    (snd (run linux drain_interleaved
            (snd (StartWithPipes linux
                    (boot (with_onOutput (Some 1) (New linux "cat" []))
                       two_chunks)))))
  = [(1, [x61; x62]); (1, [x63])].
Proof. vm_compute. reflexivity. Qed.

(** C2 fails as stated: after [StartWithPTY] and [Stop] the PTY field is
    still set, so [Write] reaches the closed file and returns that write's
    error, not [NoInputAvailable]. *)
Lemma Write_after_Stop_reaches_closed_file :
  let s := snd (Stop linux started_with_pty) in
  pty (pm s) = Some 3
  /\ fst (Write linux [x61] s)
     = (0%Z, Some (PathError "write" "file" ErrClosed))
  /\ snd (fst (Write linux [x61] s)) <> Some NoInputAvailable
  /\ trace (snd (Write linux [x61] s)) = trace s ++ [SysWrite 3 [x61]].
Proof. vm_compute. repeat split. discriminate. Qed.

(** C3 fails as stated: when the stdout pipe cannot be created the start
    fails, but the stdin pipe (file 4) is already bound and is not closed,
    and a [Write] goes through to it. *)
Lemma StartWithPipes_failure_keeps_stdin_pipe :
  fst (StartWithPipes no_stdout_pipe
         (boot (New no_stdout_pipe "cat" []) two_chunks))
  = Some (Errorf_w no_stdout_pipe "create stdout pipe: " (Errno 24))
  /\ stdinPipe (pm stdout_failed) = Some 4
  /\ stdinPipe (pm stdout_failed) <> None
  /\ fst (Write no_stdout_pipe [x61] stdout_failed) = (1%Z, None)
  /\ snd (fst (Write no_stdout_pipe [x61] stdout_failed))
     <> Some NoInputAvailable
  /\ ~ In (SysClose 4) (trace stdout_failed).
Proof.
  vm_compute. repeat split; try discriminate.
  intros [H|[H|[]]]; discriminate.
Qed.

(** The sink selection of [Write], on a manager started with a PTY and
    stopped. *)
Lemma Write_sink_selection_witness :
  pty (pm started_with_pty) = Some 3
  /\ Write linux [x61] (snd (Stop linux started_with_pty))
     = (file_Write linux (trace (snd (Stop linux started_with_pty))) 3 [x61],
        issued (SysWrite 3 [x61]) (snd (Stop linux started_with_pty))).
Proof.
  split; [reflexivity|].
  exact (proj2 (proj1 (proj2 (proj2
           (Write_sink_selection linux [x61] started_with_pty)))
           3 eq_refl)).
Defined.

(** A failed start in pipe mode: the stdout pipe cannot be created. *)
Lemma StartWithPipes_failure_witness :
  let os := no_stdout_pipe in
  let s := boot (New os "cat" []) two_chunks in
  let e := Errorf_w os "create stdout pipe: " (Errno 24) in
  let s1 := snd (StartWithPipes os s) in
  fst (StartWithPipes os s) = Some e
  /\ TransportError os e
  /\ (exists cause,
        first_failure os s = Some cause
        /\ e = Errorf_w os (fst cause) (snd cause)
        /\ Unwrap e = Some (snd cause)
        /\ errors_Is e (snd cause) = true
        /\ Error os e = fst cause +:+ Error os (snd cause))
  /\ running (pm s1) = running (pm s)
  /\ pty (pm s1) = pty (pm s)
  /\ threads s1 = threads s
  /\ calls s1 = calls s
  /\ (exists t, trace s1 = trace s ++ t
                /\ Forall (fun c => forall f, c <> SysClose f) t)
  /\ match cmd_StdinPipe os (trace s) with
     | inr _ =>
         stdinPipe (pm s1) = stdinPipe (pm s)
         /\ (pty (pm s) = None -> stdinPipe (pm s) = None ->
             Write os [x61] s1 = ((0%Z, Some NoInputAvailable), s1))
     | inl stdin =>
         stdinPipe (pm s1) = Some stdin
         /\ (pty (pm s) = None ->
             Write os [x61] s1
             = (file_Write os (trace s1) stdin [x61],
                issued (SysWrite stdin [x61]) s1))
     end.
Proof.
  cbv zeta. split; [reflexivity|].
  exact (StartWithPipes_failure no_stdout_pipe
           (boot (New no_stdout_pipe "cat" []) two_chunks)
           (Errorf_w no_stdout_pipe "create stdout pipe: " (Errno 24))
           [x61] eq_refl).
Defined.

(** [Wait] on a manager started with a PTY. *)
Lemma Wait_leaves_running_witness :
  fst (StartWithPTY linux created) = None
  /\ fst (IsRunning (snd (StartWithPTY linux created))) = true
  /\ fst (IsRunning (snd (Wait linux (snd (StartWithPTY linux created)))))
     = true.
Proof.
  split; [reflexivity|].
  exact (proj1 (proj2 (proj2 (proj2 (proj2
           (Wait_leaves_running linux created))))) eq_refl).
Defined.

(** [SetWindowSize] on a manager started with pipes. *)
Lemma SetWindowSize_needs_pty_witness :
  pty (pm started_with_pipes) = None
  /\ SetWindowSize linux 24 80 started_with_pipes
     = (Some NoPTYSession, started_with_pipes).
Proof.
  split; [reflexivity|].
  exact (proj1 (SetWindowSize_needs_pty linux 24 80 started_with_pipes)
           eq_refl).
Defined.

End Runs.

(** * The rest of the manager, and the command-line tool *)

Section Behaviour.

Variable os : OS.

(** ** Steps of a goroutine and the rest of the system *)

Lemma keeps_ret {A B} (f : System -> B) (a : A) : keeps f (ret a).
Proof. now intros s. Qed.

Lemma keeps_bind {A B C} (f : System -> C) (m : M A) (k : A -> M B) :
  keeps f m -> (forall a, keeps f (k a)) -> keeps f (bind m k).
Proof.
  intros Hm Hk s. unfold bind. specialize (Hm s).
  destruct (m s) as [a s']. cbn [snd] in *. now rewrite Hk.
Qed.

Lemma keeps_gets {A B} (f : System -> B) (g : System -> A) : keeps f (gets g).
Proof. now intros s. Qed.

Lemma keeps_pipes_sys c : keeps pipes (sys c).
Proof. now intros s. Qed.

Lemma keeps_pipes_set_heap f : keeps pipes (set_heap f).
Proof. now intros s. Qed.

Lemma keeps_pipes_invoke tid h a : keeps pipes (invoke tid h a).
Proof. now intros s. Qed.

Lemma keeps_pipes_set_stream f r : keeps pipes (set_stream f r).
Proof. now intros s. Qed.

Lemma keeps_pipes_set_thread tid st : keeps pipes (set_thread tid st).
Proof. now intros s. Qed.

Create HintDb kept.

#[local] Hint Resolve keeps_ret keeps_gets keeps_pipes_sys keeps_pipes_set_heap
  keeps_pipes_invoke keeps_pipes_set_stream keeps_pipes_set_thread : kept.

Ltac kept :=
  repeat first
    [ progress auto with kept
    | apply keeps_bind; [|intros ?]
    | match goal with
      | |- keeps _ (match ?x with _ => _ end) => destruct x
      | |- keeps _ (if ?x then _ else _) => destruct x
      end ].

Lemma keeps_pipes_thread_step tid : keeps pipes (thread_step os tid).
Proof.
  unfold thread_step, readOutput_iter, readFromReader_iter, File_Read, make,
    copy, load, bytes_of.
  kept.
Qed.

(** A read leaves the name of every file and the error it closes with as
    they were, and a file with nothing left to read stays so. *)
Lemma Reader_Read_fname R len : fname (snd (Reader_Read R len)) = fname R.
Proof. unfold Reader_Read. now destruct (avail R). Qed.

(** ** The PTY loop, pass by pass *)


Lemma reads_bound_drops R len burst rest :
  0 < len -> avail R = burst :: rest ->
  reads_bound (snd (Reader_Read R len)) < reads_bound R.
Proof. exact (reads_bound_less 0 1 (O_S 0) R len burst rest). Qed.


Lemma readOutput_iter_reads tid buf f b burst rest s :
  pty (pm s) = Some f ->
  heap s !! buf = Some b ->
  avail (streams s f) = burst :: rest ->
  take (length b) burst <> [] ->
  readOutput_iter os tid buf s
  = (false,
     after_read f (length b)
       (<[buf := take (length b) burst
                 ++ drop (length (take (length b) burst)) b]> (heap s)
        ++ [take (length b) burst])
       (calls s ++ call_slot tid (onOutput (pm s)) (length (heap s))) s).
Proof.
  intros Hp Hb Ha Hne.
  assert (Hlt : buf < length (heap s)) by (eapply lookup_lt_Some; eauto).
  unfold readOutput_iter. unfold bind at 1, gets at 1. rewrite Hp.
  unfold bind at 1.
  rewrite (File_Read_explicit f buf b s Hb). cbv zeta.
  assert (Hd : fst (fst (Reader_Read (streams s f) (length b)))
               = take (length b) burst)
    by (unfold Reader_Read; now rewrite Ha).
  assert (He : snd (fst (Reader_Read (streams s f) (length b))) = None)
    by (unfold Reader_Read; now rewrite Ha).
  rewrite Hd, He. cbn [fst snd].
  assert (Hpos : (0 <? length (take (length b) burst)) = true).
  { apply Nat.ltb_lt. destruct (take (length b) burst); [congruence|simpl; lia]. }
  rewrite Hpos.
  set (chunk := take (length b) burst).
  unfold make, copy, load, invoke, bind, gets, set_heap, modify, ret, after_read.
  simpl.
  rewrite list_lookup_middle by (now rewrite length_insert). simpl.
  rewrite lookup_app_l by (rewrite length_insert; lia).
  rewrite list_lookup_insert_eq by lia. simpl.
  rewrite take_app_length, length_replicate, Nat.min_id, firstn_all.
  rewrite drop_replicate, Nat.sub_diag. simpl. rewrite app_nil_r.
  rewrite insert_app_r_alt by (rewrite length_insert; lia).
  rewrite !length_insert, Nat.sub_diag. simpl.
  destruct (onOutput (pm s)); simpl; rewrite ?app_nil_r; reflexivity.
Qed.


Lemma readOutput_iter_leaves tid buf f b s :
  pty (pm s) = Some f ->
  heap s !! buf = Some b ->
  avail (streams s f) = [] ->
  readOutput_iter os tid buf s
  = (true,
     after_read f (length b)
       (heap s ++ pty_diag_heap os (onError (pm s)) (closing (streams s f)))
       (calls s
        ++ pty_diag_calls os tid (onError (pm s)) (closing (streams s f))
             (length (heap s)))
       s).
Proof.
  intros Hp Hb Ha.
  unfold readOutput_iter. unfold bind at 1, gets at 1. rewrite Hp.
  unfold bind at 1.
  rewrite (File_Read_explicit f buf b s Hb). cbv zeta.
  assert (Hd : fst (fst (Reader_Read (streams s f) (length b))) = [])
    by (unfold Reader_Read; now rewrite Ha).
  assert (He : snd (fst (Reader_Read (streams s f) (length b)))
               = Some (closing (streams s f)))
    by (unfold Reader_Read; now rewrite Ha).
  rewrite Hd, He. cbn [fst snd length Nat.ltb Nat.leb app].
  rewrite drop_0, list_insert_id by assumption.
  unfold pty_diag_heap, pty_diag_calls, pty_diagnostic.
  unfold bind at 1, ret at 1. unfold bind at 1, gets at 1.
  cbn [after_read pm].
  destruct (onError (pm s)) as [h|].
  - destruct (negb (bool_decide (closing (streams s f) = EOF))
              && negb (errors_Is (closing (streams s f)) EIO)).
    + reflexivity.
    + unfold bind, ret, after_read. cbn. now rewrite !app_nil_r.
  - unfold bind, ret, after_read. cbn. now rewrite !app_nil_r.
Qed.



Lemma thread_step_looping_pty tid buf s :
  threads s !! tid = Some {| body := GoReadOutput; state := Looping buf |} ->
  thread_step os tid s
  = (tt,
     let rs := readOutput_iter os tid buf s in
     if fst rs then with_thread tid Exited (snd rs) else snd rs).
Proof.
  intros Hth. unfold thread_step, bind, gets. rewrite Hth. simpl.
  destruct (readOutput_iter os tid buf s) as [[] s']; reflexivity.
Qed.

Section PtyDraining.

Variables (f : File) (H : list Handler) (R0 : Reader).
Hypothesis Hquiet : pty_diagnostic os (closing R0) = [].






End PtyDraining.


Lemma string_app_assoc (a b c : string) : (a +:+ b) +:+ c = a +:+ (b +:+ c).
Proof.
  induction a as [|x a IH]; [reflexivity|].
  change (String x ((a +:+ b) +:+ c) = String x (a +:+ (b +:+ c))).
  now f_equal.
Qed.


Lemma keeps_fname_File_Read (g : File) (fd : option File) (buf : nat) :
  keeps (fun s => fname (streams s g)) (File_Read fd buf).
Proof.
  intros s. unfold File_Read. destruct fd as [fd|]; [|reflexivity].
  pose proof (Reader_Read_fname (streams s fd)
                (length (default [] (heap s !! buf)))) as HR.
  unfold copy, load, bind, gets, sys, set_heap, set_stream, modify, ret.
  simpl.
  destruct (Reader_Read (streams s fd) (length (default [] (heap s !! buf))))
    as [[data err] r']. simpl in *.
  destruct (Nat.eqb_spec g fd); [now subst|reflexivity].
Qed.

Lemma keeps_fname_sys_read (g f : File) :
  keeps (fun s => fname (streams s g)) (sys (SysRead f)).
Proof. now intros s. Qed.

Lemma keeps_fname_set_heap (g : File) f :
  keeps (fun s => fname (streams s g)) (set_heap f).
Proof. now intros s. Qed.

Lemma keeps_fname_invoke (g : File) tid h a :
  keeps (fun s => fname (streams s g)) (invoke tid h a).
Proof. now intros s. Qed.

Lemma keeps_fname_set_thread (g : File) tid st :
  keeps (fun s => fname (streams s g)) (set_thread tid st).
Proof. now intros s. Qed.

#[local] Hint Resolve keeps_fname_File_Read keeps_fname_sys_read
  keeps_fname_set_heap keeps_fname_invoke keeps_fname_set_thread : kept.

Lemma keeps_fname_thread_step (g : File) tid :
  keeps (fun s => fname (streams s g)) (thread_step os tid).
Proof.
  unfold thread_step, readOutput_iter, readFromReader_iter, make, copy, load,
    bytes_of.
  kept.
Qed.

Lemma fname_close_files fs st g : fname (close_files fs st g) = fname (st g).
Proof. unfold close_files. now destruct (existsb (Nat.eqb g) fs). Qed.

(** No operation renames a file. *)
Lemma exec_keeps_fname e s g :
  fname (streams (snd (exec os e s)) g) = fname (streams s g).
Proof.
  destruct e; cbn [exec]; unfold skip, bind, ret.
  - reflexivity.
  - reflexivity.
  - rewrite StartWithPTY_spec.
    now destruct (pty_Start os (trace s) (cmd (pm s))) as [[f proc]|err].
  - rewrite StartWithPipes_spec. cbv zeta.
    repeat match goal with
      | |- context [match ?x with inl _ => _ | inr _ => _ end] => destruct x
      end; reflexivity.
  - destruct (pty (pm s)) as [f|] eqn:Hp;
      [now rewrite (Write_pty os data s f Hp)|].
    destruct (stdinPipe (pm s)) as [f|] eqn:Hi;
      [now rewrite (Write_stdin os data s f Hp Hi)|].
    now rewrite (Write_unbound os data s Hp Hi).
  - rewrite Stop_spec. cbn [snd streams]. unfold stopped.
    destruct (pty (pm s)), (stdinPipe (pm s));
      now rewrite ?fname_close_files.
  - rewrite Wait_spec. cbn [snd issued streams effect].
    destruct (Proc (cmd (pm s))); now rewrite ?fname_close_files.
  - apply (keeps_fname_thread_step g tid s).
Qed.



Lemma avail_after_read R len burst rest :
  0 < len -> avail R = burst :: rest ->
  concat (avail (snd (Reader_Read R len))) = drop len burst ++ concat rest.
Proof.
  intros Hlen Ha. unfold Reader_Read. rewrite Ha. cbn [snd avail].
  destruct (drop len burst); reflexivity.
Qed.

(** X2: a pass of the PTY loop that reads data hands it to the handler
    that is in the output slot at that moment: a handler set by
    [SetOutputHandler] after the start is the one invoked, with a new array
    holding the (at most 4096) bytes read; a nil slot discards them.  The
    error handler is not invoked, the bytes are consumed from the stream in
    either case, and the loop goes on. *)
Theorem pty_pass_delivers_to_current_handler (tid buf : nat) (f : File)
    (b burst : list byte) (rest : list (list byte)) (s : System)
    (o : option Handler) :
  threads s !! tid = Some {| body := GoReadOutput; state := Looping buf |} ->
  pty (pm s) = Some f ->
  heap s !! buf = Some b ->
  length b = bufSize ->
  avail (streams s f) = burst :: rest ->
  burst <> [] ->
  let s1 := snd (SetOutputHandler o s) in
  let s2 := snd (thread_step os tid s1) in
  calls s2 = calls s ++ call_slot tid o (length (heap s))
  /\ heap s2 !! length (heap s) = Some (take 4096 burst)
  /\ concat (avail (streams s2 f)) = drop 4096 burst ++ concat rest
  /\ trace s2 = trace s ++ [SysRead f]
  /\ pm s2 = pm s1
  /\ threads s2 = threads s.
Proof.
  intros Hth Hp Hb Hlen Ha Hne. cbv zeta.
  set (s1 := snd (SetOutputHandler o s)).
  assert (Hth1 : threads s1 !! tid
                 = Some {| body := GoReadOutput; state := Looping buf |})
    by exact Hth.
  assert (Hp1 : pty (pm s1) = Some f) by exact Hp.
  assert (Hb1 : heap s1 !! buf = Some b) by exact Hb.
  assert (Ha1 : avail (streams s1 f) = burst :: rest) by exact Ha.
  assert (Hne1 : take (length b) burst <> []).
  { rewrite Hlen. destruct burst; [congruence|discriminate]. }
  rewrite (thread_step_looping_pty tid buf s1 Hth1). cbn [snd].
  rewrite (readOutput_iter_reads tid buf f b burst rest s1 Hp1 Hb1 Ha1 Hne1).
  cbn [fst snd]. rewrite after_read_stream.
  assert (Hpos : 0 < length b) by (rewrite Hlen; unfold bufSize; lia).
  rewrite (avail_after_read (streams s1 f) (length b) burst rest Hpos Ha1).
  rewrite Hlen. change bufSize with 4096.
  cbn [after_read calls heap trace pm threads].
  change (onOutput (pm s1)) with o. change (heap s1) with (heap s).
  split; [reflexivity|].
  split; [apply list_lookup_middle; now rewrite length_insert|].
  now repeat split.
Qed.

(** X3: when the read of the PTY fails the loop returns, and a returned
    loop does nothing more.  It is silent for [io.EOF], for any error that
    wraps [EIO] (the [PathError] Linux gives when the child has exited),
    and when no error handler is set; otherwise the handler that is in the
    error slot at that moment is invoked exactly once, with the text
    "\n[Read Error]: <error>\n". *)
Theorem pty_loop_leaves_on_close (tid buf : nat) (f : File) (b : list byte)
    (s : System) :
  threads s !! tid = Some {| body := GoReadOutput; state := Looping buf |} ->
  pty (pm s) = Some f ->
  heap s !! buf = Some b ->
  avail (streams s f) = [] ->
  let e := closing (streams s f) in
  let s' := snd (thread_step os tid s) in
  threads s' !! tid = Some {| body := GoReadOutput; state := Exited |}
  /\ thread_step os tid s' = (tt, s')
  /\ (e = EOF \/ errors_Is e EIO = true -> calls s' = calls s)
  /\ (forall op path, e = PathError op path EIO -> calls s' = calls s)
  /\ (onError (pm s) = None -> calls s' = calls s)
  /\ (forall h, e <> EOF -> errors_Is e EIO = false ->
        onError (pm s) = Some h ->
        calls s' = calls s ++ [call tid h (length (heap s))]
        /\ heap s' !! length (heap s)
           = Some (list_byte_of_string
                     (LF +:+ "[Read Error]: " +:+ Error os e +:+ LF))).
Proof.
  intros Hth Hp Hb Ha. cbv zeta.
  rewrite (thread_step_looping_pty tid buf s Hth). cbn [snd].
  rewrite (readOutput_iter_leaves tid buf f b s Hp Hb Ha). cbn [fst snd].
  set (e := closing (streams s f)).
  assert (Hex : threads (with_thread tid Exited
                  (after_read f (length b)
                     (heap s ++ pty_diag_heap os (onError (pm s)) e)
                     (calls s ++ pty_diag_calls os tid (onError (pm s)) e
                                   (length (heap s))) s)) !! tid
                = Some {| body := GoReadOutput; state := Exited |}).
  { cbn [with_thread after_read threads]. rewrite Hth. cbn [body].
    apply list_lookup_insert_eq. eapply lookup_lt_Some; eauto. }
  assert (Hquiet : e = EOF \/ errors_Is e EIO = true ->
                   pty_diag_calls os tid (onError (pm s)) e (length (heap s))
                   = []).
  { intros Hq. unfold pty_diag_calls, pty_diagnostic.
    destruct (onError (pm s)); [|reflexivity].
    destruct Hq as [ -> | -> ]; [reflexivity|].
    now rewrite andb_false_r. }
  split; [exact Hex|]. split.
  { now apply (thread_step_exited os tid _ _ Hex). }
  cbn [with_thread calls after_read heap].
  split; [intros Hq; now rewrite (Hquiet Hq), app_nil_r|].
  split.
  { intros op path Hpe. rewrite Hquiet, app_nil_r; [reflexivity|].
    right. rewrite Hpe. reflexivity. }
  split.
  { intros Hn. unfold pty_diag_calls. now rewrite Hn, app_nil_r. }
  intros h Hne Hio Hh. unfold pty_diag_calls, pty_diag_heap, pty_diagnostic.
  rewrite Hh, Hio.
  assert (Hbd : bool_decide (e = EOF) = false) by now apply bool_decide_eq_false.
  rewrite Hbd. cbn [negb andb length seq map].
  split; [reflexivity|]. now apply list_lookup_middle.
Qed.

Lemma readOutput_iter_nil_pty tid buf s :
  pty (pm s) = None ->
  readOutput_iter os tid buf s
  = (true,
     match onError (pm s) with
     | Some h =>
         {| pm := pm s; trace := trace s; streams := streams s;
            heap := heap s
                    ++ [list_byte_of_string
                          (LF +:+ "[Read Error]: " +:+ Error os ErrInvalid
                           +:+ LF)];
            threads := threads s;
            calls := calls s ++ [call tid h (length (heap s))];
     pipes := pipes s |}
     | None => s
     end).
Proof.
  intros Hp. unfold readOutput_iter. unfold bind at 1, gets at 1. rewrite Hp.
  unfold File_Read, bind, ret, gets, bytes_of, invoke, set_heap, modify.
  cbn. destruct (onError (pm s)); [reflexivity|]. now destruct s.
Qed.

(** X4: a [StartWithPTY] that fails on a manager that already has a PTY
    unbinds it: [pty.Start]'s nil result is stored.  [running] keeps its
    value and the loop goroutine stays, but [Session] is nil,
    [SetWindowSize] fails with [NoPTYSession], [Write] no longer reaches
    the PTY, and [Stop] closes the stdin pipe (if any) but not the PTY
    master.  A pass of the earlier start's loop that begins after the
    failed start finds the nil file: without issuing a read it reports
    "invalid argument" to the error handler, if one is set, and returns. *)
Theorem failed_restart_unbinds_pty (s : System) (f : File) (err : error)
    (rows cols : Z) (data : list byte) :
  pty (pm s) = Some f ->
  pty_Start os (trace s) (cmd (pm s)) = inr err ->
  let s1 := snd (StartWithPTY os s) in
  fst (StartWithPTY os s) = Some (Errorf_w os "start PTY failed: " err)
  /\ pty (pm s1) = None
  /\ running (pm s1) = running (pm s)
  /\ threads s1 = threads s
  /\ fst (Session s1) = None
  /\ SetWindowSize os rows cols s1 = (Some NoPTYSession, s1)
  /\ (stdinPipe (pm s) = None ->
      Write os data s1 = ((0%Z, Some NoInputAvailable), s1))
  /\ trace (snd (Stop os s1))
     = trace s1
       ++ SysCancel
          :: match stdinPipe (pm s) with Some g => [SysClose g] | None => [] end
          ++ kills (pm s)
  /\ forall tid buf,
       threads s !! tid
       = Some {| body := GoReadOutput; state := Looping buf |} ->
       let s2 := snd (thread_step os tid s1) in
       threads s2 !! tid = Some {| body := GoReadOutput; state := Exited |}
       /\ trace s2 = trace s1
       /\ streams s2 = streams s1
       /\ calls s2
          = calls s1 ++ call_slot tid (onError (pm s)) (length (heap s1))
       /\ (forall h, onError (pm s) = Some h ->
             heap s2 !! length (heap s1)
             = Some (list_byte_of_string
                       (LF +:+ "[Read Error]: " +:+ "invalid argument"
                        +:+ LF))).
Proof.
  intros Hp Herr. cbv zeta. rewrite StartWithPTY_spec, Herr. cbn [fst snd].
  split; [reflexivity|]. split; [reflexivity|]. split; [reflexivity|].
  split; [reflexivity|]. split; [reflexivity|]. split; [reflexivity|].
  split.
  { intros Hn. unfold Write, bind, gets, ret. cbn. now rewrite Hn. }
  split.
  { rewrite Stop_spec. cbn [snd trace]. unfold closes, kills. reflexivity. }
  intros tid buf Hth.
  match goal with
  | |- context [thread_step os tid ?x] => set (s1 := x)
  end.
  assert (Hth1 : threads s1 !! tid
                 = Some {| body := GoReadOutput; state := Looping buf |})
    by exact Hth.
  rewrite (thread_step_looping_pty tid buf s1 Hth1). cbn [snd].
  rewrite (readOutput_iter_nil_pty tid buf s1 eq_refl). cbv zeta. cbn [fst snd].
  assert (Hlt : tid < length (threads s)) by (eapply lookup_lt_Some; eauto).
  change (onError (pm s1)) with (onError (pm s)).
  destruct (onError (pm s)) as [h|]; cbn [with_thread threads trace calls heap
                                           streams call_slot].
  - rewrite Hth1. cbn [body threads].
    split; [apply list_lookup_insert_eq; exact Hlt|].
    split; [reflexivity|]. split; [reflexivity|]. split; [reflexivity|].
    intros h' _. now apply list_lookup_middle.
  - rewrite Hth1. cbn [body].
    split; [apply list_lookup_insert_eq; exact Hlt|].
    split; [reflexivity|]. split; [reflexivity|].
    split; [now rewrite app_nil_r|]. intros h' Hh. discriminate.
Qed.

(** ** The system calls of a run *)

Lemma only_reads_ret {A} (a : A) : only_reads (ret a).
Proof. intros s. exists []. now rewrite app_nil_r. Qed.

Lemma only_reads_bind {A B} (m : M A) (k : A -> M B) :
  only_reads m -> (forall a, only_reads (k a)) -> only_reads (bind m k).
Proof.
  intros Hm Hk s. unfold bind. destruct (Hm s) as (t1 & H1 & F1).
  destruct (m s) as [a s1]. cbn [snd] in *.
  destruct (Hk a s1) as (t2 & H2 & F2).
  exists (t1 ++ t2). rewrite H2, H1, app_assoc. split; [reflexivity|].
  now rewrite forallb_app, F1, F2.
Qed.

Lemma only_reads_gets {A} (f : System -> A) : only_reads (gets f).
Proof. intros s. exists []. now rewrite app_nil_r. Qed.

Lemma only_reads_SysRead f : only_reads (sys (SysRead f)).
Proof. intros s. now exists [SysRead f]. Qed.

Lemma only_reads_set_heap f : only_reads (set_heap f).
Proof. intros s. exists []. now rewrite app_nil_r. Qed.

Lemma only_reads_invoke tid h a : only_reads (invoke tid h a).
Proof. intros s. exists []. now rewrite app_nil_r. Qed.

Lemma only_reads_set_stream f r : only_reads (set_stream f r).
Proof. intros s. exists []. now rewrite app_nil_r. Qed.

Lemma only_reads_set_thread tid st : only_reads (set_thread tid st).
Proof. intros s. exists []. now rewrite app_nil_r. Qed.

Create HintDb reads.

#[local] Hint Resolve only_reads_ret only_reads_gets only_reads_SysRead
  only_reads_set_heap only_reads_invoke only_reads_set_stream
  only_reads_set_thread : reads.

Ltac reads :=
  repeat first
    [ progress auto with reads
    | apply only_reads_bind; [|intros ?]
    | match goal with
      | |- only_reads (match ?x with _ => _ end) => destruct x
      | |- only_reads (if ?x then _ else _) => destruct x
      end ].

Lemma only_reads_File_Read f buf : only_reads (File_Read f buf).
Proof. unfold File_Read, copy, load. reads. Qed.

#[local] Hint Resolve only_reads_File_Read : reads.

Lemma only_reads_thread_step tid : only_reads (thread_step os tid).
Proof.
  unfold thread_step, readOutput_iter, readFromReader_iter, make, copy, load,
    bytes_of.
  reads.
Qed.

Lemma forallb_is_read_other (t : list syscall) c :
  is_close_any c || is_kill c = true -> forallb is_read t = true -> ~ In c t.
Proof.
  intros Hc Hall Hin. rewrite forallb_forall in Hall.
  specialize (Hall _ Hin). destruct c; discriminate.
Qed.

(** Every operation only adds to the trace. *)
Lemma exec_trace_grows e s :
  exists t, trace (snd (exec os e s)) = trace s ++ t.
Proof.
  destruct e; cbn [exec]; unfold skip, bind, ret.
  - exists []. now rewrite app_nil_r.
  - exists []. now rewrite app_nil_r.
  - rewrite StartWithPTY_spec.
    destruct (pty_Start os (trace s) (cmd (pm s))) as [[f proc]|err];
      eexists; reflexivity.
  - rewrite StartWithPipes_spec. cbv zeta.
    repeat match goal with
      | |- context [match ?x with inl _ => _ | inr _ => _ end] => destruct x
      end; eexists; reflexivity.
  - destruct (pty (pm s)) as [f|] eqn:Hp;
      [rewrite (Write_pty os data s f Hp); eexists; reflexivity|].
    destruct (stdinPipe (pm s)) as [f|] eqn:Hi;
      [rewrite (Write_stdin os data s f Hp Hi); eexists; reflexivity|].
    rewrite (Write_unbound os data s Hp Hi). exists []. now rewrite app_nil_r.
  - rewrite Stop_spec. eexists; reflexivity.
  - eexists; reflexivity.
  - destruct (only_reads_thread_step tid s) as (t & Ht & _). now exists t.
Qed.

Lemma run_trace_grows es s :
  exists t, trace (snd (run os es s)) = trace s ++ t.
Proof.
  revert s. induction es as [|e es IH]; intros s.
  - exists []. now rewrite app_nil_r.
  - cbn [run]. unfold bind.
    destruct (exec_trace_grows e s) as (t1 & H1).
    destruct (exec os e s) as [[] s1]. cbn [snd] in *.
    destruct (IH s1) as (t2 & H2). exists (t1 ++ t2).
    now rewrite H2, H1, app_assoc.
Qed.

(** No operation but a start rebinds the process handle, the PTY or the
    stdin pipe. *)
Lemma exec_keeps_handles e s :
  starts e = false ->
  cmd (pm (snd (exec os e s))) = cmd (pm s)
  /\ pty (pm (snd (exec os e s))) = pty (pm s)
  /\ stdinPipe (pm (snd (exec os e s))) = stdinPipe (pm s).
Proof.
  intros Hs. destruct e; try discriminate; cbn [exec]; unfold skip, bind, ret.
  - now repeat split.
  - now repeat split.
  - pose proof (keeps_pm_Write os data s) as Hk.
    destruct (Write os data s) as [r s1]. cbn [snd] in *. now rewrite Hk.
  - rewrite Stop_spec. now repeat split.
  - now repeat split.
  - now rewrite keeps_pm_thread_step.
Qed.

Lemma run_keeps_handles es s :
  Forall (fun e => starts e = false) es ->
  cmd (pm (snd (run os es s))) = cmd (pm s)
  /\ pty (pm (snd (run os es s))) = pty (pm s)
  /\ stdinPipe (pm (snd (run os es s))) = stdinPipe (pm s).
Proof.
  intros Hes. revert s. induction Hes as [|e es He Hes IH]; intros s.
  - now repeat split.
  - cbn [run]. unfold bind.
    destruct (exec_keeps_handles e s He) as (H1 & H2 & H3).
    destruct (exec os e s) as [[] s1]. cbn [snd] in *.
    destruct (IH s1) as (H4 & H5 & H6). repeat split; congruence.
Qed.

Lemma exec_closes e s c :
  starts e = false ->
  is_close_any c || is_kill c = true ->
  In c (trace (snd (exec os e s))) ->
  In c (trace s)
  \/ (e = CallStop /\ In c (closes (pm s) ++ kills (pm s))).
Proof.
  intros Hs Hc. destruct e; try discriminate; cbn [exec]; unfold skip, bind, ret.
  - now left.
  - now left.
  - destruct (pty (pm s)) as [g|] eqn:Hp;
      [rewrite (Write_pty os data s g Hp)|
       destruct (stdinPipe (pm s)) as [g|] eqn:Hi;
         [rewrite (Write_stdin os data s g Hp Hi)
         |rewrite (Write_unbound os data s Hp Hi)]];
      cbn [snd issued trace]; rewrite ?in_app_iff;
      try (intros [H|[H|[]]]; [now left|subst c; discriminate]); now left.
  - rewrite Stop_spec. cbn [snd trace]. rewrite in_app_iff. cbn [In].
    intros [H|[H|H]].
    + now left.
    + subst c. discriminate.
    + right. now split.
  - rewrite Wait_spec. cbn [snd issued trace]. rewrite in_app_iff.
    intros [H|[H|[]]]; [now left|subst c; discriminate].
  - destruct (only_reads_thread_step tid s) as (t & Ht & Hall).
    rewrite Ht, in_app_iff. intros [H|H]; [now left|].
    now elim (forallb_is_read_other t c Hc Hall).
Qed.

Lemma run_closes es s c :
  Forall (fun e => starts e = false) es ->
  is_close_any c || is_kill c = true ->
  In c (trace (snd (run os es s))) ->
  In c (trace s)
  \/ (In CallStop es /\ In c (closes (pm s) ++ kills (pm s))).
Proof.
  intros Hes Hc. revert s. induction Hes as [|e es He Hes IH]; intros s.
  - now left.
  - cbn [run]. unfold bind.
    pose proof (exec_closes e s c He Hc) as H1.
    destruct (exec_keeps_handles e s He) as (Hcmd & Hp & Hi).
    destruct (exec os e s) as [[] s1]. cbn [snd] in *.
    intros Hin. destruct (IH s1 Hin) as [Hin1|[Hstop Hin1]].
    + destruct (H1 Hin1) as [?|[-> ?]]; [now left|].
      right. split; [now left|assumption].
    + right. split; [now right|]. unfold closes, kills in *.
      now rewrite <- Hcmd, <- Hp, <- Hi.
Qed.

Lemma run_Stop_closes es s c :
  Forall (fun e => starts e = false) es ->
  In CallStop es -> In c (closes (pm s)) ->
  In c (trace (snd (run os es s))).
Proof.
  intros Hes. revert s. induction Hes as [|e es He Hes IH]; intros s; [intros []|].
  cbn [run]. unfold bind. intros [->|Hin] Hc.
  - cbn [exec]. unfold skip, bind, ret. rewrite Stop_spec.
    match goal with
    | |- context [run os es ?x] => destruct (run_trace_grows es x) as (t & Ht)
    end.
    rewrite Ht. cbn [trace]. rewrite !in_app_iff. left. right. right.
    rewrite in_app_iff. now left.
  - destruct (exec_keeps_handles e s He) as (_ & Hp & Hi).
    destruct (exec os e s) as [[] s1]. cbn [snd] in *.
    apply IH; [exact Hin|]. unfold closes in *. now rewrite Hp, Hi.
Qed.

(** *** What happens to the files of a run *)

Section Streams.

Variables (g : File) (Q : Reader -> Prop).
Hypothesis HQ : forall r len, Q r -> Q (snd (Reader_Read r len)).

#[local] Abbreviation on_g := (fun s : System => Q (streams s g)).

Lemma preserves_ret {A} (P : System -> Prop) (a : A) : preserves P (ret a).
Proof. now intros s. Qed.

Lemma preserves_bind {A B} (P : System -> Prop) (m : M A) (k : A -> M B) :
  preserves P m -> (forall a, preserves P (k a)) -> preserves P (bind m k).
Proof.
  intros Hm Hk s HP. unfold bind. specialize (Hm s HP).
  destruct (m s) as [a s']. cbn [snd] in *. now apply Hk.
Qed.

Lemma preserves_gets {A} (P : System -> Prop) (f : System -> A) :
  preserves P (gets f).
Proof. now intros s. Qed.

Lemma preserves_set_heap f : preserves on_g (set_heap f).
Proof. now intros s. Qed.

Lemma preserves_invoke tid h a : preserves on_g (invoke tid h a).
Proof. now intros s. Qed.

Lemma preserves_set_thread tid st : preserves on_g (set_thread tid st).
Proof. now intros s. Qed.

Lemma preserves_File_Read fd buf : preserves on_g (File_Read fd buf).
Proof.
  intros s Hs. unfold File_Read. destruct fd as [fd|]; [|exact Hs].
  pose proof (HQ (streams s fd) (length (default [] (heap s !! buf)))) as HR.
  unfold copy, load, bind, gets, sys, set_heap, set_stream, modify, ret.
  simpl.
  destruct (Reader_Read (streams s fd) (length (default [] (heap s !! buf))))
    as [[data err] r']. simpl in *.
  destruct (Nat.eqb_spec g fd); [subst; now apply HR|exact Hs].
Qed.

Create HintDb kept_streams.

#[local] Hint Resolve preserves_ret preserves_gets preserves_set_heap
  preserves_invoke preserves_set_thread preserves_File_Read : kept_streams.

(** A step of a goroutine does to a file nothing but read it. *)
Lemma preserves_thread_step tid : preserves on_g (thread_step os tid).
Proof.
  unfold thread_step, readOutput_iter, readFromReader_iter, make, copy, load,
    bytes_of.
  repeat first
    [ progress auto with kept_streams
    | apply preserves_bind; [|intros ?]
    | match goal with
      | |- preserves _ (match ?x with _ => _ end) => destruct x
      | |- preserves _ (if ?x then _ else _) => destruct x
      end ].
Qed.

End Streams.

Lemma closed_as_Read nm r len :
  closed_as nm r -> closed_as nm (snd (Reader_Read r len)).
Proof.
  intros (Hn & Ha & Hc). unfold Reader_Read. rewrite Ha. now repeat split.
Qed.

Lemma closed_as_closed r : closed_as (fname r) (closed r).
Proof. now repeat split. Qed.

Lemma closed_as_close_files nm fs st g :
  closed_as nm (st g) -> closed_as nm (close_files fs st g).
Proof.
  intros Hc. unfold close_files. destruct (existsb (Nat.eqb g) fs); [|exact Hc].
  destruct Hc as (<- & _ & _). apply closed_as_closed.
Qed.

(** A closed file stays closed. *)
Lemma exec_keeps_closed e s g nm :
  starts e = false ->
  closed_as nm (streams s g) -> closed_as nm (streams (snd (exec os e s)) g).
Proof.
  intros Hs Hc. destruct e; try discriminate; cbn [exec]; unfold skip, bind, ret.
  - exact Hc.
  - exact Hc.
  - destruct (pty (pm s)) as [f|] eqn:Hp;
      [now rewrite (Write_pty os data s f Hp)|].
    destruct (stdinPipe (pm s)) as [f|] eqn:Hi;
      [now rewrite (Write_stdin os data s f Hp Hi)|].
    now rewrite (Write_unbound os data s Hp Hi).
  - rewrite Stop_spec. cbn [snd streams]. unfold stopped.
    destruct (pty (pm s)), (stdinPipe (pm s));
      repeat apply closed_as_close_files; exact Hc.
  - rewrite Wait_spec. cbn [snd issued streams effect].
    destruct (Proc (cmd (pm s))); [now apply closed_as_close_files|exact Hc].
  - apply (preserves_thread_step g (closed_as nm) (closed_as_Read nm) tid s Hc).
Qed.

Lemma run_keeps_closed es s g nm :
  Forall (fun e => starts e = false) es ->
  closed_as nm (streams s g) -> closed_as nm (streams (snd (run os es s)) g).
Proof.
  intros Hes. revert s. induction Hes as [|e es He Hes IH]; intros s Hc.
  - exact Hc.
  - cbn [run]. unfold bind. pose proof (exec_keeps_closed e s g nm He Hc) as H1.
    destruct (exec os e s) as [[] s1]. cbn [snd] in *. now apply IH.
Qed.

Lemma exec_keeps_pipes e s :
  starts e = false -> pipes (snd (exec os e s)) = pipes s.
Proof.
  intros Hs.
  assert (Hcase : (exists tid, e = Step tid) \/ (forall tid, e <> Step tid))
    by (destruct e; solve [left; eexists; reflexivity
                          | right; intros; discriminate]).
  destruct Hcase as [[tid ->]|Hcaller].
  - apply keeps_pipes_thread_step.
  - now destruct (caller_frame os e s Hs Hcaller) as (_ & _ & _ & Hpi & _).
Qed.

(** [Wait] on a started command closes the pipes of the command, whatever
    was left to read. *)
Lemma run_Wait_closes es s r :
  Forall (fun e => starts e = false) es ->
  In CallWait es ->
  Proc (cmd (pm s)) <> None ->
  In r (pipes s) ->
  closed_as (fname (streams s r)) (streams (snd (run os es s)) r).
Proof.
  intros Hes. revert s. induction Hes as [|e es He Hes IH]; intros s; [intros []|].
  cbn [run]. unfold bind. intros [->|Hin] Hproc Hr.
  - cbn [exec]. unfold skip, bind, ret. rewrite Wait_spec. cbn [snd].
    apply run_keeps_closed; [exact Hes|].
    cbn [issued streams effect].
    destruct (Proc (cmd (pm s))); [|congruence].
    unfold close_files.
    assert (Hex : existsb (Nat.eqb r) (pipes s) = true).
    { apply existsb_exists. exists r. split; [exact Hr|apply Nat.eqb_refl]. }
    rewrite Hex. apply closed_as_closed.
  - pose proof (exec_keeps_fname e s r) as Hfn.
    pose proof (exec_keeps_pipes e s He) as Hpi.
    destruct (exec_keeps_handles e s He) as (Hcmd & _ & _).
    destruct (exec os e s) as [[] s1]. cbn [snd] in *.
    rewrite <- Hfn. apply IH; [exact Hin|now rewrite Hcmd|now rewrite Hpi].
Qed.

(** Without [Wait], a file that [Stop] does not close closes as the child
    closes it. *)
Lemma run_keeps_closing es s r :
  Forall (fun e => starts e = false) es ->
  ~ In CallWait es ->
  ~ In (SysClose r) (closes (pm s)) ->
  closing (streams (snd (run os es s)) r) = closing (streams s r).
Proof.
  intros Hes. revert s. induction Hes as [|e es He Hes IH]; intros s Hw Hopen.
  - reflexivity.
  - cbn [run]. unfold bind.
    assert (H1 : closing (streams (snd (exec os e s)) r)
                 = closing (streams s r)).
    { assert (Hcase : (exists tid, e = Step tid) \/ (forall tid, e <> Step tid))
        by (destruct e; solve [left; eexists; reflexivity
                              | right; intros; discriminate]).
      destruct Hcase as [[tid ->]|Hcaller].
      - cbn [exec].
        apply (preserves_thread_step r
                 (fun x => closing x = closing (streams s r))
                 (fun x len Hx => eq_trans (Reader_Read_closing x len) Hx)
                 tid s eq_refl).
      - destruct (caller_frame os e s He Hcaller) as (_ & _ & _ & _ & Hst).
        rewrite Hst; [reflexivity|intros _; exact Hopen|].
        intros ->. elim Hw. now left. }
    pose proof (caller_closes os e s He) as Hcl.
    destruct (exec os e s) as [[] s1]. cbn [snd] in *.
    rewrite IH; [exact H1| |now rewrite Hcl].
    intros Hin. apply Hw. now right.
Qed.

(** X6: after a successful [StartWithPipes], for every interleaving of the
    caller's calls with the two loops: the only file the manager closes
    is the stdin pipe, and it does so only in [Stop]; a kill request is
    sent only by [Stop]; the goroutines ask the system for nothing but
    reads.  The manager never closes the read ends of the stdout and
    stderr pipes: as long as [Wait] is not called they close as the child
    closes them.  [Wait], through [exec.Cmd.Wait], closes them, whatever
    was left to read. *)
Theorem pipe_mode_closes_only_stdin (p : ProcessManager)
    (st : File -> Reader) (es : list Event) :
  pty p = None ->
  fst (StartWithPipes os (boot p st)) = None ->
  Forall (fun e => starts e = false) es ->
  exists stdin stdout stderr,
    cmd_StdinPipe os [] = inl stdin
    /\ cmd_StdoutPipe os [SysStdinPipe] = inl stdout
    /\ cmd_StderrPipe os [SysStdinPipe; SysStdoutPipe] = inl stderr
    /\ let s' := snd (run os es (snd (StartWithPipes os (boot p st)))) in
       (forall f, In (SysClose f) (trace s') -> f = stdin /\ In CallStop es)
       /\ (In CallStop es -> In (SysClose stdin) (trace s'))
       /\ (forall proc, In (SysKill proc) (trace s') -> In CallStop es)
       /\ pty (pm s') = None
       /\ stdinPipe (pm s') = Some stdin
       /\ (forall tid, only_reads (thread_step os tid))
       /\ (forall r, r = stdout \/ r = stderr ->
             (~ In CallWait es -> r <> stdin ->
              closing (streams s' r) = closing (st r))
             /\ (In CallWait es ->
                 avail (streams s' r) = []
                 /\ closing (streams s' r)
                    = PathError "read" (fname (st r)) ErrClosed)).
Proof.
  intros Hp Hok Hes. revert Hok. rewrite StartWithPipes_spec.
  cbn [boot trace pm app].
  destruct (cmd_StdinPipe os []) as [stdin|e1]; [|discriminate].
  cbv zeta.
  destruct (cmd_StdoutPipe os [SysStdinPipe]) as [stdout|e2]; [|discriminate].
  destruct (cmd_StderrPipe os [SysStdinPipe; SysStdoutPipe]) as [stderr|e3];
    [|discriminate].
  destruct (cmd_Start os _ _) as [proc|e4]; [|discriminate].
  intros _. exists stdin, stdout, stderr.
  split; [reflexivity|]. split; [reflexivity|]. split; [reflexivity|].
  cbn [snd].
  match goal with
  | |- context [run os es ?x] => set (s1 := x)
  end.
  assert (Hc1 : closes (pm s1) = [SysClose stdin]).
  { subst s1. unfold closes. cbn. now rewrite Hp. }
  destruct (run_keeps_handles es s1 Hes) as (_ & Hp' & Hi').
  split.
  { intros f Hin.
    destruct (run_closes es s1 (SysClose f) Hes eq_refl Hin) as [Hc|[Hstop Hc]].
    - subst s1. cbn in Hc.
      repeat (destruct Hc as [Hc|Hc]; [discriminate|]). destruct Hc.
    - rewrite Hc1 in Hc. destruct Hc as [Hc|Hc].
      + inversion Hc. now split.
      + unfold kills in Hc. destruct (Proc (cmd (pm s1))); [|destruct Hc].
        destruct Hc as [Hc|[]]. discriminate. }
  split.
  { intros Hstop. apply (run_Stop_closes es s1 _ Hes Hstop).
    rewrite Hc1. now left. }
  split.
  { intros proc' Hin.
    destruct (run_closes es s1 (SysKill proc') Hes eq_refl Hin)
      as [Hc|[Hstop _]]; [|exact Hstop].
    subst s1. cbn in Hc. repeat (destruct Hc as [Hc|Hc]; [discriminate|]).
    destruct Hc. }
  split; [rewrite Hp'; subst s1; cbn; exact Hp|].
  split; [rewrite Hi'; reflexivity|].
  split; [exact only_reads_thread_step|].
  intros r Hr. split.
  - intros Hw Hne.
    rewrite (run_keeps_closing es s1 r Hes Hw); [reflexivity|].
    rewrite Hc1. intros [Hc|[]]. inversion Hc. congruence.
  - intros Hw.
    assert (Hin : In r (pipes s1))
      by (subst s1; cbn; destruct Hr as [ -> | -> ]; tauto).
    destruct (run_Wait_closes es s1 r Hes Hw ltac:(subst s1; discriminate) Hin)
      as (_ & Ha & Hc).
    split; [exact Ha|exact Hc].
Qed.

(** ** Handles *)

(** X5: [Pid] is -1 and [Session] is nil for a created manager.  A
    successful [StartWithPTY] makes them the pid of the new process and the
    PTY master; a successful [StartWithPipes] sets the pid and leaves
    [Session] as it was; a failed [StartWithPipes] changes neither, and a
    failed [StartWithPTY] keeps the pid and makes [Session] nil.  No other
    operation changes them: after [Stop] and [Wait], and whatever the
    goroutines do, [Pid] still answers the pid of the killed process and
    [Session] the closed file. *)
Theorem Pid_and_Session_lifecycle (s : System) (es : list Event) :
  (forall command args st,
      fst (Pid_ (boot (New os command args) st)) = (-1)%Z
      /\ fst (Session (boot (New os command args) st)) = None)
  /\ (forall f proc,
        pty_Start os (trace s) (cmd (pm s)) = inl (f, proc) ->
        fst (Pid_ (snd (StartWithPTY os s))) = Pid proc
        /\ fst (Session (snd (StartWithPTY os s))) = Some f)
  /\ (forall err,
        pty_Start os (trace s) (cmd (pm s)) = inr err ->
        fst (Pid_ (snd (StartWithPTY os s))) = fst (Pid_ s)
        /\ fst (Session (snd (StartWithPTY os s))) = None)
  /\ (fst (StartWithPipes os s) = None ->
      (exists proc,
          Proc (cmd (pm (snd (StartWithPipes os s)))) = Some proc
          /\ fst (Pid_ (snd (StartWithPipes os s))) = Pid proc)
      /\ fst (Session (snd (StartWithPipes os s))) = fst (Session s))
  /\ (fst (StartWithPipes os s) <> None ->
      fst (Pid_ (snd (StartWithPipes os s))) = fst (Pid_ s)
      /\ fst (Session (snd (StartWithPipes os s))) = fst (Session s))
  /\ (Forall (fun e => starts e = false) es ->
      fst (Pid_ (snd (run os es s))) = fst (Pid_ s)
      /\ fst (Session (snd (run os es s))) = fst (Session s)).
Proof.
  assert (HP : forall a b : System, cmd (pm a) = cmd (pm b) ->
               fst (Pid_ a) = fst (Pid_ b)).
  { intros a b Hc. unfold Pid_, bind, gets, ret. rewrite Hc.
    now destruct (Proc (cmd (pm b))). }
  split; [intros; now split|].
  split.
  { intros f proc Hst. rewrite StartWithPTY_spec, Hst. now split. }
  split.
  { intros err Hst. rewrite StartWithPTY_spec, Hst. cbn [snd].
    split; [now apply HP|reflexivity]. }
  split.
  { intros Hok. revert Hok. rewrite StartWithPipes_spec. cbv zeta.
    repeat match goal with
      | |- context [match ?x with inl _ => _ | inr _ => _ end] => destruct x
      end; cbn [fst snd]; try discriminate.
    intros _. split; [|reflexivity]. eexists. split; reflexivity. }
  split.
  { intros Hko. revert Hko. rewrite StartWithPipes_spec. cbv zeta.
    repeat match goal with
      | |- context [match ?x with inl _ => _ | inr _ => _ end] => destruct x
      end; cbn [fst snd]; try congruence; intros _;
      (split; [now apply HP|reflexivity]). }
  intros Hes. destruct (run_keeps_handles es s Hes) as (Hc & Hp & _).
  split; [now apply HP|]. exact Hp.
Qed.

(** ** Errors of a start *)

Lemma errors_Is_refl e : errors_Is e e = true.
Proof. destruct e; cbn; now rewrite bool_decide_eq_true_2. Qed.

Lemma errors_Is_wrap msg cause target :
  errors_Is cause target = true -> errors_Is (WrapError msg cause) target = true.
Proof.
  intros H. cbn. destruct (bool_decide (WrapError msg cause = target));
    [reflexivity|exact H].
Qed.

(** X7: the error a failed start returns is the error of the system
    primitive that failed, wrapped under the prefix of that step:
    [pty.Start] under "start PTY failed: " for [StartWithPTY], and for
    [StartWithPipes] the first of [StdinPipe], [StdoutPipe], [StderrPipe]
    and [cmd.Start] that fails, under its own prefix.  [errors.Unwrap]
    gives that cause, [errors.Is] finds the cause and everything the cause
    wraps, and the message is the prefix followed by the cause's
    message. *)
Theorem start_errors_wrap_their_cause (s : System) (e : error) :
  (fst (StartWithPTY os s) = Some e ->
   exists cause,
     pty_Start os (trace s) (cmd (pm s)) = inr cause
     /\ e = Errorf_w os "start PTY failed: " cause
     /\ Unwrap e = Some cause
     /\ Error os e = "start PTY failed: " +:+ Error os cause
     /\ (forall target, errors_Is cause target = true ->
                        errors_Is e target = true))
  /\ (fst (StartWithPipes os s) = Some e ->
      exists prefix cause,
        first_failure os s = Some (prefix, cause)
        /\ e = Errorf_w os prefix cause
        /\ Unwrap e = Some cause
        /\ Error os e = prefix +:+ Error os cause
        /\ (forall target, errors_Is cause target = true ->
                           errors_Is e target = true)).
Proof.
  assert (HW : forall prefix cause,
             Errorf_w os prefix cause = Errorf_w os prefix cause
             /\ Unwrap (Errorf_w os prefix cause) = Some cause
             /\ Error os (Errorf_w os prefix cause) = prefix +:+ Error os cause
             /\ (forall target, errors_Is cause target = true ->
                   errors_Is (Errorf_w os prefix cause) target = true)).
  { intros prefix cause. split; [reflexivity|]. split; [reflexivity|].
    split; [reflexivity|]. intros target. apply errors_Is_wrap. }
  split.
  - rewrite StartWithPTY_spec.
    destruct (pty_Start os (trace s) (cmd (pm s))) as [[f proc]|err] eqn:Hst;
      cbn [fst]; [discriminate|].
    intros [= <-]. exists err. split; [reflexivity|]. apply HW.
  - rewrite StartWithPipes_spec. unfold first_failure. cbv zeta.
    destruct (cmd_StdinPipe os (trace s)) as [stdin|e1]; cbn [fst].
    2:{ intros [= <-]. eexists _, _. split; [reflexivity|]. apply HW. }
    destruct (cmd_StdoutPipe os _) as [stdout|e2]; cbn [fst].
    2:{ intros [= <-]. eexists _, _. split; [reflexivity|]. apply HW. }
    destruct (cmd_StderrPipe os _) as [stderr|e3]; cbn [fst].
    2:{ intros [= <-]. eexists _, _. split; [reflexivity|]. apply HW. }
    destruct (cmd_Start os _ _) as [proc|e4]; cbn [fst]; [discriminate|].
    intros [= <-]. eexists _, _. split; [reflexivity|]. apply HW.
Qed.

(** ** Falling back to a PTY *)

(** X8: falling back to a PTY after a failed [StartWithPipes], as the
    example program does: the manager runs with the handlers it had and
    with exactly one goroutine, the PTY loop; [Write] goes to the PTY
    master, not to the stdin pipe the failed start may have left behind;
    and [Stop] closes the master and that left-over stdin pipe and kills
    the process. *)
Theorem fallback_to_PTY (p : ProcessManager) (st : File -> Reader)
    (data : list byte) :
  pty p = None -> stdinPipe p = None ->
  let s1 := snd (StartWithPipes os (boot p st)) in
  let s2 := snd (StartWithPTY os s1) in
  fst (StartWithPipes os (boot p st)) <> None ->
  fst (StartWithPTY os s1) = None ->
  exists f proc,
    pty_Start os (trace s1) (cmd p) = inl (f, proc)
    /\ pty (pm s2) = Some f
    /\ Proc (cmd (pm s2)) = Some proc
    /\ running (pm s2) = true
    /\ onOutput (pm s2) = onOutput p
    /\ onError (pm s2) = onError p
    /\ threads s2 = [ {| body := GoReadOutput; state := Spawned |} ]
    /\ Write os data s2
       = (file_Write os (trace s2) f data, issued (SysWrite f data) s2)
    /\ trace (snd (Stop os s2))
       = trace s2
         ++ SysCancel :: SysClose f
            :: match cmd_StdinPipe os [] with
               | inl stdin => [SysClose stdin]
               | inr _ => []
               end
            ++ [SysKill proc].
Proof.
  intros Hp Hi. cbv zeta. rewrite StartWithPipes_spec. cbn [boot trace pm app].
  cbv zeta.
  assert (HF : forall (s1 : System),
             cmd (pm s1) = cmd p -> onOutput (pm s1) = onOutput p ->
             onError (pm s1) = onError p -> threads s1 = [] ->
             stdinPipe (pm s1)
             = match cmd_StdinPipe os [] with
               | inl stdin => Some stdin
               | inr _ => None
               end ->
             fst (StartWithPTY os s1) = None ->
             exists f proc,
               pty_Start os (trace s1) (cmd p) = inl (f, proc)
               /\ pty (pm (snd (StartWithPTY os s1))) = Some f
               /\ Proc (cmd (pm (snd (StartWithPTY os s1)))) = Some proc
               /\ running (pm (snd (StartWithPTY os s1))) = true
               /\ onOutput (pm (snd (StartWithPTY os s1))) = onOutput p
               /\ onError (pm (snd (StartWithPTY os s1))) = onError p
               /\ threads (snd (StartWithPTY os s1))
                  = [ {| body := GoReadOutput; state := Spawned |} ]
               /\ Write os data (snd (StartWithPTY os s1))
                  = (file_Write os (trace (snd (StartWithPTY os s1))) f data,
                     issued (SysWrite f data) (snd (StartWithPTY os s1)))
               /\ trace (snd (Stop os (snd (StartWithPTY os s1))))
                  = trace (snd (StartWithPTY os s1))
                    ++ SysCancel :: SysClose f
                       :: match cmd_StdinPipe os [] with
                          | inl stdin => [SysClose stdin]
                          | inr _ => []
                          end
                       ++ [SysKill proc]).
  { intros s1 Hc Ho He Ht Hs. rewrite StartWithPTY_spec, Hc.
    destruct (pty_Start os (trace s1) (cmd p)) as [[f proc]|err];
      cbn [fst snd]; [|discriminate].
    intros _. exists f, proc. split; [reflexivity|]. split; [reflexivity|].
    split; [reflexivity|]. split; [reflexivity|]. split; [exact Ho|].
    split; [exact He|]. split; [cbn; now rewrite Ht|].
    split; [now apply Write_pty|].
    rewrite Stop_spec. cbn [snd trace]. unfold closes, kills. cbn. rewrite Hs.
    destruct (cmd_StdinPipe os []); reflexivity. }
  destruct (cmd_StdinPipe os []) as [stdin|e1].
  2:{ cbn [fst snd]. intros _. apply HF; try reflexivity. exact Hi. }
  destruct (cmd_StdoutPipe os [SysStdinPipe]) as [stdout|e2].
  2:{ cbn [fst snd]. intros _. now apply HF. }
  destruct (cmd_StderrPipe os [SysStdinPipe; SysStdoutPipe]) as [stderr|e3].
  2:{ cbn [fst snd]. intros _. now apply HF. }
  destruct (cmd_Start os _ _) as [proc|e4].
  { cbn [fst]. congruence. }
  cbn [fst snd]. intros _. now apply HF.
Qed.

(** ** The pipe loop, run to its end *)

Lemma loop_readFromReader_nil tid buf r :
  forall fuel s b,
    heap s !! buf = Some b ->
    0 < length b ->
    reads_bound (streams s r) < fuel ->
    exists s' k,
      loop fuel (readFromReader_iter os tid buf r None) s = (true, s')
      /\ calls s' = calls s
      /\ avail (streams s' r) = []
      /\ closing (streams s' r) = closing (streams s r)
      /\ (forall g, g <> r -> streams s' g = streams s g)
      /\ trace s' = trace s ++ repeat (SysRead r) k
      /\ 0 < k <= fuel
      /\ pm s' = pm s
      /\ threads s' = threads s.
Proof.
  induction fuel as [|fuel IH]; intros s b Hb Hlen Hfuel; [lia|].
  assert (Hlt : buf < length (heap s)) by (eapply lookup_lt_Some; eauto).
  destruct (avail (streams s r)) as [|burst rest] eqn:Ha.
  - eexists _, 1. cbn [loop]. unfold bind at 1.
    rewrite (readFromReader_iter_leaves os tid buf r None b s Hb Ha).
    split; [reflexivity|]. cbn [diag_calls diag_heap after_read calls streams
                                 trace pm threads repeat].
    rewrite app_nil_r, Nat.eqb_refl.
    split; [reflexivity|].
    split; [unfold Reader_Read; now rewrite Ha|].
    split; [unfold Reader_Read; now rewrite Ha|].
    split; [intros g Hg; now destruct (Nat.eqb_spec g r)|].
    split; [reflexivity|]. split; [lia|]. now split.
  - assert (Hstep : exists s1,
               readFromReader_iter os tid buf r None s = (false, s1)
               /\ calls s1 = calls s
               /\ streams s1
                  = (fun g => if Nat.eqb g r
                              then snd (Reader_Read (streams s r) (length b))
                              else streams s g)
               /\ trace s1 = trace s ++ [SysRead r]
               /\ pm s1 = pm s /\ threads s1 = threads s
               /\ exists b1, heap s1 !! buf = Some b1 /\ length b1 = length b).
    { destruct (decide (take (length b) burst = [])) as [He|Hne].
      - assert (burst = []) as ->.
        { destruct burst; [reflexivity|].
          destruct b; simpl in *; [lia|discriminate]. }
        eexists. split;
          [exact (readFromReader_iter_idles os tid buf r None b rest s Hb Ha)|].
        cbn [after_read calls streams trace pm threads heap].
        repeat (split; [reflexivity|]). now exists b.
      - eexists. split;
          [exact (readFromReader_iter_reads os tid buf r None b burst rest s
                    Hb Ha Hne)|].
        cbn [after_read calls streams trace pm threads heap call_slot].
        rewrite app_nil_r.
        repeat (split; [reflexivity|]).
        eexists. split.
        + rewrite lookup_app_l by (rewrite length_insert; lia).
          now apply list_lookup_insert_eq.
        + rewrite length_app, length_drop, length_take. lia. }
    destruct Hstep as (s1 & HI & Hc1 & Hs1 & Ht1 & Hp1 & Hth1 & b1 & Hb1 & Hl1).
    assert (Hr1 : streams s1 r = snd (Reader_Read (streams s r) (length b)))
      by (rewrite Hs1; now rewrite Nat.eqb_refl).
    destruct (IH s1 b1 Hb1) as (s' & k & HL & Hc & Hav & Hcl & Hg & Ht & Hk
                                 & Hp & Hth).
    + lia.
    + rewrite Hr1.
      pose proof (reads_bound_drops (streams s r) (length b) burst rest Hlen Ha).
      lia.
    + exists s', (S k). cbn [loop]. unfold bind at 1. rewrite HI.
      split; [exact HL|]. split; [congruence|]. split; [exact Hav|].
      split.
      { rewrite Hcl, Hr1. unfold Reader_Read. now rewrite Ha. }
      split.
      { intros g Hne. rewrite (Hg g Hne), Hs1.
        now destruct (Nat.eqb_spec g r). }
      split.
      { rewrite Ht, Ht1, <- app_assoc. reflexivity. }
      split; [lia|]. split; congruence.
Qed.

(** X10: a pipe loop started without a handler still drains its stream:
    with enough fuel [readFromReader] returns after reading the stream to
    its end, having issued only reads of its own file and invoked nothing;
    the bytes are dropped. *)
Theorem nil_handler_pipe_loop_drains (tid : nat) (r : File) (fuel : nat)
    (s : System) :
  reads_bound (streams s r) < fuel ->
  exists s' k,
    readFromReader os fuel tid r None s = (true, s')
    /\ calls s' = calls s
    /\ avail (streams s' r) = []
    /\ (forall g, g <> r -> streams s' g = streams s g)
    /\ trace s' = trace s ++ repeat (SysRead r) k
    /\ 0 < k <= fuel
    /\ pm s' = pm s
    /\ threads s' = threads s.
Proof.
  intros Hfuel. unfold readFromReader. unfold bind at 1. rewrite make_spec.
  set (s0 := with_heap (heap s ++ [replicate bufSize x00]) s).
  destruct (loop_readFromReader_nil tid (length (heap s)) r fuel s0
              (replicate bufSize x00))
    as (s' & k & HL & Hc & Hav & _ & Hg & Ht & Hk & Hp & Hth).
  - subst s0. cbn [with_heap heap]. now apply list_lookup_middle.
  - rewrite length_replicate. unfold bufSize. lia.
  - exact Hfuel.
  - exists s', k. repeat (split; [assumption|]). exact Hth.
Qed.

(** X11: [StartWithPipes] launches the second loop on the stderr pipe
    with the error handler registered at that moment.  Run to its end that
    loop hands the handler the bytes of the stderr stream in order, in
    chunks of at least one and at most 4096 bytes, each in an array of its
    own, followed by the line "[Read Error]: <error>\n" when the stream
    closes with an error other than [io.EOF]. *)
Theorem stderr_delivered_to_error_handler (s : System) (h : Handler) :
  fst (StartWithPipes os s) = None ->
  onError (pm s) = Some h ->
  exists stdout stderr,
    threads (snd (StartWithPipes os s))
    = threads s
      ++ [ {| body := GoReadFromReader stdout (onOutput (pm s));
              state := Spawned |};
           {| body := GoReadFromReader stderr (Some h); state := Spawned |} ]
    /\ forall (s2 : System) (tid fuel : nat),
        reads_bound (streams s2 stderr) < fuel ->
        exists chunks buf s',
          readFromReader os fuel tid stderr (Some h) s2 = (true, s')
          /\ concat chunks = concat (avail (streams s2 stderr))
          /\ Forall (fun c => 0 < length c <= 4096) chunks
          /\ drop (length (calls s2)) (delivered s')
             = map (fun c => (tid, h, c))
                 (chunks ++ diagnostic os (closing (streams s2 stderr)))
          /\ heap s'
             = heap s2 ++ buf :: chunks
               ++ diagnostic os (closing (streams s2 stderr))
          /\ length buf = 4096
          /\ pm s' = pm s2.
Proof.
  intros Hok Hh. revert Hok. rewrite StartWithPipes_spec. cbv zeta.
  repeat match goal with
    | |- context [match ?x with inl _ => _ | inr _ => _ end] => destruct x
    end; cbn [fst snd]; try discriminate.
  intros _. rewrite Hh. eexists _, _. split; [reflexivity|].
  intros s2 tid fuel Hfuel.
  destruct (readFromReader_spec os tid _ h fuel s2 Hfuel)
    as (chunks & b' & s' & HR & Hcat & Hall & Hheap & Hb & Hca & Hdel & Hpm & _).
  exists chunks, b', s'. repeat split; auto.
Qed.

(** X15: [Wait] called while a pipe loop is still running closes the pipe
    under it ([exec.Cmd.Wait] closes the pipes of a started command): the
    loop's next pass reads nothing, hands the line
    "[Read Error]: read <name>: file already closed\n" to the handler it
    was launched with, if it has one, and returns; what the child had
    written and the loop had not yet read is lost. *)
Theorem Wait_closes_pipe_under_loop (tid buf : nat) (r : File)
    (handler : option Handler) (b : list byte) (s : System) :
  threads s !! tid
  = Some {| body := GoReadFromReader r handler; state := Looping buf |} ->
  heap s !! buf = Some b ->
  Proc (cmd (pm s)) <> None ->
  In r (pipes s) ->
  let s1 := snd (Wait os s) in
  let s2 := snd (thread_step os tid s1) in
  avail (streams s1 r) = []
  /\ threads s2 !! tid
     = Some {| body := GoReadFromReader r handler; state := Exited |}
  /\ calls s2 = calls s ++ call_slot tid handler (length (heap s))
  /\ (forall h, handler = Some h ->
        heap s2 !! length (heap s)
        = Some (list_byte_of_string
                  ("[Read Error]: read " +:+ fname (streams s r)
                   +:+ ": file already closed" +:+ LF)))
  /\ avail (streams s2 r) = []
  /\ pm s2 = pm s.
Proof.
  intros Hth Hb Hproc Hr. cbv zeta. rewrite Wait_spec. cbn [snd].
  set (s1 := issued SysWait s).
  assert (Hc : closed_as (fname (streams s r)) (streams s1 r)).
  { subst s1. cbn [issued streams effect].
    destruct (Proc (cmd (pm s))); [|congruence].
    unfold close_files.
    assert (Hex : existsb (Nat.eqb r) (pipes s) = true).
    { apply existsb_exists. exists r. split; [exact Hr|apply Nat.eqb_refl]. }
    rewrite Hex. apply closed_as_closed. }
  destruct Hc as (_ & Ha & Hcl).
  assert (Hth1 : threads s1 !! tid
                 = Some {| body := GoReadFromReader r handler;
                           state := Looping buf |}) by exact Hth.
  assert (Hb1 : heap s1 !! buf = Some b) by exact Hb.
  split; [exact Ha|].
  rewrite (thread_step_looping os tid buf r handler s1 Hth1). cbv zeta.
  rewrite (readFromReader_iter_leaves os tid buf r handler b s1 Hb1 Ha).
  cbn [fst snd]. rewrite Hcl.
  change (heap s1) with (heap s). change (calls s1) with (calls s).
  assert (Hd : diagnostic os (PathError "read" (fname (streams s r)) ErrClosed)
               = [list_byte_of_string
                    ("[Read Error]: read " +:+ fname (streams s r)
                     +:+ ": file already closed" +:+ LF)]).
  { unfold diagnostic. cbn [Error].
    rewrite bool_decide_eq_false_2 by discriminate.
    rewrite !string_app_assoc. reflexivity. }
  split.
  { cbn [with_thread after_read threads]. rewrite Hth1. cbn [body].
    apply list_lookup_insert_eq. eapply lookup_lt_Some; eauto. }
  cbn [with_thread after_read calls heap streams pm].
  unfold diag_calls, diag_heap. rewrite Hd.
  rewrite Nat.eqb_refl.
  assert (HR : avail (snd (Reader_Read (streams s1 r) (length b))) = [])
    by (unfold Reader_Read; now rewrite Ha).
  destruct handler as [h|]; cbn [call_slot length seq map].
  - split; [reflexivity|]. split; [|split; [exact HR|reflexivity]].
    intros h' _. now apply list_lookup_middle.
  - split; [now rewrite app_nil_r|]. split; [|split; [exact HR|reflexivity]].
    intros h' Hh'. discriminate.
Qed.

(** ** The stdin forwarder of the command-line tool *)

Lemma written_app f t1 t2 :
  written f (t1 ++ t2) = written f t1 ++ written f t2.
Proof.
  induction t1 as [|c t1 IH]; [reflexivity|].
  destruct c; cbn [written app]; try exact IH.
  destruct (Nat.eqb f0 f); cbn [app]; now rewrite IH.
Qed.

Lemma Write_sink data s :
  Write os data s
  = match sink (pm s) with
    | Some f => (file_Write os (trace s) f data, issued (SysWrite f data) s)
    | None => ((0%Z, Some NoInputAvailable), s)
    end.
Proof.
  unfold sink. destruct (pty (pm s)) as [f|] eqn:Hp;
    [now apply Write_pty|].
  destruct (stdinPipe (pm s)) as [f|] eqn:Hi;
    [now apply Write_stdin|now apply Write_unbound].
Qed.

(** A pass that read a chunk: the chunk is written to the sink. *)
Lemma forward_iter_reads stdin buf b burst rest s :
  heap s !! buf = Some b ->
  avail (streams s stdin) = burst :: rest ->
  take (length b) burst <> [] ->
  let chunk := take (length b) burst in
  let s1 := after_read stdin (length b)
              (<[buf := chunk ++ drop (length chunk) b]> (heap s)) (calls s) s in
  forward_iter os stdin buf s
  = match sink (pm s) with
    | Some f =>
        (match snd (file_Write os (trace s1) f chunk) with
         | Some _ => true
         | None => false
         end,
         issued (SysWrite f chunk) s1)
    | None => (true, s1)
    end.
Proof.
  intros Hb Ha Hne. cbv zeta.
  assert (Hlt : buf < length (heap s)) by (eapply lookup_lt_Some; eauto).
  unfold forward_iter. unfold bind at 1.
  rewrite (File_Read_explicit stdin buf b s Hb). cbv zeta.
  assert (Hd : fst (fst (Reader_Read (streams s stdin) (length b)))
               = take (length b) burst)
    by (unfold Reader_Read; now rewrite Ha).
  assert (He : snd (fst (Reader_Read (streams s stdin) (length b))) = None)
    by (unfold Reader_Read; now rewrite Ha).
  rewrite Hd, He. cbn [fst snd].
  assert (Hpos : (0 <? length (take (length b) burst)) = true).
  { apply Nat.ltb_lt. destruct (take (length b) burst); [congruence|simpl; lia]. }
  rewrite Hpos.
  set (chunk := take (length b) burst).
  set (s1 := after_read stdin (length b)
               (<[buf := chunk ++ drop (length chunk) b]> (heap s)) (calls s) s).
  unfold bind at 1. unfold bind at 1. unfold load at 1, gets at 1.
  assert (Hl : default [] (heap s1 !! buf) = chunk ++ drop (length chunk) b).
  { subst s1. cbn [after_read heap]. now rewrite list_lookup_insert_eq. }
  rewrite Hl, take_app_length. unfold bind at 1.
  rewrite Write_sink.
  change (pm s1) with (pm s).
  destruct (sink (pm s)) as [f|]; cbn [snd fst].
  - destruct (snd (file_Write os (trace s1) f chunk)); reflexivity.
  - reflexivity.
Qed.

Lemma forward_iter_idles stdin buf b rest s :
  heap s !! buf = Some b ->
  avail (streams s stdin) = [] :: rest ->
  forward_iter os stdin buf s
  = (false, after_read stdin (length b) (heap s) (calls s) s).
Proof.
  intros Hb Ha. unfold forward_iter. unfold bind at 1.
  rewrite (File_Read_explicit stdin buf b s Hb). cbv zeta.
  assert (Hd : fst (fst (Reader_Read (streams s stdin) (length b))) = [])
    by (unfold Reader_Read; rewrite Ha; simpl; now rewrite take_nil).
  assert (He : snd (fst (Reader_Read (streams s stdin) (length b))) = None)
    by (unfold Reader_Read; now rewrite Ha).
  rewrite Hd, He. cbn [fst snd length Nat.ltb Nat.leb app]. unfold bind, ret.
  rewrite drop_0, list_insert_id by assumption. reflexivity.
Qed.

Lemma forward_iter_leaves stdin buf b s :
  heap s !! buf = Some b ->
  avail (streams s stdin) = [] ->
  forward_iter os stdin buf s
  = (true, after_read stdin (length b) (heap s) (calls s) s).
Proof.
  intros Hb Ha. unfold forward_iter. unfold bind at 1.
  rewrite (File_Read_explicit stdin buf b s Hb). cbv zeta.
  assert (Hd : fst (fst (Reader_Read (streams s stdin) (length b))) = [])
    by (unfold Reader_Read; now rewrite Ha).
  assert (He : snd (fst (Reader_Read (streams s stdin) (length b)))
               = Some (closing (streams s stdin)))
    by (unfold Reader_Read; now rewrite Ha).
  rewrite Hd, He. cbn [fst snd length Nat.ltb Nat.leb app]. unfold bind, ret.
  rewrite drop_0, list_insert_id by assumption. reflexivity.
Qed.

Lemma loop_forward stdin buf f :
  (forall t d, snd (file_Write os t f d) = None) ->
  forall fuel s b,
    heap s !! buf = Some b ->
    0 < length b ->
    sink (pm s) = Some f ->
    reads_bound (streams s stdin) < fuel ->
    exists chunks s',
      loop fuel (forward_iter os stdin buf) s = (true, s')
      /\ concat chunks = concat (avail (streams s stdin))
      /\ Forall (fun c => 0 < length c <= length b) chunks
      /\ written f (trace s') = written f (trace s) ++ chunks
      /\ avail (streams s' stdin) = []
      /\ pm s' = pm s
      /\ calls s' = calls s
      /\ threads s' = threads s.
Proof.
  intros Hw. induction fuel as [|fuel IH]; intros s b Hb Hlen Hsink Hfuel; [lia|].
  assert (Hlt : buf < length (heap s)) by (eapply lookup_lt_Some; eauto).
  destruct (avail (streams s stdin)) as [|burst rest] eqn:Ha.
  - exists [], (after_read stdin (length b) (heap s) (calls s) s).
    cbn [loop]. unfold bind at 1.
    rewrite (forward_iter_leaves stdin buf b s Hb Ha).
    split; [reflexivity|]. split; [reflexivity|]. split; [constructor|].
    cbn [after_read trace streams pm calls threads].
    rewrite written_app, Nat.eqb_refl. cbn [written].
    split; [reflexivity|].
    split; [unfold Reader_Read; now rewrite Ha|]. now repeat split.
  - destruct (decide (take (length b) burst = [])) as [He|Hne].
    + assert (burst = []) as ->.
      { destruct burst; [reflexivity|].
        destruct b; simpl in *; [lia|discriminate]. }
      set (s1 := after_read stdin (length b) (heap s) (calls s) s).
      destruct (IH s1 b Hb Hlen Hsink) as (chunks & s' & HL & Hcat & Hall & Hwr
                                           & Hav & Hp & Hc & Hth).
      { subst s1. rewrite after_read_stream.
        pose proof (reads_bound_drops (streams s stdin) (length b) [] rest
                      Hlen Ha). lia. }
      exists chunks, s'. cbn [loop]. unfold bind at 1.
      rewrite (forward_iter_idles stdin buf b rest s Hb Ha).
      split; [exact HL|].
      split.
      { rewrite Hcat. subst s1. rewrite after_read_stream.
        rewrite (avail_after_read _ _ [] rest Hlen Ha). now rewrite drop_nil. }
      split; [exact Hall|].
      split.
      { rewrite Hwr. subst s1. cbn [after_read trace].
        rewrite written_app. cbn [written]. now rewrite app_nil_r. }
      split; [exact Hav|]. now repeat split.
    + set (chunk := take (length b) burst) in *.
      set (b1 := chunk ++ drop (length chunk) b).
      set (s1 := after_read stdin (length b) (<[buf := b1]> (heap s))
                   (calls s) s).
      assert (Hchunk : 0 < length chunk <= length b).
      { split; [destruct chunk; [congruence|simpl; lia]|].
        subst chunk. rewrite length_take. lia. }
      assert (Hb1 : length b1 = length b).
      { subst b1. rewrite length_app, length_drop. lia. }
      destruct (IH (issued (SysWrite f chunk) s1) b1)
        as (chunks & s' & HL & Hcat & Hall & Hwr & Hav & Hp & Hc & Hth).
      { subst s1. cbn [issued heap after_read].
        now apply list_lookup_insert_eq. }
      { lia. }
      { exact Hsink. }
      { subst s1. cbn [issued streams]. rewrite after_read_stream.
        pose proof (reads_bound_drops (streams s stdin) (length b) burst rest
                      Hlen Ha). lia. }
      exists (chunk :: chunks), s'. cbn [loop]. unfold bind at 1.
      pose proof (forward_iter_reads stdin buf b burst rest s Hb Ha Hne) as HI.
      cbv zeta in HI. rewrite Hsink in HI. fold chunk in HI. fold b1 in HI.
      fold s1 in HI. rewrite Hw in HI. rewrite HI.
      split; [exact HL|].
      split.
      { cbn [concat]. rewrite Hcat. subst s1. cbn [issued streams].
        rewrite after_read_stream.
        rewrite (avail_after_read _ _ burst rest Hlen Ha).
        subst chunk. now rewrite app_assoc, take_drop. }
      split; [constructor; [exact Hchunk|now rewrite Hb1 in Hall]|].
      split.
      { rewrite Hwr. subst s1. cbn [issued after_read trace].
        rewrite !written_app. cbn [written]. rewrite Nat.eqb_refl.
        now rewrite app_nil_r, <- app_assoc. }
      split; [exact Hav|]. now repeat split.
Qed.

(** X12: the goroutine of the command-line tool that forwards standard
    input: when the manager has a sink and writes to it succeed, the
    goroutine returns once standard input is exhausted, and what it wrote
    to the sink is the whole of standard input, in order, in pieces of at
    least one and at most 1024 bytes.  It invokes no handler and changes
    no field of the manager. *)
Theorem forward_stdin_delivers_all (stdin f : File) (fuel : nat) (s : System) :
  sink (pm s) = Some f ->
  (forall t d, snd (file_Write os t f d) = None) ->
  reads_bound (streams s stdin) < fuel ->
  exists chunks s',
    forward_stdin os fuel stdin s = (true, s')
    /\ written f (trace s') = written f (trace s) ++ chunks
    /\ concat chunks = concat (avail (streams s stdin))
    /\ Forall (fun c => 0 < length c <= 1024) chunks
    /\ avail (streams s' stdin) = []
    /\ pm s' = pm s
    /\ calls s' = calls s.
Proof.
  intros Hsink Hw Hfuel. unfold forward_stdin. unfold bind at 1.
  rewrite make_spec.
  set (s0 := with_heap (heap s ++ [replicate stdinSize x00]) s).
  destruct (loop_forward stdin (length (heap s)) f Hw fuel s0
              (replicate stdinSize x00))
    as (chunks & s' & HL & Hcat & Hall & Hwr & Hav & Hp & Hc & _).
  - subst s0. cbn [with_heap heap]. now apply list_lookup_middle.
  - rewrite length_replicate. unfold stdinSize. lia.
  - exact Hsink.
  - exact Hfuel.
  - rewrite length_replicate in Hall. exists chunks, s'.
    split; [exact HL|]. split; [exact Hwr|]. split; [exact Hcat|].
    split; [exact Hall|]. split; [exact Hav|]. now split.
Qed.

(** X13: the forwarding goroutine gives up at the first write that
    fails: after one read and (when a sink is bound) one write it returns,
    and the bytes of standard input beyond the first 1024 of the burst are
    left unread.  With no sink bound [Write] fails without a system call,
    so nothing is written at all. *)
Theorem forward_stdin_stops_at_failed_write (stdin : File) (fuel : nat)
    (burst : list byte) (rest : list (list byte)) (s : System) :
  avail (streams s stdin) = burst :: rest ->
  burst <> [] ->
  match sink (pm s) with
  | Some f =>
      snd (file_Write os (trace s ++ [SysRead stdin]) f (take 1024 burst))
      <> None
  | None => True
  end ->
  exists s',
    forward_stdin os (S fuel) stdin s = (true, s')
    /\ trace s'
       = trace s ++ SysRead stdin
         :: match sink (pm s) with
            | Some f => [SysWrite f (take 1024 burst)]
            | None => []
            end
    /\ concat (avail (streams s' stdin)) = drop 1024 burst ++ concat rest
    /\ pm s' = pm s
    /\ calls s' = calls s.
Proof.
  intros Ha Hne Hfail. unfold forward_stdin. unfold bind at 1.
  rewrite make_spec.
  set (s0 := with_heap (heap s ++ [replicate stdinSize x00]) s).
  assert (Hb : heap s0 !! length (heap s) = Some (replicate stdinSize x00))
    by (subst s0; cbn [with_heap heap]; now apply list_lookup_middle).
  assert (Hne' : take (length (replicate stdinSize x00)) burst <> []).
  { rewrite length_replicate. destruct burst; [congruence|discriminate]. }
  pose proof (forward_iter_reads stdin (length (heap s))
                (replicate stdinSize x00) burst rest s0 Hb Ha Hne') as HI.
  cbv zeta in HI. rewrite length_replicate in HI.
  cbn [loop]. unfold bind at 1. rewrite HI.
  change (pm s0) with (pm s). change (stdinSize) with 1024 in *.
  destruct (sink (pm s)) as [f|].
  - cbn [after_read trace with_heap] in *.
    destruct (snd (file_Write os (trace s0 ++ [SysRead stdin]) f
                     (take 1024 burst))) eqn:Hwr; [|now elim Hfail].
    eexists. split; [reflexivity|].
    cbn [issued effect trace after_read streams pm calls].
    rewrite <- app_assoc, Nat.eqb_refl.
    split; [reflexivity|].
    split; [apply avail_after_read; [lia|exact Ha]|]. now split.
  - eexists. split; [reflexivity|]. cbn [after_read trace streams pm calls].
    rewrite Nat.eqb_refl.
    split; [reflexivity|].
    split; [apply avail_after_read; [lia|exact Ha]|]. now split.
Qed.

(** ** Writes of a run *)

Lemma written_reads f t : forallb is_read t = true -> written f t = [].
Proof.
  induction t as [|c t IH]; [reflexivity|]. cbn [forallb].
  intros H. apply andb_prop in H as [Hc Ht]. destruct c; try discriminate.
  cbn [written]. now apply IH.
Qed.

Lemma written_closes g p : written g (closes p ++ kills p) = [].
Proof.
  unfold closes, kills.
  destruct (pty p), (stdinPipe p), (Proc (cmd p)); reflexivity.
Qed.

Lemma exec_written e s g :
  starts e = false ->
  written g (trace (snd (exec os e s)))
  = written g (trace s)
    ++ match e, sink (pm s) with
       | CallWrite data, Some f => if Nat.eqb f g then [data] else []
       | _, _ => []
       end.
Proof.
  intros Hs. destruct e; try discriminate; cbn [exec]; unfold skip, bind, ret.
  - now rewrite app_nil_r.
  - now rewrite app_nil_r.
  - rewrite Write_sink. destruct (sink (pm s)) as [f|]; cbn [snd issued trace].
    + rewrite written_app. cbn [written].
      now destruct (Nat.eqb f g).
    + now rewrite app_nil_r.
  - rewrite Stop_spec. cbn [snd trace].
    rewrite written_app. cbn [written]. now rewrite written_closes.
  - rewrite Wait_spec. cbn [snd issued trace]. now rewrite written_app.
  - destruct (only_reads_thread_step tid s) as (t & Ht & Hall).
    rewrite Ht, written_app, (written_reads g t Hall).
    now destruct (sink (pm s)).
Qed.

(** X9: between starts the sink of [Write] does not change, and every
    [Write] of the caller reaches it: the byte sequences written to the
    sink over a run are exactly the arguments of the calls of [Write], one
    write each, in call order and unchanged, however the calls interleave
    with the goroutines and with [Stop] and [Wait]; nothing is written to
    any other file. *)
Theorem writes_reach_sink_in_order (s : System) (f : File) (es : list Event) :
  sink (pm s) = Some f ->
  Forall (fun e => starts e = false) es ->
  written f (trace (snd (run os es s))) = written f (trace s) ++ writes_of es
  /\ (forall g, g <> f ->
        written g (trace (snd (run os es s))) = written g (trace s))
  /\ sink (pm (snd (run os es s))) = Some f.
Proof.
  intros Hsink Hes. revert s Hsink.
  induction Hes as [|e es He Hes IH]; intros s Hsink.
  - cbn [run ret snd writes_of]. rewrite app_nil_r. now repeat split.
  - cbn [run]. unfold bind.
    pose proof (exec_written e s) as Hw.
    destruct (exec_keeps_handles e s He) as (_ & Hp & Hi).
    destruct (exec os e s) as [[] s1]. cbn [snd] in *.
    assert (Hsink1 : sink (pm s1) = Some f)
      by (unfold sink in *; now rewrite Hp, Hi).
    destruct (IH s1 Hsink1) as (H1 & H2 & H3).
    split; [|split; [|exact H3]].
    + rewrite H1, (Hw f He), Hsink.
      destruct e; cbn [writes_of]; rewrite ?app_nil_r; try reflexivity.
      now rewrite Nat.eqb_refl, <- app_assoc.
    + intros g Hg. rewrite (H2 g Hg), (Hw g He), Hsink.
      destruct e; rewrite ?app_nil_r; try reflexivity.
      destruct (Nat.eqb_spec f g); [congruence|now rewrite app_nil_r].
Qed.

End Behaviour.

(** ** Runs of the properties above *)

Section Scenarios.


(** Handler 7 is registered while the loop is running: the next chunk goes
    to it. *)
Lemma pty_pass_delivers_to_current_handler_witness :
  let s := pty_looping linux two_chunks in
  let s2 := snd (thread_step linux 0 (snd (SetOutputHandler (Some 7) s))) in
  threads s !! 0 = Some {| body := GoReadOutput; state := Looping 0 |}
  /\ pty (pm s) = Some 3
  /\ heap s !! 0 = Some (replicate bufSize x00)
  /\ avail (streams s 3) = [[x61; x62]; [x63]]
  /\ calls s2 = [call 0 7 1]
  /\ heap s2 !! 1 = Some [x61; x62]
  /\ concat (avail (streams s2 3)) = [x63].
Proof.
  cbv zeta.
  split; [reflexivity|]. split; [reflexivity|]. split; [reflexivity|].
  split; [reflexivity|].
  destruct (pty_pass_delivers_to_current_handler linux 0 0 3
              (replicate bufSize x00) [x61; x62] [[x63]]
              (pty_looping linux two_chunks) (Some 7)
              eq_refl eq_refl eq_refl (length_replicate _ _) eq_refl
              ltac:(discriminate))
    as (H1 & H2 & H3 & _).
  split; [exact H1|]. split; [exact H2|exact H3].
Defined.

(** The PTY is closed under the loop with EBADF: error handler 2 is told. *)
Lemma pty_loop_leaves_on_close_witness :
  let s := pty_looping linux closed_at_once in
  let s' := snd (thread_step linux 0 s) in
  threads s !! 0 = Some {| body := GoReadOutput; state := Looping 0 |}
  /\ pty (pm s) = Some 3
  /\ heap s !! 0 = Some (replicate bufSize x00)
  /\ avail (streams s 3) = []
  /\ threads s' !! 0 = Some {| body := GoReadOutput; state := Exited |}
  /\ calls s' = [call 0 2 1]
  /\ heap s' !! 1
     = Some (list_byte_of_string
               (LF +:+ "[Read Error]: bad file descriptor" +:+ LF)).
Proof.
  cbv zeta.
  split; [reflexivity|]. split; [reflexivity|]. split; [reflexivity|].
  split; [reflexivity|].
  destruct (pty_loop_leaves_on_close linux 0 0 3 (replicate bufSize x00)
              (pty_looping linux closed_at_once)
              eq_refl eq_refl eq_refl eq_refl)
    as (H1 & _ & _ & _ & _ & H2).
  destruct (H2 2 ltac:(discriminate) eq_refl eq_refl) as [H3 H4].
  split; [exact H1|]. split; [exact H3|exact H4].
Defined.

(** A second [StartWithPTY] on a running manager is refused. *)
Lemma failed_restart_unbinds_pty_witness :
  let s := pty_looping starts_once two_chunks in
  let s1 := snd (StartWithPTY starts_once s) in
  let s2 := snd (thread_step starts_once 0 s1) in
  pty (pm s) = Some 3
  /\ pty_Start starts_once (trace s) (cmd (pm s))
     = inr (ErrorString "exec: already started")
  /\ pty (pm s1) = None
  /\ running (pm s1) = running (pm s)
  /\ threads s2 !! 0 = Some {| body := GoReadOutput; state := Exited |}
  /\ calls s2 = calls s1 ++ call_slot 0 (onError (pm s)) (length (heap s1)).
Proof.
  cbv zeta.
  split; [reflexivity|]. split; [reflexivity|].
  destruct (failed_restart_unbinds_pty starts_once
              (pty_looping starts_once two_chunks) 3
              (ErrorString "exec: already started") 24%Z 80%Z [x61]
              eq_refl eq_refl)
    as (_ & H1 & H2 & _ & _ & _ & _ & _ & H3).
  destruct (H3 0 0 eq_refl) as (H4 & _ & _ & H5 & _).
  split; [exact H1|]. split; [exact H2|]. split; [exact H4|exact H5].
Defined.

(** After a write, a pass of the loop, [Stop] and [Wait]. *)
Lemma Pid_and_Session_lifecycle_witness :
  let es := [CallWrite [x61]; Step 0; CallStop; CallWait] in
  Forall (fun e => starts e = false) es
  /\ fst (Pid_ (snd (run linux es started_with_pty))) = 100%Z
  /\ fst (Session (snd (run linux es started_with_pty))) = Some 3.
Proof.
  cbv zeta.
  assert (Hes : Forall (fun e => starts e = false)
                  [CallWrite [x61]; Step 0; CallStop; CallWait])
    by (repeat constructor).
  split; [exact Hes|].
  exact (proj2 (proj2 (proj2 (proj2 (proj2
           (Pid_and_Session_lifecycle linux started_with_pty
              [CallWrite [x61]; Step 0; CallStop; CallWait])))))
           Hes).
Defined.

(** The two loops, a write and the stop after a start in pipe mode. *)
Lemma pipe_mode_closes_only_stdin_witness :
  let p := New linux "cat" [] in
  let s' := snd (run linux drain_interleaved
                   (snd (StartWithPipes linux (boot p two_chunks)))) in
  pty p = None
  /\ fst (StartWithPipes linux (boot p two_chunks)) = None
  /\ Forall (fun e => starts e = false) drain_interleaved
  /\ In (SysClose 4) (trace s')
  /\ (forall f, In (SysClose f) (trace s') -> f = 4)
  /\ closing (streams s' 5) = EOF
  /\ closing (streams s' 6) = EOF.
Proof.
  cbv zeta.
  assert (Hes : Forall (fun e => starts e = false) drain_interleaved)
    by (repeat constructor).
  split; [reflexivity|]. split; [reflexivity|]. split; [exact Hes|].
  destruct (pipe_mode_closes_only_stdin linux (New linux "cat" []) two_chunks
              drain_interleaved eq_refl eq_refl Hes)
    as (stdin & stdout & stderr & Hs & Ho & He & Hc & Hstop & _ & _ & _ & _
        & Hr).
  vm_compute in Hs, Ho, He.
  injection Hs as <-. injection Ho as <-. injection He as <-.
  assert (Hnw : ~ In CallWait drain_interleaved).
  { unfold drain_interleaved. cbn [In].
    intros H. repeat (destruct H as [H|H]; [discriminate|]). exact H. }
  split.
  { apply Hstop. unfold drain_interleaved. do 11 right. now left. }
  split; [intros f Hf; exact (proj1 (Hc f Hf))|].
  split.
  - exact (proj1 (Hr 5 (or_introl eq_refl)) Hnw ltac:(discriminate)).
  - exact (proj1 (Hr 6 (or_intror eq_refl)) Hnw ltac:(discriminate)).
Defined.

(** The stdout pipe cannot be created: too many open files. *)
Lemma start_errors_wrap_their_cause_witness :
  let s := boot (New no_stdout_pipe "cat" []) two_chunks in
  let e := Errorf_w no_stdout_pipe "create stdout pipe: " (Errno 24) in
  fst (StartWithPipes no_stdout_pipe s) = Some e
  /\ exists prefix cause,
      first_failure no_stdout_pipe s = Some (prefix, cause)
      /\ e = Errorf_w no_stdout_pipe prefix cause
      /\ Unwrap e = Some cause
      /\ Error no_stdout_pipe e = prefix +:+ Error no_stdout_pipe cause
      /\ (forall target, errors_Is cause target = true ->
                         errors_Is e target = true).
Proof.
  cbv zeta. split; [reflexivity|].
  exact (proj2 (start_errors_wrap_their_cause no_stdout_pipe
                  (boot (New no_stdout_pipe "cat" []) two_chunks)
                  (Errorf_w no_stdout_pipe "create stdout pipe: " (Errno 24)))
           eq_refl).
Defined.

(** The example program on a system that cannot create the stdout pipe. *)
Lemma fallback_to_PTY_witness :
  let os := no_stdout_pipe in
  let p := with_onOutput (Some 1) (New os "gemini" ["--help"]) in
  let s1 := snd (StartWithPipes os (boot p two_chunks)) in
  let s2 := snd (StartWithPTY os s1) in
  pty p = None /\ stdinPipe p = None
  /\ fst (StartWithPipes os (boot p two_chunks)) <> None
  /\ fst (StartWithPTY os s1) = None
  /\ threads s2 = [ {| body := GoReadOutput; state := Spawned |} ]
  /\ Write os [x61] s2
     = (file_Write os (trace s2) 3 [x61], issued (SysWrite 3 [x61]) s2)
  /\ trace (snd (Stop os s2))
     = trace s2 ++ [SysCancel; SysClose 3; SysClose 4; SysKill {| Pid := 100 |}].
Proof.
  cbv zeta.
  split; [reflexivity|]. split; [reflexivity|].
  split; [discriminate|]. split; [reflexivity|].
  destruct (fallback_to_PTY no_stdout_pipe
              (with_onOutput (Some 1) (New no_stdout_pipe "gemini" ["--help"]))
              two_chunks [x61] eq_refl eq_refl ltac:(discriminate) eq_refl)
    as (f & proc & Hst & _ & _ & _ & _ & _ & Hth & Hw & Htr).
  vm_compute in Hst. injection Hst as <- <-.
  split; [exact Hth|]. split; [exact Hw|exact Htr].
Defined.

(** Two writes interleaved with the PTY loop and the stop. *)
Lemma writes_reach_sink_in_order_witness :
  sink (pm started_with_pty) = Some 3
  /\ Forall (fun e => starts e = false) pty_interleaved
  /\ written 3 (trace (snd (run linux pty_interleaved started_with_pty)))
     = [[x61]; [x62; x63]].
Proof.
  assert (Hes : Forall (fun e => starts e = false) pty_interleaved)
    by (repeat constructor).
  split; [reflexivity|]. split; [exact Hes|].
  exact (proj1 (writes_reach_sink_in_order linux started_with_pty 3
                  pty_interleaved eq_refl Hes)).
Defined.

(** A loop without a handler on the stream "ab", "c". *)
Lemma nil_handler_pipe_loop_drains_witness :
  reads_bound (streams created 5) < 6
  /\ exists s' k,
      readFromReader linux 6 0 5 None created = (true, s')
      /\ calls s' = []
      /\ avail (streams s' 5) = []
      /\ trace s' = repeat (SysRead 5) k.
Proof.
  assert (Hfuel : reads_bound (streams created 5) < 6) by (vm_compute; lia).
  split; [exact Hfuel|].
  destruct (nil_handler_pipe_loop_drains linux 0 5 6 created Hfuel)
    as (s' & k & H1 & H2 & H3 & _ & H4 & _).
  exists s', k. split; [exact H1|]. split; [exact H2|]. split; [exact H3|exact H4].
Defined.

(** The stderr pipe is closed under its loop after "ab". *)
Lemma stderr_delivered_to_error_handler_witness :
  let s := boot (with_onError (Some 2) (New linux "cat" [])) closed_early in
  fst (StartWithPipes linux s) = None
  /\ onError (pm s) = Some 2
  /\ exists chunks s',
      readFromReader linux 4 1 6 (Some 2) (snd (StartWithPipes linux s))
      = (true, s')
      /\ concat chunks = [x61; x62]
      /\ delivered s'
         = map (fun c => (1, 2, c))
             (chunks
              ++ [list_byte_of_string
                    ("[Read Error]: read |0: file already closed" +:+ LF)]).
Proof.
  cbv zeta. split; [reflexivity|]. split; [reflexivity|].
  destruct (stderr_delivered_to_error_handler linux
              (boot (with_onError (Some 2) (New linux "cat" [])) closed_early)
              2 eq_refl eq_refl)
    as (stdout & stderr & Hth & H).
  vm_compute in Hth. injection Hth as <- <-.
  destruct (H (snd (StartWithPipes linux
                      (boot (with_onError (Some 2) (New linux "cat" []))
                         closed_early))) 1 4 ltac:(vm_compute; lia))
    as (chunks & buf & s' & H1 & H2 & _ & H3 & _).
  exists chunks, s'. split; [exact H1|]. split; [exact H2|exact H3].
Defined.

(** The tool forwards the input "ab", "c" to a child on a PTY. *)
Lemma forward_stdin_delivers_all_witness :
  let s := snd (StartWithPTY writable (boot (New writable "cat" []) two_chunks)) in
  sink (pm s) = Some 3
  /\ (forall t d, snd (file_Write writable t 3 d) = None)
  /\ reads_bound (streams s 0) < 6
  /\ exists chunks s',
      forward_stdin writable 6 0 s = (true, s')
      /\ written 3 (trace s') = chunks
      /\ concat chunks = [x61; x62; x63].
Proof.
  cbv zeta.
  assert (Hfuel : reads_bound
                    (streams (snd (StartWithPTY writable
                                     (boot (New writable "cat" []) two_chunks)))
                       0) < 6) by (vm_compute; lia).
  split; [reflexivity|]. split; [reflexivity|]. split; [exact Hfuel|].
  destruct (forward_stdin_delivers_all writable 0 3 6
              (snd (StartWithPTY writable
                      (boot (New writable "cat" []) two_chunks)))
              eq_refl (fun _ _ => eq_refl) Hfuel)
    as (chunks & s' & H1 & H2 & H3 & _).
  exists chunks, s'. split; [exact H1|]. split; [exact H2|exact H3].
Defined.

(** The tool forwards input after the manager was stopped: the write to
    the closed PTY master fails. *)
Lemma forward_stdin_stops_at_failed_write_witness :
  let s := snd (Stop linux started_with_pty) in
  avail (streams s 0) = [[x61; x62]; [x63]]
  /\ snd (file_Write linux (trace s ++ [SysRead 0]) 3 [x61; x62]) <> None
  /\ exists s',
      forward_stdin linux 5 0 s = (true, s')
      /\ trace s' = trace s ++ [SysRead 0; SysWrite 3 [x61; x62]]
      /\ concat (avail (streams s' 0)) = [x63].
Proof.
  cbv zeta. split; [reflexivity|]. split; [discriminate|].
  destruct (forward_stdin_stops_at_failed_write linux 0 4 [x61; x62] [[x63]]
              (snd (Stop linux started_with_pty)) eq_refl
              ltac:(discriminate) ltac:(discriminate))
    as (s' & H1 & H2 & H3 & _).
  exists s'. split; [exact H1|]. split; [exact H2|exact H3].
Defined.

(** The stdout loop of a manager created with handler 1, interleaved with
    the stderr loop, a change of handler, a write and the stop. *)
Lemma stdout_delivered_in_order_witness :
  let p := with_onOutput (Some 1) (New linux "cat" []) in
  let s' := snd (run linux drain_interleaved
                   (snd (StartWithPipes linux (boot p two_chunks)))) in
  onOutput p = Some 1
  /\ pty p = None
  /\ fst (StartWithPipes linux (boot p two_chunks)) = None
  /\ Forall (fun e => starts e = false /\ e <> CallWait) drain_interleaved
  /\ exists chunks,
      delivered_by 0 s' = map (fun c => (1, c)) chunks
      /\ Forall (fun c => 0 < length c <= 4096) chunks
      /\ concat chunks = [x61; x62; x63]
      /\ NoDup (map arg (calls s')).
Proof.
  cbv zeta.
  assert (Hes : Forall (fun e => starts e = false /\ e <> CallWait)
                  drain_interleaved)
    by (repeat constructor; discriminate).
  split; [reflexivity|]. split; [reflexivity|]. split; [reflexivity|].
  split; [exact Hes|].
  destruct (stdout_delivered_in_order linux
              (with_onOutput (Some 1) (New linux "cat" [])) two_chunks 1
              drain_interleaved eq_refl eq_refl eq_refl Hes)
    as (stdin & stdout & stderr & Hin & Hth & H).
  vm_compute in Hin, Hth. injection Hin as <-. injection Hth as <- <-.
  destruct (H ltac:(discriminate) ltac:(discriminate) eq_refl)
    as (chunks & rest & Hd & Hall & Hcat & Hnd & _ & Hfull).
  destruct (Hfull ltac:(vm_compute; lia)) as [-> _].
  exists chunks. rewrite app_nil_r in Hcat.
  split; [exact Hd|]. split; [exact Hall|]. split; [exact Hcat|exact Hnd].
Defined.

(** [Wait] is called when the stdout loop has only allocated its buffer:
    nothing of "ab", "c" is delivered. *)
Lemma Wait_closes_pipe_under_loop_witness :
  let s := pipes_looping in
  let s2 := snd (thread_step linux 0 (snd (Wait linux s))) in
  threads s !! 0
  = Some {| body := GoReadFromReader 5 (Some 1); state := Looping 0 |}
  /\ heap s !! 0 = Some (replicate bufSize x00)
  /\ Proc (cmd (pm s)) <> None
  /\ In 5 (pipes s)
  /\ threads s2 !! 0
     = Some {| body := GoReadFromReader 5 (Some 1); state := Exited |}
  /\ calls s2 = [call 0 1 1]
  /\ heap s2 !! 1
     = Some (list_byte_of_string
               ("[Read Error]: read |0: file already closed" +:+ LF))
  /\ avail (streams s2 5) = [].
Proof.
  cbv zeta.
  assert (Hp : Proc (cmd (pm pipes_looping)) <> None) by discriminate.
  assert (Hi : In 5 (pipes pipes_looping)) by (right; now left).
  split; [reflexivity|]. split; [reflexivity|]. split; [exact Hp|].
  split; [exact Hi|].
  destruct (Wait_closes_pipe_under_loop linux 0 0 5 (Some 1)
              (replicate bufSize x00) pipes_looping eq_refl eq_refl Hp Hi)
    as (_ & H1 & H2 & H3 & H4 & _).
  split; [exact H1|]. split; [exact H2|]. split; [exact (H3 1 eq_refl)|exact H4].
Defined.

End Scenarios.
